(** * Spotseat: the thermal seat finder, one cycle of its main loop

    A shallow embedding of [thermal_seat_finder.py].  The script is one
    endless loop; every iteration reads a 1544-byte frame from the UART,
    checks its header and checksum, decodes 32 x 24 temperatures, tracks
    minimum, maximum and the occupancy flag in one pass, pulses the
    vibration motor (debounced) and draws the thermal image.

    - Bytes are [Init.Byte.byte]; [byte.unsigned] is the [int] Python
      hands out for [frame[i]].
    - Integers are [Z]; list indices are [nat].
    - A Python [float] is the rational number it denotes, in [Q]; every
      float operation of the script is the exact operation followed by
      rounding to the nearest binary64 value, ties to even ([b64]), the
      arithmetic of the [python3] the script names in its first line.
      Comparisons, [int()] and the formatting of a float act on the
      exact value, as they do in Python.
    - The peripherals (UART, clock, motor, LCD, image library) are
      outside the script: what the loop reads from them is an input of
      the cycle, what it does to them is an event of the cycle's trace. *)

From Stdlib Require Import ZArith List Lia Bool QArith Qround Qabs Qpower Lqa.
From Stdlib Require Import String Ascii DecimalString.
From Stdlib Require Import PrimFloat FloatOps SpecFloat Uint63.
From coqutil Require Import Byte Word.LittleEndianList.
Import ListNotations.

Local Open Scope Z_scope.

(** ** Configuration constants *)

Definition START_FLAG : Z := 0x5A.
Definition SENSOR_WIDTH : Z := 32.
Definition SENSOR_HEIGHT : Z := 24.
Definition LCD_W : Z := 160.
Definition LCD_H : Z := 120.
Definition MAX_TEMP_LIMIT : Z := 300.
Definition MIN_TEMP_LIMIT : Z := 0.
Definition PERSON_TEMP_THRESHOLD : Z := 30.
Definition VIBRATION_INTERVAL_MS : Z := 500.

(** The frame length [1544] is a literal of the script, as are the bound
    [1542] of the checksum loop and the indices [1542], [1543]. *)
Definition FRAME_LEN : nat := 1544.

(** ** Python helpers *)

(** [frame[i]] on a [bytes] object: an [int] in [0, 256).  Every index
    the script uses is below 1544, the length it has checked before. *)
Definition byte_at (frame : list byte) (i : nat) : Z :=
  byte.unsigned (nth i frame Byte.x00).

(** [frame[a:b]] for [a <= b]. *)
Definition slice (frame : list byte) (a b : nat) : list byte :=
  firstn (b - a) (skipn a frame).

(** [frame[-2:]]. *)
Definition last_two (frame : list byte) : list byte :=
  skipn (List.length frame - 2) frame.

(** [int.from_bytes(bs, 'little')]. *)
Definition from_bytes_little (bs : list byte) : Z := le_combine bs.

(** [range(0, stop, 2)]. *)
Definition range_by_2 (stop : nat) : list nat :=
  map (fun k => 2 * k)%nat (seq 0 (Nat.div2 (stop + 1))).

(** [range(n)]. *)
Definition range (n : nat) : list nat := seq 0 n.

(** ** Frame validation (lines 59-77) *)

Inductive reject_reason := InvalidHeader | ChecksumMismatch.

Inductive validation := Accepted | Rejected (r : reject_reason).

(** [word = (frame[i+1] << 8) | frame[i]] *)
Definition frame_word (frame : list byte) (i : nat) : Z :=
  Z.lor (Z.shiftl (byte_at frame (i + 1)) 8) (byte_at frame i).

(** One turn of the checksum loop:
    [checksum = (checksum + word) & 0xFFFF]. *)
Definition checksum_step (frame : list byte) (checksum : Z) (i : nat) : Z :=
  Z.land (checksum + frame_word frame i) 0xFFFF.

(** [checksum = 0; for i in range(0, 1542, 2): ...] *)
Definition compute_checksum (frame : list byte) : Z :=
  fold_left (checksum_step frame) (range_by_2 1542) 0.

(** [recv_sum = (frame[1543] << 8) | frame[1542]] *)
Definition recv_sum (frame : list byte) : Z :=
  Z.lor (Z.shiftl (byte_at frame 1543) 8) (byte_at frame 1542).

(** [frame[0] != START_FLAG or frame[1] != START_FLAG] *)
Definition header_bad (frame : list byte) : bool :=
  negb (byte_at frame 0 =? START_FLAG) || negb (byte_at frame 1 =? START_FLAG).

(** The two checks in the order of the script: the header first, the
    checksum only for a frame whose header passed. *)
Definition validate (frame : list byte) : validation :=
  if header_bad frame then Rejected InvalidHeader
  else if negb (compute_checksum frame =? recv_sum frame)
       then Rejected ChecksumMismatch
       else Accepted.

(** ** Binary64 arithmetic *)

(** The integer nearest to [n / d], ties to even, for [0 < d]. *)
Definition round_div (n d : Z) : Z :=
  let f := n / d in
  match 2 * (n mod d) ?= d with
  | Lt => f
  | Gt => f + 1
  | Eq => if Z.even f then f else f + 1
  end.

(** Nearest integer, ties to even. *)
Definition round_half_even (q : Q) : Z :=
  round_div (Qnum q) (Z.pos (Qden q)).

(** [q * 2 ^ k]. *)
Definition Qshift (q : Q) (k : Z) : Q :=
  match k with
  | 0 => q
  | Z.pos p => (Qnum q * 2 ^ Z.pos p) # Qden q
  | Z.neg p => Qnum q # (Qden q * 2 ^ p)
  end.

(** For [0 < q], the exponent [e] with [2 ^ e <= q < 2 ^ (e + 1)]. *)
Definition floor_log2 (q : Q) : Z :=
  let k := Z.log2 (Qnum q) - Z.log2 (Z.pos (Qden q)) in
  if Qle_bool 1 (Qshift q (- k)) then k else k - 1.

(** For [0 < q], the nearest number with a 53-bit significand. *)
Definition b64_pos (q : Q) : Q :=
  let e := floor_log2 q - 52 in
  Qshift (inject_Z (round_half_even (Qshift q (- e)))) e.

(** Rounding to binary64, nearest, ties to even.  The exponent range is
    left unbounded: the script computes nothing larger than a few
    hundred thousand and no non-zero value smaller than a difference of
    two doubles below 656, far from overflow and from the subnormal
    numbers. *)
Definition b64 (q : Q) : Q :=
  match Qnum q with
  | 0 => 0%Q
  | Z.pos _ => b64_pos q
  | Z.neg _ => (- b64_pos (- q))%Q
  end.

(** The float operations [+], [-], [*], [/]. *)
Definition fadd (a b : Q) : Q := b64 (a + b).
Definition fsub (a b : Q) : Q := b64 (a - b).
Definition fmul (a b : Q) : Q := b64 (a * b).
Definition fdiv (a b : Q) : Q := b64 (a / b).

(** ** Temperatures *)

(** [a < b] on two numbers, as a test. *)
Definition Qltb (a b : Q) : bool := negb (Qle_bool b a).

(** Python's [max(a, b)]: the first argument unless the second is
    strictly greater. *)
Definition py_max (a b : Q) : Q := if Qltb a b then b else a.

(** Python's [min(a, b)]: the first argument unless the second is
    strictly smaller. *)
Definition py_min (a b : Q) : Q := if Qltb b a then b else a.

(** [int(x)] on a float: truncation toward zero. *)
Definition py_int (x : Q) : Z := Z.quot (Qnum x) (Z.pos (Qden x)).

(** [int.from_bytes(raw, 'little') / 100.0] *)
Definition temp_of_raw (raw : list byte) : Q :=
  fdiv (inject_Z (from_bytes_little raw)) 100.

(** ** Parsing and the single-pass scan (lines 79-98) *)

(** The five variables the scan loop updates. *)
Record scan_state := {
  temps : list Q;
  min_temp : Q;
  max_temp : Q;
  max_pos : option (Z * Z);
  person_detected : bool
}.

(** [temps = []; min_temp, max_temp = MAX_TEMP_LIMIT, MIN_TEMP_LIMIT;
     max_pos = None; person_detected = False] *)
Definition scan_init : scan_state :=
  {| temps := [];
     min_temp := inject_Z MAX_TEMP_LIMIT;
     max_temp := inject_Z MIN_TEMP_LIMIT;
     max_pos := None;
     person_detected := false |}.

(** What one pixel does to the running statistics, given its index and
    its temperature (lines 88-98). *)
Definition track (st : scan_state) (idx : nat) (temp_c : Q) : scan_state :=
  let min_temp' :=
    if Qltb temp_c (min_temp st)
    then py_max temp_c (inject_Z MIN_TEMP_LIMIT)
    else min_temp st in
  if Qltb (max_temp st) temp_c
  then {| temps := temps st ++ [temp_c];
          min_temp := min_temp';
          max_temp := py_min temp_c (inject_Z MAX_TEMP_LIMIT);
          max_pos := Some (Z.of_nat idx mod SENSOR_WIDTH,
                           Z.of_nat idx / SENSOR_WIDTH);
          person_detected :=
            if Qltb (inject_Z PERSON_TEMP_THRESHOLD) temp_c
            then true else person_detected st |}
  else {| temps := temps st ++ [temp_c];
          min_temp := min_temp';
          max_temp := max_temp st;
          max_pos := max_pos st;
          person_detected := person_detected st |}.

(** The body of [for idx in range(SENSOR_WIDTH * SENSOR_HEIGHT)]. *)
Definition scan_step (frame : list byte) (st : scan_state) (idx : nat)
  : scan_state :=
  let raw := slice frame (4 + idx * 2) (4 + idx * 2 + 2) in
  track st idx (temp_of_raw raw).

Definition scan (frame : list byte) : scan_state :=
  fold_left (scan_step frame)
            (range (Z.to_nat (SENSOR_WIDTH * SENSOR_HEIGHT))) scan_init.

(** [machine_temp = int.from_bytes(frame[-2:], 'little') / 100.0] *)
Definition machine_temp (frame : list byte) : Q :=
  temp_of_raw (last_two frame).

(** ** Formatting *)

Definition digits_of (z : Z) : string :=
  NilZero.string_of_uint (N.to_uint (Z.to_N z)).

Fixpoint zero_pad (width : nat) (s : string) : string :=
  match width with
  | O => s
  | S w => if (String.length s <=? w)%nat
           then zero_pad w (String "0" s) else s
  end.

(** [f"{x:.<d>f}"]: the decimal with [d] digits after the point that is
    nearest to the value of [x], ties to even. *)
Definition format_fixed (d : nat) (x : Q) : string :=
  let scale := 10 ^ Z.of_nat d in
  let n := round_half_even (Qabs x * inject_Z scale)%Q in
  let sign := if Qltb x 0 then "-"%string else ""%string in
  let int_part := digits_of (n / scale) in
  match d with
  | O => (sign ++ int_part)%string
  | _ => (sign ++ int_part ++ "."
          ++ zero_pad d (digits_of (n mod scale)))%string
  end.

(** ** Effects *)

(** What the script does to an image, call by call. *)
Inductive img_op :=
| NewImage (w h : Z)
| ToGrayscale
| SetPixel (x y val : Z)
| Resize (w h : Z)
| ToRainbow (n : Z)
| DrawRectangle (x y w h : Z) (color : Z * Z * Z) (fill : bool)
| DrawString (x y : Z) (text : string) (color : Z * Z * Z) (scale : Z).

(** What a cycle does to the outside world, in order. *)
Inductive event :=
| Print (s : string)
| MotorValue (v : Z)
| SleepMs (ms : Z)
| LcdDisplay (img : list img_op)
| GcCollect.

(** ** Vibration feedback (lines 105-113) *)

(** Modelled from the spec: [time.ticks_diff] belongs to the firmware's
    [time] module, which is not in the repository; the spec gives the
    test as [now - last_trigger_timestamp > cooldown_ms] on a monotonic
    millisecond clock. *)
Definition ticks_diff (now last : Z) : Z := now - last.

(** [if person_detected: now = time.ticks_ms(); if ... > 500: pulse].
    Returns the new [last_vibration] and the events. *)
Definition vibration_feedback (detected : bool) (now last_vibration : Z)
  : Z * list event :=
  if detected then
    if VIBRATION_INTERVAL_MS <? ticks_diff now last_vibration
    then (now, [MotorValue 1; SleepMs 100; MotorValue 0;
                Print "Vibration: seat occupied."])
    else (last_vibration, [])
  else (last_vibration, []).

(** ** The thermal image (lines 115-153) *)

(** [if max_temp == min_temp: max_temp = min_temp + 1] *)
Definition widen (st : scan_state) : Q :=
  if Qeq_bool (max_temp st) (min_temp st)
  then fadd (min_temp st) 1 else max_temp st.

(** [(t - min_temp) / (max_temp - min_temp) * 255], three float
    operations on the two differences. *)
Definition scaled_value (t lo hi : Q) : Q :=
  fmul (fdiv (fsub t lo) (fsub hi lo)) 255.

(** [val = int((temps[y*SENSOR_WIDTH + x] - min_temp)
               / (max_temp - min_temp) * 255)] *)
Definition pixel_value (ts : list Q) (lo hi : Q) (x y : nat) : Z :=
  py_int (scaled_value (nth (y * Z.to_nat SENSOR_WIDTH + x) ts 0%Q) lo hi).

(** The two nested [for] loops, [y] outside and [x] inside. *)
Definition grayscale (ts : list Q) (lo hi : Q) : list img_op :=
  flat_map (fun y =>
    map (fun x => SetPixel (Z.of_nat x) (Z.of_nat y) (pixel_value ts lo hi x y))
        (range (Z.to_nat SENSOR_WIDTH)))
    (range (Z.to_nat SENSOR_HEIGHT)).

Definition magenta : Z * Z * Z := (0xff, 112, 0xff).
Definition white : Z * Z * Z := (0xff, 255, 255).

Definition degrees (d : nat) (t : Q) : string :=
  (format_fixed d t ++ "°C")%string.

(** [center_idx = SENSOR_WIDTH*(SENSOR_HEIGHT//2) + (SENSOR_WIDTH//2)] *)
Definition center_idx : nat :=
  Z.to_nat (SENSOR_WIDTH * (SENSOR_HEIGHT / 2) + SENSOR_WIDTH / 2).

Definition center_overlay (ts : list Q) : list img_op :=
  [DrawRectangle (LCD_W / 2 - 2) 80 22 22 magenta true;
   DrawString (LCD_W / 2 + 4) 80 (degrees 1 (nth center_idx ts 0%Q)) white 2].

(** [px = int(LCD_W / SENSOR_WIDTH * max_pos[0])], and [py] alike. *)
Definition scaled_x (mx : Z) : Z :=
  py_int (fmul (fdiv (inject_Z LCD_W) (inject_Z SENSOR_WIDTH)) (inject_Z mx)).
Definition scaled_y (my : Z) : Z :=
  py_int (fmul (fdiv (inject_Z LCD_H) (inject_Z SENSOR_HEIGHT)) (inject_Z my)).

(** [if max_pos: ...]: a pair is true, [None] is false.  [hi] is
    [max_temp] after the widening above. *)
Definition hottest_overlay (pos : option (Z * Z)) (hi : Q) : list img_op :=
  match pos with
  | Some (mx, my) =>
      let px := scaled_x mx in
      let py := scaled_y my in
      [DrawRectangle (px - 4) (py - 4) 22 22 magenta true;
       DrawString (px + 2) (py - 20) (degrees 1 hi) white 2]
  | None => []
  end.

Definition fps_overlay (fps : Q) : list img_op :=
  [DrawString 2 2 (format_fixed 1 fps ++ " FPS") white 2].

(** Everything done to [img], in order. *)
Definition build_image (st : scan_state) (fps : Q) : list img_op :=
  let hi := widen st in
  [NewImage SENSOR_WIDTH SENSOR_HEIGHT; ToGrayscale]
  ++ grayscale (temps st) (min_temp st) hi
  ++ [Resize LCD_W LCD_H; ToRainbow 1]
  ++ center_overlay (temps st)
  ++ hottest_overlay (max_pos st) hi
  ++ fps_overlay fps.

(** ** One iteration of [while True] *)

(** What the peripherals answer during one iteration: [com.any()],
    [com.read(1544)] ([None] on a timeout), [time.ticks_ms()] at line
    107 and [clock.fps()]. *)
Record cycle_env := {
  any_pending : Z;
  read_frame : option (list byte);
  ticks_ms : Z;
  fps : Q
}.

(** How an iteration ended: at one of the four [continue] statements or
    at the bottom of the loop body. *)
Inductive outcome :=
| NoData
| IncompleteFrame
| BadFrame (r : reject_reason)
| Displayed (st : scan_state).

Record cycle_result := {
  ended : outcome;
  last_vibration : Z;
  events : list event
}.

Definition the_frame (env : cycle_env) : list byte :=
  match read_frame env with Some f => f | None => [] end.

(** [not frame or len(frame) != 1544] *)
Definition incomplete (env : cycle_env) : bool :=
  match read_frame env with
  | None => true
  | Some f => (List.length f =? 0)%nat || negb (List.length f =? FRAME_LEN)%nat
  end.

(** The part of the loop body after the checksum passed.  [data_len]
    of line 65 is computed and never read; it is left out. *)
Definition process (last : Z) (frame : list byte) (env : cycle_env)
  : cycle_result :=
  let st := scan frame in
  let fb := vibration_feedback (person_detected st) (ticks_ms env) last in
  {| ended := Displayed st;
     last_vibration := fst fb;
     events :=
       [Print "Checksum OK.";
        Print ("Sensor board temperature: "
               ++ degrees 2 (machine_temp frame))]
       ++ snd fb
       ++ [LcdDisplay (build_image st (fps env)); GcCollect] |}.

Definition skip (why : outcome) (last : Z) (log : list event) : cycle_result :=
  {| ended := why; last_vibration := last; events := log |}.

(** The loop body, [last] being [last_vibration] on entry. *)
Definition cycle (last : Z) (env : cycle_env) : cycle_result :=
  if any_pending env <=? 0 then skip NoData last []
  else if incomplete env
  then skip IncompleteFrame last [Print "Incomplete frame received."]
  else
    let frame := the_frame env in
    match validate frame with
    | Rejected InvalidHeader =>
        skip (BadFrame InvalidHeader) last [Print "Invalid frame header."]
    | Rejected ChecksumMismatch =>
        skip (BadFrame ChecksumMismatch) last [Print "Checksum mismatch."]
    | Accepted => process last frame env
    end.

(** The loop over the answers of a finite stretch of iterations:
    [last_vibration] is carried from one iteration to the next and the
    traces follow one another. *)
Fixpoint main_loop (last : Z) (envs : list cycle_env) : Z * list event :=
  match envs with
  | [] => (last, [])
  | env :: rest =>
      let r := cycle last env in
      let k := main_loop (last_vibration r) rest in
      (fst k, events r ++ snd k)
  end.

(** [last_vibration = time.ticks_ms()] at line 45, then the loop.  The
    set-up of pins, UART and LCD before it (lines 28-44) touches no
    variable of the loop; it leaves the motor switched off. *)
Definition program (start_ticks : Z) (envs : list cycle_env)
  : Z * list event :=
  main_loop start_ticks envs.

(** The pulses in a trace: how often the motor was switched on. *)
Definition pulses (log : list event) : nat :=
  List.length (filter (fun e => match e with
                                | MotorValue 1 => true
                                | _ => false
                                end) log).

Definition motor_free (log : list event) : Prop :=
  forall v, ~ In (MotorValue v) log.

(** ** The protocol in the words of the specification *)

(** The little-endian word at bytes [2k], [2k+1]. *)
Definition le_word (frame : list byte) (k : nat) : Z :=
  byte_at frame (2 * k) + 256 * byte_at frame (2 * k + 1).

(** The sum of the first [n] little-endian words. *)
Definition word_sum (frame : list byte) (n : nat) : Z :=
  fold_right Z.add 0 (map (le_word frame) (seq 0 n)).

(** The 16-bit modular sum of all little-endian words over the byte
    range [0, 1542): 771 words. *)
Definition modular_sum16 (frame : list byte) : Z :=
  word_sum frame 771 mod 2 ^ 16.

(** The little-endian word at bytes [1542, 1544). *)
Definition trailing_word (frame : list byte) : Z := le_word frame 771.

Definition header_ok (frame : list byte) : Prop :=
  byte_at frame 0 = START_FLAG /\ byte_at frame 1 = START_FLAG.

(** Modelled from the spec: the synthetic valid frame of the round-trip
    property, laid out by the wire format; the repository has no
    encoder.  Two header flags, the declared length, one little-endian
    word per sample, the two bytes [aux] that the format leaves between
    the samples and the checksum, and the checksum of all that. *)
Definition encode_body (declared : Z) (raws : list Z) (aux : list byte)
  : list byte :=
  [byte.of_Z START_FLAG; byte.of_Z START_FLAG]
  ++ le_split 2 declared
  ++ flat_map (le_split 2) raws
  ++ aux.

(** Modelled from the spec: the body followed by its checksum word,
    the 16-bit modular sum of the body's little-endian words. *)
Definition encode_frame (declared : Z) (raws : list Z) (aux : list byte)
  : list byte :=
  let body := encode_body declared raws aux in
  body ++ le_split 2 (modular_sum16 body).

(** The cell [(x, y)] of the grid, as the renderer reads it. *)
Definition grid_at (ts : list Q) (x y : nat) : Q :=
  nth (y * Z.to_nat SENSOR_WIDTH + x) ts 0%Q.

(** Bit [k] of byte [j] inverted, every other byte as it was. *)
Fixpoint flip_bit (frame : list byte) (j : nat) (k : Z) : list byte :=
  match frame, j with
  | [], _ => []
  | b :: rest, O => byte.xor b (byte.of_Z (2 ^ k)) :: rest
  | b :: rest, S j' => b :: flip_bit rest j' k
  end.

(** The grid of scenario A: 25.00 degrees everywhere, 35.00 at pixel
    [hot]; as raw samples. *)
Definition one_hot_pixel (hot : nat) : list Z :=
  map (fun i => if (i =? hot)%nat then 3500 else 2500) (seq 0 768).

(** A frame to try things on: scenario A with the hot pixel at index
    [hot], declared length and filler zero. *)
Definition sample_frame (hot : nat) : list byte :=
  encode_frame 0 (one_hot_pixel hot) [Byte.x00; Byte.x00].

(** The nearest integer, clamped to [0, 255]: the normalisation as the
    specification words it. *)
Definition clamp255 (v : Z) : Z := Z.max 0 (Z.min 255 v).
Definition normalized_spec (t lo hi : Q) : Z :=
  clamp255 (round_half_even (255 * (t - lo) / (hi - lo))%Q).

(** The integers [z, z + 1, ..., z + n - 1]. *)
Fixpoint count_up (n : nat) (z : Z) : list Z :=
  match n with
  | O => []
  | S n' => z :: count_up n' (z + 1)
  end.

(** [2 ^ k] as a rational. *)
Definition pow2Q (k : Z) : Q :=
  match k with
  | 0 => 1%Q
  | Z.pos p => inject_Z (2 ^ Z.pos p)
  | Z.neg p => 1 # (2 ^ p)
  end.

(** The temperature the scan loop decodes for pixel [idx]. *)
Definition pixel_temp (frame : list byte) (idx : nat) : Q :=
  temp_of_raw (slice frame (4 + idx * 2) (4 + idx * 2 + 2)).

(** The scan loop over any run of pixel indices, from any state, with
    the decoding left open: [scan] is the instance
    [scan_with (pixel_temp frame) (range 768) scan_init]. *)
Definition scan_with (tf : nat -> Q) (idxs : list nat) (st : scan_state)
  : scan_state :=
  fold_left (fun st idx => track st idx (tf idx)) idxs st.

(** Detection in the words of the open question: any pixel over the
    threshold. *)
Definition any_pixel_over_threshold (ts : list Q) : bool :=
  existsb (Qltb (inject_Z PERSON_TEMP_THRESHOLD)) ts.

(** A cycle to try things on: the sample frame read whole, the clock at
    [now]. *)
Definition sample_env (hot : nat) (now : Z) : cycle_env :=
  {| any_pending := 1544;
     read_frame := Some (sample_frame hot);
     ticks_ms := now;
     fps := 10 |}.

(** Both extremes inside the display limits. *)
Definition within_limits (st : scan_state) : Prop :=
  (inject_Z MIN_TEMP_LIMIT <= min_temp st)%Q
  /\ (max_temp st <= inject_Z MAX_TEMP_LIMIT)%Q.

(** Both extremes between the limits, and the minimum at or below every
    pixel seen. *)
Definition scan_sound (st : scan_state) : Prop :=
  (0 <= min_temp st <= 300)%Q /\ (0 <= max_temp st <= 300)%Q
  /\ Forall (fun t => (min_temp st <= t)%Q) (temps st).

(** The maximum at or above every pixel seen. *)
Definition max_covers (st : scan_state) : Prop :=
  Forall (fun t => (t <= max_temp st)%Q) (temps st).

(** As long as nothing was detected, the running maximum has not passed
    the threshold. *)
Definition quiet_below_threshold (st : scan_state) : Prop :=
  person_detected st = false ->
  (max_temp st <= inject_Z PERSON_TEMP_THRESHOLD)%Q.

(** Scenario B: a frame whose two header bytes are zero, the rest as in
    the sample frame. *)
Definition zero_header_frame : list byte :=
  Byte.x00 :: Byte.x00 :: skipn 2 (sample_frame 0).

Definition zero_header_env : cycle_env :=
  {| any_pending := 1544;
     read_frame := Some zero_header_frame;
     ticks_ms := 5000;
     fps := 10 |}.

(** The iteration ended at one of the four [continue] statements. *)
Definition rejected (r : cycle_result) : Prop :=
  ended r = NoData \/ ended r = IncompleteFrame
  \/ ended r = BadFrame InvalidHeader \/ ended r = BadFrame ChecksumMismatch.

(** The two temperatures of scenario A as the decoder produces them. *)
Definition base_temp : Q := fdiv (inject_Z 2500) 100.
Definition hot_temp : Q := fdiv (inject_Z 3500) 100.

(** Scenario A seen from the scan loop. *)
Definition one_hot_temps (hot idx : nat) : Q :=
  if (idx =? hot)%nat then hot_temp else base_temp.

(** The four statistics of a scan state. *)
Definition stats (st : scan_state) (lo hi : Q) (pos : option (Z * Z))
           (det : bool) : Prop :=
  min_temp st = lo /\ max_temp st = hi
  /\ max_pos st = pos /\ person_detected st = det.

(** A frame with a cold, a very hot and a cool pixel: 0.00, 400.00 and
    2.00 degrees in cells (0,0), (1,0), (2,0), the rest at 0.00. *)
Definition uneven_frame : list byte :=
  encode_frame 0 ([0; 40000; 200] ++ repeat 0 765) [Byte.x00; Byte.x00].

Definition uneven_env : cycle_env :=
  {| any_pending := 1544;
     read_frame := Some uneven_frame;
     ticks_ms := 5000;
     fps := 10 |}.

(** A frame whose pixels all read 400.00 degrees. *)
Definition overheated_frame : list byte :=
  encode_frame 0 (repeat 40000 768) [Byte.x00; Byte.x00].

(** The image a cycle hands to the LCD, if it gets that far. *)
Definition displayed_image (r : cycle_result) : list img_op :=
  flat_map (fun e => match e with LcdDisplay img => img | _ => [] end)
           (events r).

(** No label with this text at this place. *)
Definition no_label_at (x y : Z) (text : string) (op : img_op) : bool :=
  match op with
  | DrawString sx sy t _ _ => negb ((sx =? x) && (sy =? y) && String.eqb t text)
  | _ => true
  end.

(** ** The kernel's binary64 numbers, to compare [b64] with *)

(** The rational a primitive float denotes; nothing for an infinity or
    a NaN. *)
Definition float_value (f : float) : option Q :=
  match Prim2SF f with
  | S754_zero _ => Some 0%Q
  | S754_finite s m e =>
      Some (Qshift (inject_Z (if s then Z.neg m else Z.pos m)) e)
  | _ => None
  end.

Definition float_of_Z (z : Z) : float := of_uint63 (Uint63.of_Z z).

(** [raw / 100.0] on primitive floats. *)
Definition machine_decode (raw : Z) : float :=
  (float_of_Z raw / 100)%float.

(** [(t - lo) / (hi - lo) * 255] on primitive floats. *)
Definition machine_scale (t lo hi : float) : float :=
  ((t - lo) / (hi - lo) * 255)%float.

Definition same_value (f : float) (q : Q) : bool :=
  match float_value f with
  | Some v => Qeq_bool v q
  | None => false
  end.

Definition decode_agrees (raw : Z) : bool :=
  same_value (machine_decode raw) (fdiv (inject_Z raw) 100).

(** 4096 raw samples spread over the 16-bit range, every residue modulo
    16 among them. *)
Definition spread_samples : list Z :=
  map (fun k => 16 * k + k mod 16) (count_up 4096 0).

(** The scaling of the sample [raw] between the samples [lo] and [hi]. *)
Definition scale_agrees (lo hi raw : Z) : bool :=
  same_value
    (machine_scale (machine_decode raw) (machine_decode lo) (machine_decode hi))
    (fmul (fdiv (fsub (fdiv (inject_Z raw) 100) (fdiv (inject_Z lo) 100))
                (fsub (fdiv (inject_Z hi) 100) (fdiv (inject_Z lo) 100)))
          255).

(** ** Observations on frames, traces and runs *)

(** [a] for [b] and [b] for [a]. *)
Definition exchange (a b m : nat) : nat :=
  if (m =? a)%nat then b else if (m =? b)%nat then a else m.

(** The frame with the little-endian words [a] and [b] exchanged. *)
Definition swap_words (frame : list byte) (a b : nat) : list byte :=
  map (fun i => nth (2 * exchange a b (Nat.div2 i) + (i - 2 * Nat.div2 i))
                    frame Byte.x00)
      (seq 0 (List.length frame)).

(** The clock readings, [now] of line 107, of the iterations of a run
    that switched the motor on, in order. *)
Fixpoint pulse_times (last : Z) (envs : list cycle_env) : list Z :=
  match envs with
  | [] => []
  | env :: rest =>
      let r := cycle last env in
      match pulses (events r) with
      | O => []
      | S _ => [ticks_ms env]
      end ++ pulse_times (last_vibration r) rest
  end.

(** Each reading is more than the interval after the one before it,
    the first after [last]. *)
Fixpoint spaced (last : Z) (times : list Z) : Prop :=
  match times with
  | [] => True
  | t :: rest => VIBRATION_INTERVAL_MS < ticks_diff t last /\ spaced t rest
  end.

(** The level of the motor pin after a trace, from the level [on]
    before it: [value(v)] drives the pin high unless [v] is zero. *)
Fixpoint motor_after (on : bool) (log : list event) : bool :=
  match log with
  | [] => on
  | MotorValue v :: rest => motor_after (negb (v =? 0)) rest
  | _ :: rest => motor_after on rest
  end.

(** The milliseconds slept while the motor pin was high. *)
Fixpoint motor_on_ms (on : bool) (log : list event) : Z :=
  match log with
  | [] => 0
  | MotorValue v :: rest => motor_on_ms (negb (v =? 0)) rest
  | SleepMs ms :: rest => (if on then ms else 0) + motor_on_ms on rest
  | _ :: rest => motor_on_ms on rest
  end.

(** Whether an iteration reaches the display.  How an iteration ends
    is decided by what was read alone; [last_vibration] has no part in
    it, and 0 stands for any value of it. *)
Definition reaches_display (env : cycle_env) : bool :=
  match ended (cycle 0 env) with
  | Displayed _ => true
  | _ => false
  end.

(** A trace without its [print] lines. *)
Definition without_prints (log : list event) : list event :=
  filter (fun e => match e with Print _ => false | _ => true end) log.

(** A frame whose samples all hold [raw]. *)
Definition uniform_frame (raw : Z) : list byte :=
  encode_frame 0 (repeat raw 768) [Byte.x00; Byte.x00].

(** * Properties *)

(** ** [b64] is the machine's rounding *)

(** On 4096 raw samples spread over the range, [fdiv] gives the value
    the kernel's binary64 division gives. *)
Lemma decode_agrees_spread : forallb decode_agrees spread_samples = true.
Proof. vm_cast_no_check (eq_refl true). Qed.

(** So does the scaling of the samples 0..255 between 0.00 and 2.55
    degrees, of 2000..2255 between 20.00 and 20.01, and of 29900..30155
    between 12.34 and 300.00. *)
Lemma scale_agrees_samples :
  forallb (scale_agrees 0 255) (count_up 256 0) = true
  /\ forallb (scale_agrees 2000 2001) (count_up 256 2000) = true
  /\ forallb (scale_agrees 1234 30000) (count_up 256 29900) = true.
Proof.
  split; [| split]; vm_cast_no_check (eq_refl true).
Qed.

(** ** Bytes and words *)

Lemma byte_at_range (frame : list byte) (i : nat) :
  0 <= byte_at frame i < 256.
Proof. unfold byte_at. apply byte.unsigned_range. Qed.

Lemma lor_shift_byte (hi lo : Z) :
  0 <= lo < 256 -> Z.lor (Z.shiftl hi 8) lo = lo + 256 * hi.
Proof.
  intros Hlo.
  assert (Hdisj : Z.land (Z.shiftl hi 8) lo = 0).
  { apply Z.bits_inj'. intros n Hn.
    rewrite Z.land_spec, Z.bits_0.
    destruct (Z.ltb_spec n 8) as [Hlt | Hge].
    - rewrite Z.shiftl_spec_low by lia. reflexivity.
    - rewrite (Z.bits_above_log2 lo n), andb_false_r; [reflexivity | lia |].
      destruct (Z.eq_dec lo 0) as [-> | Hnz]; [simpl; lia |].
      apply Z.log2_lt_pow2; [lia |].
      apply Z.lt_le_trans with (2 ^ 8); [lia |].
      apply Z.pow_le_mono_r; lia. }
  rewrite <- Z.lxor_lor, <- Z.add_nocarry_lxor by exact Hdisj.
  rewrite Z.shiftl_mul_pow2 by lia. change (2 ^ 8) with 256. lia.
Qed.

Lemma frame_word_le_word (frame : list byte) (k : nat) :
  frame_word frame (2 * k) = le_word frame k.
Proof.
  unfold frame_word, le_word.
  apply lor_shift_byte, byte_at_range.
Qed.

Lemma recv_sum_trailing_word (frame : list byte) :
  recv_sum frame = trailing_word frame.
Proof.
  unfold recv_sum, trailing_word, le_word.
  change (2 * 771 + 1)%nat with 1543%nat.
  change (2 * 771)%nat with 1542%nat.
  apply lor_shift_byte, byte_at_range.
Qed.

Lemma le_word_range (frame : list byte) (k : nat) :
  0 <= le_word frame k < 2 ^ 16.
Proof.
  unfold le_word.
  pose proof (byte_at_range frame (2 * k)).
  pose proof (byte_at_range frame (2 * k + 1)).
  change (2 ^ 16) with 65536. lia.
Qed.

(** ** The checksum loop computes the modular sum *)

Lemma checksum_step_mod (frame : list byte) (c : Z) (k : nat) :
  checksum_step frame c (2 * k) = (c + le_word frame k) mod 2 ^ 16.
Proof.
  unfold checksum_step. rewrite frame_word_le_word.
  change 0xFFFF with (Z.ones 16). apply Z.land_ones. lia.
Qed.

Lemma checksum_loop_sum (frame : list byte) (n a : nat) (c : Z) :
  fold_left (checksum_step frame) (map (fun k => 2 * k)%nat (seq a n)) c
  mod 2 ^ 16
  = (c + fold_right Z.add 0 (map (le_word frame) (seq a n))) mod 2 ^ 16.
Proof.
  revert a c. induction n as [| n IH]; intros a c;
    cbn [seq map fold_left fold_right].
  - rewrite Z.add_0_r. reflexivity.
  - rewrite IH, checksum_step_mod.
    rewrite Zplus_mod_idemp_l. f_equal. lia.
Qed.

Lemma checksum_loop_range (frame : list byte) (l : list nat) (c : Z) :
  0 <= c < 2 ^ 16 ->
  0 <= fold_left (checksum_step frame) l c < 2 ^ 16.
Proof.
  revert c. induction l as [| i l IH]; intros c Hc; simpl; [exact Hc |].
  apply IH. unfold checksum_step.
  change 0xFFFF with (Z.ones 16). rewrite Z.land_ones by lia.
  apply Z.mod_pos_bound. lia.
Qed.

Lemma compute_checksum_range (frame : list byte) :
  0 <= compute_checksum frame < 2 ^ 16.
Proof.
  unfold compute_checksum.
  exact (checksum_loop_range frame (range_by_2 1542) 0 ltac:(lia)).
Qed.

Lemma compute_checksum_modular_sum16 (frame : list byte) :
  compute_checksum frame = modular_sum16 frame.
Proof.
  rewrite <- (Z.mod_small (compute_checksum frame) (2 ^ 16))
    by apply compute_checksum_range.
  unfold compute_checksum, modular_sum16, word_sum.
  change (range_by_2 1542) with (map (fun k => 2 * k)%nat (seq 0 771)).
  rewrite checksum_loop_sum. reflexivity.
Qed.

Lemma header_bad_false (frame : list byte) :
  header_bad frame = false <-> header_ok frame.
Proof.
  unfold header_bad, header_ok.
  rewrite orb_false_iff, !negb_false_iff, !Z.eqb_eq. reflexivity.
Qed.

Lemma header_bad_true (frame : list byte) :
  header_bad frame = true <-> ~ header_ok frame.
Proof.
  rewrite <- header_bad_false.
  destruct (header_bad frame); intuition congruence.
Qed.

(** The three ways [validate] can end, each with its exact condition. *)
Lemma validate_cases (frame : list byte) :
  (validate frame = Rejected InvalidHeader <-> ~ header_ok frame)
  /\ (validate frame = Rejected ChecksumMismatch
      <-> header_ok frame /\ modular_sum16 frame <> trailing_word frame)
  /\ (validate frame = Accepted
      <-> header_ok frame /\ modular_sum16 frame = trailing_word frame).
Proof.
  unfold validate.
  rewrite compute_checksum_modular_sum16, recv_sum_trailing_word.
  destruct (header_bad frame) eqn:Hh.
  - apply header_bad_true in Hh. intuition congruence.
  - apply header_bad_false in Hh.
    destruct (Z.eqb_spec (modular_sum16 frame) (trailing_word frame)); simpl;
      intuition congruence.
Qed.

(** C1.  A 1544-byte frame is accepted exactly when bytes 0 and 1 both
    hold the flag 0x5A and the sum, modulo 2^16, of the 771 little-endian
    words of bytes 0..1541 equals the little-endian word of bytes 1542
    and 1543.  A frame whose header differs is rejected for its header;
    a frame that passes the header check and whose sum differs is
    rejected for its checksum. *)
Theorem frame_acceptance (frame : list byte) :
  List.length frame = FRAME_LEN ->
  (validate frame = Accepted
   <-> (byte_at frame 0 = 0x5A /\ byte_at frame 1 = 0x5A)
       /\ modular_sum16 frame = trailing_word frame)
  /\ (~ (byte_at frame 0 = 0x5A /\ byte_at frame 1 = 0x5A)
      -> validate frame = Rejected InvalidHeader)
  /\ ((byte_at frame 0 = 0x5A /\ byte_at frame 1 = 0x5A)
      -> modular_sum16 frame <> trailing_word frame
      -> validate frame = Rejected ChecksumMismatch).
Proof.
  intros _.
  destruct (validate_cases frame) as (Hh & Hc & Ha).
  fold START_FLAG. fold (header_ok frame).
  split; [exact Ha |].
  split; [apply Hh |].
  intros Hok Hne. apply Hc. split; assumption.
Qed.

Lemma frame_acceptance_witness :
  List.length (sample_frame 0) = FRAME_LEN
  /\ (validate (sample_frame 0) = Accepted
      <-> (byte_at (sample_frame 0) 0 = 0x5A
           /\ byte_at (sample_frame 0) 1 = 0x5A)
          /\ modular_sum16 (sample_frame 0) = trailing_word (sample_frame 0)).
Proof.
  split.
  - vm_compute. reflexivity.
  - apply (frame_acceptance (sample_frame 0)). vm_compute. reflexivity.
Defined.

(** ** Flipping one bit *)

Lemma flip_bit_length (frame : list byte) (j : nat) (k : Z) :
  List.length (flip_bit frame j k) = List.length frame.
Proof.
  revert j. induction frame as [| b rest IH]; intros [| j]; simpl; auto.
Qed.

Lemma byte_at_flip_other (frame : list byte) (j i : nat) (k : Z) :
  i <> j -> byte_at (flip_bit frame j k) i = byte_at frame i.
Proof.
  unfold byte_at. revert j i.
  induction frame as [| b rest IH]; intros [| j] [| i] Hne; simpl;
    try reflexivity; try congruence.
  apply IH. congruence.
Qed.

Lemma byte_at_flip_same (frame : list byte) (j : nat) (k : Z) :
  (j < List.length frame)%nat ->
  byte_at (flip_bit frame j k) j
  = byte.unsigned (byte.xor (nth j frame Byte.x00) (byte.of_Z (2 ^ k))).
Proof.
  unfold byte_at. revert j.
  induction frame as [| b rest IH]; intros [| j] Hlt; simpl in *;
    try lia; try reflexivity.
  apply IH. lia.
Qed.

(** Inverting bit [k] of a byte moves its value by [2 ^ k], up or down. *)
Lemma xor_bit_unsigned (b : byte) (k : Z) :
  0 <= k < 8 ->
  byte.unsigned (byte.xor b (byte.of_Z (2 ^ k))) = byte.unsigned b + 2 ^ k
  \/ byte.unsigned (byte.xor b (byte.of_Z (2 ^ k))) = byte.unsigned b - 2 ^ k.
Proof.
  intros Hk.
  assert (Hcases : k = 0 \/ k = 1 \/ k = 2 \/ k = 3
                   \/ k = 4 \/ k = 5 \/ k = 6 \/ k = 7) by lia.
  destruct Hcases as [-> | [-> | [-> | [-> | [-> | [-> | [-> | ->]]]]]]];
    destruct b; vm_compute; auto.
Qed.

Lemma sum_seq_ext (g g' : nat -> Z) (n a : nat) :
  (forall m, (a <= m < a + n)%nat -> g' m = g m) ->
  fold_right Z.add 0 (map g' (seq a n)) = fold_right Z.add 0 (map g (seq a n)).
Proof.
  revert a. induction n as [| n IH]; intros a Hext; simpl; [reflexivity |].
  rewrite Hext by lia. f_equal. apply IH. intros m Hm. apply Hext. lia.
Qed.

(** Changing one term of a sum changes the sum by as much. *)
Lemma sum_seq_update (g g' : nat -> Z) (m0 n a : nat) :
  (forall m, m <> m0 -> g' m = g m) ->
  (a <= m0 < a + n)%nat ->
  fold_right Z.add 0 (map g' (seq a n))
  = fold_right Z.add 0 (map g (seq a n)) + (g' m0 - g m0).
Proof.
  revert a. induction n as [| n IH]; intros a Hext Hin; simpl; [lia |].
  destruct (Nat.eq_dec a m0) as [-> | Hne].
  - rewrite (sum_seq_ext g g' n (S m0)); [lia |].
    intros m Hm. apply Hext. lia.
  - rewrite Hext by exact Hne. rewrite IH by (auto; lia). lia.
Qed.

Lemma div2_cases (j : nat) :
  (j = 2 * Nat.div2 j \/ j = 2 * Nat.div2 j + 1)%nat.
Proof.
  destruct (Nat.Even_Odd_dec j) as [He | Ho].
  - left. apply Nat.Even_double in He. unfold Nat.double in He. lia.
  - right. apply Nat.Odd_double in Ho. unfold Nat.double in Ho. lia.
Qed.

(** The word that holds byte [j] moves by the byte's change, times 256
    if [j] is the high byte; the other words stay. *)
Lemma le_word_flip_other (frame : list byte) (j : nat) (k : Z) (m : nat) :
  m <> Nat.div2 j ->
  le_word (flip_bit frame j k) m = le_word frame m.
Proof.
  intros Hne. unfold le_word.
  pose proof (div2_cases j) as Hj.
  rewrite !byte_at_flip_other by lia. reflexivity.
Qed.

Lemma le_word_flip_same (frame : list byte) (j : nat) (k : Z) :
  (j < List.length frame)%nat -> 0 <= k < 8 ->
  exists e, 0 <= e < 16
    /\ (le_word (flip_bit frame j k) (Nat.div2 j)
        = le_word frame (Nat.div2 j) + 2 ^ e
        \/ le_word (flip_bit frame j k) (Nat.div2 j)
           = le_word frame (Nat.div2 j) - 2 ^ e).
Proof.
  intros Hlt Hk.
  pose proof (byte_at_flip_same frame j k Hlt) as Hsame.
  pose proof (xor_bit_unsigned (nth j frame Byte.x00) k Hk) as Hxor.
  fold (byte_at frame j) in Hxor. rewrite <- Hsame in Hxor.
  unfold le_word.
  destruct (div2_cases j) as [Hj | Hj].
  - exists k. split; [lia |].
    rewrite <- !Hj.
    rewrite (byte_at_flip_other frame j (j + 1)) by lia. lia.
  - exists (k + 8). split; [lia |].
    rewrite <- !Hj.
    rewrite (byte_at_flip_other frame j (2 * Nat.div2 j)) by lia.
    rewrite Z.pow_add_r by lia. change (2 ^ 8) with 256. lia.
Qed.

(** A power of two below [2 ^ 16] is not a multiple of [2 ^ 16]. *)
Lemma pow2_shift_changes_residue (s e : Z) :
  0 <= e < 16 ->
  (s + 2 ^ e) mod 2 ^ 16 <> s mod 2 ^ 16
  /\ (s - 2 ^ e) mod 2 ^ 16 <> s mod 2 ^ 16.
Proof.
  intros He.
  assert (Hp : 0 < 2 ^ e < 2 ^ 16).
  { split; [apply Z.pow_pos_nonneg; lia | apply Z.pow_lt_mono_r; lia]. }
  change (2 ^ 16) with 65536 in *.
  generalize dependent (2 ^ e). intros p Hp.
  split; intros Heq; Z.div_mod_to_equations; lia.
Qed.

Lemma modular_sum16_flip (frame : list byte) (j : nat) (k : Z) :
  (j < List.length frame)%nat -> (j < 1542)%nat -> 0 <= k < 8 ->
  modular_sum16 (flip_bit frame j k) <> modular_sum16 frame.
Proof.
  intros Hlen Hj Hk. unfold modular_sum16, word_sum.
  assert (Hm0 : (0 <= Nat.div2 j < 0 + 771)%nat).
  { destruct (div2_cases j); lia. }
  rewrite (sum_seq_update (le_word frame) (le_word (flip_bit frame j k))
             (Nat.div2 j) 771 0 (le_word_flip_other frame j k) Hm0).
  destruct (le_word_flip_same frame j k Hlen Hk) as (e & He & [-> | ->]).
  - replace (le_word frame (Nat.div2 j) + 2 ^ e - le_word frame (Nat.div2 j))
      with (2 ^ e) by lia.
    apply pow2_shift_changes_residue. exact He.
  - match goal with
    | |- (?s + ?d) mod _ <> _ => replace (s + d) with (s - 2 ^ e) by lia
    end.
    apply pow2_shift_changes_residue. exact He.
Qed.

Lemma trailing_word_flip (frame : list byte) (j : nat) (k : Z) :
  (j < 1542)%nat ->
  trailing_word (flip_bit frame j k) = trailing_word frame.
Proof.
  intros Hj. unfold trailing_word, le_word.
  rewrite !byte_at_flip_other by lia. reflexivity.
Qed.

Lemma header_ok_flip (frame : list byte) (j : nat) (k : Z) :
  (2 <= j)%nat -> header_ok frame -> header_ok (flip_bit frame j k).
Proof.
  intros Hj [H0 H1]. unfold header_ok.
  rewrite !byte_at_flip_other by lia. split; assumption.
Qed.

Lemma header_broken_by_flip (frame : list byte) (j : nat) (k : Z) :
  (j < 2)%nat -> (j < List.length frame)%nat -> 0 <= k < 8 ->
  ~ header_ok (flip_bit frame j k) \/ ~ header_ok frame.
Proof.
  intros Hj Hlen Hk.
  pose proof (byte_at_flip_same frame j k Hlen) as Hsame.
  pose proof (xor_bit_unsigned (nth j frame Byte.x00) k Hk) as Hxor.
  fold (byte_at frame j) in Hxor. rewrite <- Hsame in Hxor.
  assert (Hp : 0 < 2 ^ k) by (apply Z.pow_pos_nonneg; lia).
  assert (Hne : byte_at (flip_bit frame j k) j <> byte_at frame j) by lia.
  destruct (Z.eq_dec (byte_at frame j) START_FLAG) as [Heq | Hnf].
  - left. intros [H0 H1].
    assert (Hj' : j = 0%nat \/ j = 1%nat) by lia.
    destruct Hj' as [-> | ->]; congruence.
  - right. intros [H0 H1].
    assert (Hj' : j = 0%nat \/ j = 1%nat) by lia.
    destruct Hj' as [-> | ->]; congruence.
Qed.

(** C2, as the code has it.  In an accepted 1544-byte frame, inverting
    one bit of a byte in [2, 1542) and leaving the checksum word alone
    always gives a frame rejected for its checksum; inverting one bit of
    byte 0 or 1 gives a frame rejected for its header, the check that
    comes first. *)
Theorem single_bit_flip_rejected (frame : list byte) (j : nat) (k : Z) :
  List.length frame = FRAME_LEN ->
  validate frame = Accepted ->
  (j < 1542)%nat -> 0 <= k < 8 ->
  validate (flip_bit frame j k)
  = if (j <? 2)%nat then Rejected InvalidHeader
    else Rejected ChecksumMismatch.
Proof.
  intros Hlen Hacc Hj Hk. unfold FRAME_LEN in Hlen.
  destruct (validate_cases frame) as (_ & _ & Ha).
  apply Ha in Hacc. destruct Hacc as [Hok Hsum].
  destruct (validate_cases (flip_bit frame j k)) as (Hh' & Hc' & _).
  destruct (Nat.ltb_spec j 2) as [Hlt | Hge].
  - apply Hh'.
    destruct (header_broken_by_flip frame j k) as [Hbad | Hbad];
      try assumption; try lia.
    contradiction.
  - apply Hc'. split.
    + apply header_ok_flip; assumption.
    + rewrite trailing_word_flip by exact Hj. rewrite <- Hsum.
      apply modular_sum16_flip; try assumption. lia.
Qed.

Lemma single_bit_flip_rejected_witness :
  List.length (sample_frame 0) = FRAME_LEN
  /\ validate (sample_frame 0) = Accepted
  /\ (100 < 1542)%nat /\ 0 <= 3 < 8
  /\ validate (flip_bit (sample_frame 0) 100 3) = Rejected ChecksumMismatch.
Proof.
  assert (Hlen : List.length (sample_frame 0) = FRAME_LEN)
    by (vm_compute; reflexivity).
  assert (Hacc : validate (sample_frame 0) = Accepted)
    by (vm_compute; reflexivity).
  assert (Hj : (100 < 1542)%nat) by lia.
  assert (Hk : 0 <= 3 < 8) by lia.
  split; [exact Hlen |]. split; [exact Hacc |].
  split; [exact Hj |]. split; [exact Hk |].
  exact (single_bit_flip_rejected (sample_frame 0) 100 3 Hlen Hacc Hj Hk).
Defined.

(** C2 as worded fails in the header: bit 0 of byte 0 of an accepted
    frame inverted, the frame is rejected for its header, not for its
    checksum. *)
Lemma bit_flip_in_header_not_checksum :
  List.length (sample_frame 0) = FRAME_LEN
  /\ validate (sample_frame 0) = Accepted
  /\ (0 < 1542)%nat
  /\ validate (flip_bit (sample_frame 0) 0 0) = Rejected InvalidHeader
  /\ validate (flip_bit (sample_frame 0) 0 0) <> Rejected ChecksumMismatch.
Proof.
  split; [vm_compute; reflexivity |].
  split; [vm_compute; reflexivity |].
  split; [lia |].
  split; [vm_compute; reflexivity | vm_compute; discriminate].
Qed.

(** ** Rounding to binary64 *)

(** *** The error of one rounding *)

Lemma Qshift_mult (q : Q) (k : Z) : (Qshift q k == q * pow2Q k)%Q.
Proof.
  destruct q as [n d].
  destruct k as [| p | p]; unfold Qshift, pow2Q, Qeq;
    cbn [Qnum Qden Qmult inject_Z].
  - lia.
  - rewrite Pos.mul_1_r. reflexivity.
  - rewrite Z.mul_1_r. reflexivity.
Qed.

Lemma pow2Q_pos (k : Z) : (0 < pow2Q k)%Q.
Proof.
  destruct k as [| p | p]; unfold pow2Q, Qlt; cbn [Qnum Qden inject_Z];
    lia.
Qed.

Lemma pow2Q_opp (k : Z) : (pow2Q (- k) * pow2Q k == 1)%Q.
Proof.
  destruct k as [| p | p]; unfold pow2Q, Qeq;
    cbn [Z.opp Qnum Qden Qmult inject_Z]; try reflexivity.
  - rewrite Pos2Z.inj_mul, Pos2Z.inj_pow. lia.
  - rewrite Pos2Z.inj_mul, Pos2Z.inj_pow. lia.
Qed.

Lemma pow2Q_mono (j k : Z) : j <= k -> (pow2Q j <= pow2Q k)%Q.
Proof.
  intros Hjk.
  assert (H2 : forall a b : positive,
             Z.pos a <= Z.pos b -> 2 ^ Z.pos a <= 2 ^ Z.pos b)
    by (intros; apply Z.pow_le_mono_r; lia).
  assert (H1 : forall a : positive, 1 <= 2 ^ Z.pos a)
    by (intros; change 1 with (2 ^ 0); apply Z.pow_le_mono_r; lia).
  destruct j as [| p | p], k as [| r | r]; unfold pow2Q, Qle;
    cbn [Qnum Qden inject_Z]; try lia;
    rewrite ?Pos2Z.inj_pow, ?Z.mul_1_r, ?Z.mul_1_l.
  all: try (pose proof (H1 p)); try (pose proof (H1 r)).
  all: try (pose proof (H2 p r ltac:(lia)));
    try (pose proof (H2 r p ltac:(lia))).
  all: try lia; try nia.
Qed.

Lemma round_div_error (n d : Z) :
  0 < d -> - d <= 2 * (round_div n d * d - n) <= d.
Proof.
  intros Hd. unfold round_div.
  pose proof (Z.div_mod n d ltac:(lia)) as Hdm.
  pose proof (Z.mod_pos_bound n d Hd) as Hr.
  destruct (Z.compare_spec (2 * (n mod d)) d) as [He | Hl | Hg].
  - destruct (Z.even (n / d)); nia.
  - nia.
  - nia.
Qed.

Lemma round_half_even_error (q : Q) :
  (Qabs (inject_Z (round_half_even q) - q) <= 1 # 2)%Q.
Proof.
  destruct q as [n d]. unfold round_half_even. cbn [Qnum Qden].
  pose proof (round_div_error n (Z.pos d) ltac:(lia)) as H.
  apply Qabs_Qle_condition. unfold Qle, Qminus, Qplus, Qopp, inject_Z.
  cbn [Qnum Qden]. split; nia.
Qed.

Lemma b64_pos_error (q : Q) :
  (Qabs (b64_pos q - q) <= (1 # 2) * pow2Q (floor_log2 q - 52))%Q.
Proof.
  unfold b64_pos. set (e := floor_log2 q - 52).
  set (s := Qshift q (- e)). set (m := round_half_even s).
  pose proof (round_half_even_error s) as Hm. fold m in Hm.
  assert (Hq : (q == s * pow2Q e)%Q).
  { unfold s. rewrite Qshift_mult, <- Qmult_assoc, pow2Q_opp. ring. }
  rewrite Qshift_mult.
  assert (Heq : (inject_Z m * pow2Q e - q == (inject_Z m - s) * pow2Q e)%Q)
    by (rewrite Hq at 1; ring).
  rewrite Heq, Qabs_Qmult.
  rewrite (Qabs_pos (pow2Q e)) by (apply Qlt_le_weak, pow2Q_pos).
  apply Qmult_le_compat_r; [exact Hm | apply Qlt_le_weak, pow2Q_pos].
Qed.

Lemma floor_log2_le (q : Q) :
  floor_log2 q <= Z.log2 (Qnum q) - Z.log2 (Z.pos (Qden q)).
Proof. unfold floor_log2. destruct (Qle_bool _ _); lia. Qed.


Lemma pow2Q_Qpower (k : Z) : (pow2Q k == 2 ^ k)%Q.
Proof.
  destruct k as [| p | p]; unfold pow2Q.
  - reflexivity.
  - exact (Zpower_Qpower 2 (Z.pos p) ltac:(lia)).
  - change (2 ^ Z.neg p)%Q with (/ (inject_Z 2 ^ Z.pos p))%Q.
    rewrite <- (Zpower_Qpower 2 (Z.pos p)) by lia.
    rewrite <- Pos2Z.inj_pow. reflexivity.
Qed.

Lemma pow2Q_add (j k : Z) : (pow2Q (j + k) == pow2Q j * pow2Q k)%Q.
Proof. rewrite !pow2Q_Qpower. apply Qpower_plus. discriminate. Qed.

Lemma pow2Q_succ (k : Z) : (pow2Q (k + 1) == 2 * pow2Q k)%Q.
Proof. rewrite pow2Q_add. change (pow2Q 1) with 2%Q. ring. Qed.

Lemma pow2Q_inject (a : Z) : 0 <= a -> (inject_Z (2 ^ a) == pow2Q a)%Q.
Proof.
  intros Ha. rewrite pow2Q_Qpower. exact (Zpower_Qpower 2 a Ha).
Qed.

(** [floor_log2] brackets a positive number between two powers of two. *)
Lemma floor_log2_spec (q : Q) :
  (0 < q)%Q ->
  (pow2Q (floor_log2 q) <= q < pow2Q (floor_log2 q + 1))%Q.
Proof.
  intros Hq. destruct q as [n d].
  assert (Hn : 0 < n) by (unfold Qlt in Hq; cbn in Hq; lia).
  unfold floor_log2. cbn [Qnum Qden].
  set (a := Z.log2 n). set (b := Z.log2 (Z.pos d)).
  destruct (Z.log2_spec n Hn) as [Ha1 Ha2].
  destruct (Z.log2_spec (Z.pos d) ltac:(lia)) as [Hb1 Hb2].
  fold a in Ha1, Ha2. fold b in Hb1, Hb2.
  assert (Ha0 : 0 <= a) by apply Z.log2_nonneg.
  assert (Hb0 : 0 <= b) by apply Z.log2_nonneg.
  assert (HN1 : (pow2Q a <= inject_Z n)%Q)
    by (rewrite <- pow2Q_inject by lia; rewrite <- Zle_Qle; exact Ha1).
  assert (HN2 : (inject_Z n < 2 * pow2Q a)%Q).
  { rewrite <- pow2Q_succ, <- pow2Q_inject by lia. rewrite <- Zlt_Qlt.
    unfold Z.succ in Ha2. exact Ha2. }
  assert (HD1 : (pow2Q b <= inject_Z (Z.pos d))%Q)
    by (rewrite <- pow2Q_inject by lia; rewrite <- Zle_Qle; exact Hb1).
  assert (HD2 : (inject_Z (Z.pos d) < 2 * pow2Q b)%Q).
  { rewrite <- pow2Q_succ, <- pow2Q_inject by lia. rewrite <- Zlt_Qlt.
    unfold Z.succ in Hb2. exact Hb2. }
  assert (Hk : (pow2Q a == pow2Q (a - b) * pow2Q b)%Q).
  { rewrite <- pow2Q_add. replace (a - b + b) with a by lia. reflexivity. }
  assert (Hqd : (inject_Z n == (n # d) * inject_Z (Z.pos d))%Q).
  { unfold Qeq, Qmult, inject_Z. cbn [Qnum Qden]. lia. }
  pose proof (pow2Q_pos (a - b)) as Hpk. pose proof (pow2Q_pos b) as Hpb.
  set (k := a - b) in *.
  destruct (Qle_bool 1 (Qshift (n # d) (- k))) eqn:Htest.
  - apply Qle_bool_iff in Htest. rewrite Qshift_mult in Htest.
    assert (Hlow : (pow2Q k <= n # d)%Q).
    { pose proof (pow2Q_opp k) as Hopp.
      pose proof (pow2Q_pos (- k)) as Hpo. nra. }
    split; [exact Hlow |].
    rewrite pow2Q_succ.
    generalize dependent (pow2Q a). generalize dependent (pow2Q b).
    generalize dependent (pow2Q k).
    generalize dependent (inject_Z n).
    generalize dependent (inject_Z (Z.pos d)).
    intros. nra.
  - assert (Hup : (n # d < pow2Q k)%Q).
    { apply Qnot_le_lt. intros Hle.
      assert (Hge : (1 <= Qshift (n # d) (- k))%Q).
      { rewrite Qshift_mult.
        pose proof (pow2Q_opp k) as Hopp.
        pose proof (pow2Q_pos (- k)) as Hpo.
        generalize dependent (pow2Q (- k)). generalize dependent (pow2Q k).
        intros. nra. }
      apply Qle_bool_iff in Hge. congruence. }
    replace (k - 1 + 1) with k by lia.
    split; [| exact Hup].
    assert (Hhalf : (pow2Q k == 2 * pow2Q (k - 1))%Q).
    { rewrite <- pow2Q_succ. replace (k - 1 + 1) with k by lia. reflexivity. }
    generalize dependent (pow2Q a). generalize dependent (pow2Q b).
    generalize dependent (pow2Q k). generalize dependent (pow2Q (k - 1)).
    generalize dependent (inject_Z n).
    generalize dependent (inject_Z (Z.pos d)).
    intros. nra.
Qed.

(** *** Rounding keeps the order *)

Lemma round_div_range (n d : Z) :
  0 < d -> n / d <= round_div n d <= n / d + 1.
Proof.
  intros Hd. unfold round_div.
  destruct (2 * (n mod d) ?= d); [destruct (Z.even (n / d)) | |]; lia.
Qed.

Lemma round_div_mono (n1 d1 n2 d2 : Z) :
  0 < d1 -> 0 < d2 -> n1 * d2 <= n2 * d1 ->
  round_div n1 d1 <= round_div n2 d2.
Proof.
  intros Hd1 Hd2 Hle.
  pose proof (Z.div_mod n1 d1 ltac:(lia)) as E1.
  pose proof (Z.div_mod n2 d2 ltac:(lia)) as E2.
  pose proof (Z.mod_pos_bound n1 d1 Hd1) as R1.
  pose proof (Z.mod_pos_bound n2 d2 Hd2) as R2.
  pose proof (round_div_range n1 d1 Hd1) as G1.
  pose proof (round_div_range n2 d2 Hd2) as G2.
  assert (Hf : n1 / d1 <= n2 / d2).
  { apply Z.div_le_lower_bound; [lia |].
    assert (d1 * (d2 * (n1 / d1)) <= d1 * n2) by nia. nia. }
  destruct (Z.eq_dec (n1 / d1) (n2 / d2)) as [Heq | Hne]; [| lia].
  assert (Hr : (n1 mod d1) * d2 <= (n2 mod d2) * d1) by nia.
  unfold round_div in *. rewrite <- Heq in *.
  destruct (Z.compare_spec (2 * (n1 mod d1)) d1) as [A | A | A];
    destruct (Z.compare_spec (2 * (n2 mod d2)) d2) as [B | B | B];
    destruct (Z.even (n1 / d1)); try lia; nia.
Qed.

Lemma round_half_even_mono (q1 q2 : Q) :
  (q1 <= q2)%Q -> round_half_even q1 <= round_half_even q2.
Proof.
  intros Hle. unfold round_half_even.
  apply round_div_mono; try lia. exact Hle.
Qed.

Lemma round_half_even_inject (z : Z) : round_half_even (inject_Z z) = z.
Proof.
  unfold round_half_even, round_div. cbn [inject_Z Qnum Qden].
  rewrite Z.mod_1_r, Z.div_1_r. reflexivity.
Qed.

Lemma Qshift_le (q1 q2 : Q) (k : Z) :
  (q1 <= q2)%Q -> (Qshift q1 k <= Qshift q2 k)%Q.
Proof.
  intros Hle. rewrite !Qshift_mult.
  apply Qmult_le_compat_r; [exact Hle | apply Qlt_le_weak, pow2Q_pos].
Qed.

(** For [0 < q], the scaled number has its leading bit at position 52. *)
Lemma scaled_range (q : Q) :
  (0 < q)%Q ->
  (inject_Z (2 ^ 52) <= Qshift q (- (floor_log2 q - 52))
   < inject_Z (2 ^ 53))%Q.
Proof.
  intros Hq. destruct (floor_log2_spec q Hq) as [Hlo Hhi].
  set (f := floor_log2 q) in *. rewrite Qshift_mult.
  pose proof (pow2Q_pos (- (f - 52))) as Hp.
  assert (H52 : (pow2Q f * pow2Q (- (f - 52)) == inject_Z (2 ^ 52))%Q).
  { rewrite <- pow2Q_add. replace (f + - (f - 52)) with 52 by lia.
    reflexivity. }
  assert (H53 : (pow2Q (f + 1) * pow2Q (- (f - 52)) == inject_Z (2 ^ 53))%Q).
  { rewrite <- pow2Q_add. replace (f + 1 + - (f - 52)) with 53 by lia.
    reflexivity. }
  rewrite <- H52, <- H53. split.
  - apply Qmult_le_compat_r; [exact Hlo | apply Qlt_le_weak, Hp].
  - apply Qmult_lt_compat_r; [exact Hp | exact Hhi].
Qed.

(** The rounded number stays in the binade of the number rounded. *)
Lemma b64_pos_range (q : Q) :
  (0 < q)%Q ->
  (pow2Q (floor_log2 q) <= b64_pos q <= pow2Q (floor_log2 q + 1))%Q.
Proof.
  intros Hq. destruct (scaled_range q Hq) as [Hlo Hhi].
  unfold b64_pos. set (f := floor_log2 q) in *.
  set (s := Qshift q (- (f - 52))) in *.
  assert (Hm1 : 2 ^ 52 <= round_half_even s).
  { rewrite <- (round_half_even_inject (2 ^ 52)).
    apply round_half_even_mono, Hlo. }
  assert (Hm2 : round_half_even s <= 2 ^ 53).
  { rewrite <- (round_half_even_inject (2 ^ 53)).
    apply round_half_even_mono, Qlt_le_weak, Hhi. }
  rewrite Qshift_mult.
  pose proof (pow2Q_pos (f - 52)) as Hp.
  assert (H52 : (pow2Q f == inject_Z (2 ^ 52) * pow2Q (f - 52))%Q).
  { change (inject_Z (2 ^ 52)) with (pow2Q 52). rewrite <- pow2Q_add.
    replace (52 + (f - 52)) with f by lia. reflexivity. }
  assert (H53 : (pow2Q (f + 1) == inject_Z (2 ^ 53) * pow2Q (f - 52))%Q).
  { change (inject_Z (2 ^ 53)) with (pow2Q 53). rewrite <- pow2Q_add.
    replace (53 + (f - 52)) with (f + 1) by lia. reflexivity. }
  rewrite H52, H53. split.
  - apply Qmult_le_compat_r; [| apply Qlt_le_weak, Hp].
    rewrite <- Zle_Qle. exact Hm1.
  - apply Qmult_le_compat_r; [| apply Qlt_le_weak, Hp].
    rewrite <- Zle_Qle. exact Hm2.
Qed.

Lemma b64_pos_mono (q1 q2 : Q) :
  (0 < q1)%Q -> (q1 <= q2)%Q -> (b64_pos q1 <= b64_pos q2)%Q.
Proof.
  intros H1 Hle.
  assert (H2 : (0 < q2)%Q) by (eapply Qlt_le_trans; eassumption).
  destruct (floor_log2_spec q1 H1) as [L1 U1].
  destruct (floor_log2_spec q2 H2) as [L2 U2].
  destruct (b64_pos_range q1 H1) as [_ R1].
  destruct (b64_pos_range q2 H2) as [R2 _].
  destruct (Z.lt_trichotomy (floor_log2 q1) (floor_log2 q2))
    as [Hlt | [Heq | Hgt]].
  - apply Qle_trans with (pow2Q (floor_log2 q1 + 1)); [exact R1 |].
    apply Qle_trans with (pow2Q (floor_log2 q2)); [| exact R2].
    apply pow2Q_mono. lia.
  - unfold b64_pos. rewrite Heq.
    apply Qshift_le. rewrite <- Zle_Qle.
    apply round_half_even_mono, Qshift_le, Hle.
  - exfalso.
    assert (Hp : (pow2Q (floor_log2 q2 + 1) <= pow2Q (floor_log2 q1))%Q)
      by (apply pow2Q_mono; lia).
    lra.
Qed.

Lemma b64_nonneg (q : Q) : (0 <= q)%Q -> (0 <= b64 q)%Q.
Proof.
  intros Hq. unfold b64. destruct q as [[| p | p] d]; cbn [Qnum].
  - apply Qle_refl.
  - assert (Hpos : (0 < Z.pos p # d)%Q) by reflexivity.
    destruct (b64_pos_range _ Hpos) as [Hlo _].
    pose proof (pow2Q_pos (floor_log2 (Z.pos p # d))). lra.
  - exfalso. apply Hq. reflexivity.
Qed.

(** Rounding keeps the order of non-negative numbers. *)
Lemma b64_mono (q1 q2 : Q) :
  (0 <= q1)%Q -> (q1 <= q2)%Q -> (b64 q1 <= b64 q2)%Q.
Proof.
  intros H1 Hle.
  assert (H2 : (0 <= q2)%Q) by (eapply Qle_trans; eassumption).
  destruct q1 as [[| p1 | p1] d1].
  - apply (b64_nonneg _ H2).
  - assert (Hp1 : (0 < Z.pos p1 # d1)%Q) by reflexivity.
    destruct q2 as [[| p2 | p2] d2].
    + exfalso. apply Hle. reflexivity.
    + apply (b64_pos_mono _ _ Hp1 Hle).
    + exfalso. apply H2. reflexivity.
  - exfalso. apply H1. reflexivity.
Qed.

(** Rounding loses at most one part in [2 ^ 53]. *)
Lemma b64_lower (q : Q) :
  (0 < q)%Q -> (q - q * (1 # 2 ^ 53) <= b64 q)%Q.
Proof.
  intros Hq. destruct q as [[| p | p] d]; try discriminate.
  unfold b64. cbn [Qnum].
  pose proof (b64_pos_error (Z.pos p # d)) as Herr.
  destruct (floor_log2_spec _ Hq) as [Hlo _].
  set (f := floor_log2 (Z.pos p # d)) in *.
  assert (Hf : (pow2Q (f - 52) == pow2Q f * (1 # 2 ^ 52))%Q).
  { change (1 # 2 ^ 52)%Q with (pow2Q (-52)). rewrite <- pow2Q_add.
    reflexivity. }
  rewrite Hf in Herr. apply Qabs_Qle_condition in Herr.
  destruct Herr as [Herr _].
  pose proof (pow2Q_pos f) as Hp.
  assert (Hc : ((1 # 2) * (pow2Q f * (1 # 2 ^ 52))
                == pow2Q f * (1 # 2 ^ 53))%Q).
  { assert (Hk : ((1 # 2) * (1 # 2 ^ 52) == 1 # 2 ^ 53)%Q) by reflexivity.
    rewrite <- Hk. ring. }
  rewrite Hc in Herr.
  assert (Hs : (pow2Q f * (1 # 2 ^ 53) <= (Z.pos p # d) * (1 # 2 ^ 53))%Q)
    by (apply Qmult_le_compat_r; [exact Hlo | discriminate]).
  lra.
Qed.

Lemma b64_succ_ge (x : Q) :
  (0 <= x)%Q -> (x <= 300)%Q -> (x <= b64 (x + 1))%Q.
Proof.
  intros H0 H300.
  assert (Hpos : (0 < x + 1)%Q) by lra.
  pose proof (b64_lower (x + 1) Hpos) as Hl.
  assert (Hsmall : ((x + 1) * (1 # 2 ^ 53) <= 1)%Q).
  { apply Qle_trans with (301 * (1 # 2 ^ 53))%Q; [| discriminate].
    apply Qmult_le_compat_r; [lra | discriminate]. }
  lra.
Qed.

Lemma b64_small_integers :
  (b64 0 == 0)%Q /\ (b64 1 == 1)%Q /\ (b64 255 == 255)%Q.
Proof. repeat split. Qed.

(** Every raw sample decodes to within [2 ^ -44] of its hundredth. *)
Lemma decode_error (r : Z) :
  0 <= r < 2 ^ 16 ->
  (Qabs (fdiv (inject_Z r) 100 - inject_Z r / 100) <= 1 # 2 ^ 44)%Q.
Proof.
  intros Hr. unfold fdiv, b64.
  assert (Hn : Qnum (inject_Z r / 100) = r) by (cbn; lia).
  assert (Hd : Qden (inject_Z r / 100) = 100%positive) by reflexivity.
  rewrite Hn. destruct r as [| p | p]; [| | lia].
  - cbn. discriminate.
  - eapply Qle_trans; [apply b64_pos_error |].
    pose proof (floor_log2_le (inject_Z (Z.pos p) / 100)) as Hfl.
    rewrite Hn, Hd in Hfl. change (Z.log2 100) with 6 in Hfl.
    assert (Hlog : Z.log2 (Z.pos p) < 16) by (apply Z.log2_lt_pow2; lia).
    apply Qle_trans with ((1 # 2) * pow2Q (-43))%Q.
    + apply Qmult_le_l; [reflexivity |]. apply pow2Q_mono. lia.
    + unfold Qle. cbn. lia.
Qed.

(** ** The synthetic frame *)

Lemma le_combine_split_2 (r : Z) :
  0 <= r < 2 ^ 16 -> le_combine (le_split 2 r) = r.
Proof.
  intros Hr. rewrite le_combine_split.
  change (Z.of_nat 2 * 8) with 16. apply Z.mod_small. exact Hr.
Qed.

Lemma flat_split_length (raws : list Z) :
  List.length (flat_map (le_split 2) raws) = (2 * List.length raws)%nat.
Proof.
  induction raws as [| r raws IH]; [reflexivity |].
  cbn [flat_map]. rewrite length_app, IH, length_le_split.
  cbn [List.length]. lia.
Qed.

Lemma skipn_flat_split (raws : list Z) (i : nat) (post : list byte) :
  (i <= List.length raws)%nat ->
  skipn (i * 2) (flat_map (le_split 2) raws ++ post)
  = flat_map (le_split 2) (skipn i raws) ++ post.
Proof.
  revert raws. induction i as [| i IH]; intros raws Hi; [reflexivity |].
  destruct raws as [| r raws]; [cbn in Hi; lia |].
  cbn [List.length] in Hi.
  change (S i * 2)%nat with (S (S (i * 2))).
  cbn [flat_map le_split app skipn]. apply IH. lia.
Qed.

(** The two bytes of sample [i] sit at offset [4 + 2 i]. *)
Lemma slice_encode_frame (declared : Z) (raws : list Z) (aux : list byte)
      (i : nat) :
  (i < List.length raws)%nat ->
  slice (encode_frame declared raws aux) (4 + i * 2) (4 + i * 2 + 2)
  = le_split 2 (nth i raws 0).
Proof.
  intros Hi. unfold slice, encode_frame, encode_body.
  replace (4 + i * 2 + 2 - (4 + i * 2))%nat with 2%nat by lia.
  change (le_split 2 declared)
    with [byte.of_Z declared; byte.of_Z (Z.shiftr declared 8)].
  cbn [app]. change (4 + i * 2)%nat with (S (S (S (S (i * 2))))).
  cbn [skipn].
  rewrite <- app_assoc. rewrite skipn_flat_split by lia.
  destruct (skipn i raws) as [| r rest] eqn:Hs.
  - apply (f_equal (@List.length Z)) in Hs.
    rewrite length_skipn in Hs. cbn in Hs. lia.
  - assert (Hn : nth i raws 0 = r).
    { rewrite <- (firstn_skipn i raws), Hs.
      rewrite app_nth2; rewrite length_firstn; [| lia].
      replace (i - Nat.min i (List.length raws))%nat with 0%nat by lia.
      reflexivity. }
    rewrite Hn. reflexivity.
Qed.

Lemma encode_body_length (declared : Z) (raws : list Z) (aux : list byte) :
  List.length raws = 768%nat -> List.length aux = 2%nat ->
  List.length (encode_body declared raws aux) = 1542%nat.
Proof.
  intros Hr Ha. unfold encode_body.
  rewrite !length_app, flat_split_length, length_le_split, Hr, Ha.
  reflexivity.
Qed.

Lemma encode_frame_length (declared : Z) (raws : list Z) (aux : list byte) :
  List.length raws = 768%nat -> List.length aux = 2%nat ->
  List.length (encode_frame declared raws aux) = FRAME_LEN.
Proof.
  intros Hr Ha. unfold encode_frame.
  rewrite length_app, length_le_split, encode_body_length by assumption.
  reflexivity.
Qed.

Lemma byte_at_app_l (l1 l2 : list byte) (i : nat) :
  (i < List.length l1)%nat -> byte_at (l1 ++ l2) i = byte_at l1 i.
Proof.
  intros Hi. unfold byte_at. rewrite app_nth1 by exact Hi. reflexivity.
Qed.

Lemma byte_at_app_r (l1 l2 : list byte) (i : nat) :
  (List.length l1 <= i)%nat ->
  byte_at (l1 ++ l2) i = byte_at l2 (i - List.length l1).
Proof.
  intros Hi. unfold byte_at. rewrite app_nth2 by exact Hi. reflexivity.
Qed.

Lemma modular_sum16_app (body tail : list byte) :
  List.length body = 1542%nat ->
  modular_sum16 (body ++ tail) = modular_sum16 body.
Proof.
  intros Hlen. unfold modular_sum16, word_sum. f_equal.
  apply sum_seq_ext. intros m Hm. unfold le_word.
  rewrite !byte_at_app_l by lia. reflexivity.
Qed.

Lemma trailing_word_app (body : list byte) (s : Z) :
  List.length body = 1542%nat -> 0 <= s < 2 ^ 16 ->
  trailing_word (body ++ le_split 2 s) = s.
Proof.
  intros Hlen Hs. unfold trailing_word, le_word.
  rewrite !byte_at_app_r by lia. rewrite Hlen.
  change (2 * 771 - 1542)%nat with 0%nat.
  change (2 * 771 + 1 - 1542)%nat with 1%nat.
  unfold byte_at.
  change (nth 0 (le_split 2 s) Byte.x00) with (byte.of_Z s).
  change (nth 1 (le_split 2 s) Byte.x00) with (byte.of_Z (Z.shiftr s 8)).
  rewrite !byte.unsigned_of_Z. unfold byte.wrap.
  rewrite Z.shiftr_div_pow2 by lia.
  change (2 ^ 8) with 256. change (2 ^ 16) with 65536 in Hs.
  Z.div_mod_to_equations. lia.
Qed.

Lemma modular_sum16_range (frame : list byte) :
  0 <= modular_sum16 frame < 2 ^ 16.
Proof. unfold modular_sum16. apply Z.mod_pos_bound. lia. Qed.

(** A frame built by the encoder passes both checks. *)
Lemma encode_frame_accepted (declared : Z) (raws : list Z) (aux : list byte) :
  List.length raws = 768%nat -> List.length aux = 2%nat ->
  validate (encode_frame declared raws aux) = Accepted.
Proof.
  intros Hr Ha.
  pose proof (encode_body_length declared raws aux Hr Ha) as Hlen.
  apply validate_cases. unfold encode_frame. split.
  - unfold header_ok. rewrite !byte_at_app_l by lia.
    unfold encode_body, byte_at. cbn [app nth].
    rewrite byte.unsigned_of_Z. split; reflexivity.
  - rewrite modular_sum16_app by exact Hlen.
    rewrite trailing_word_app; [reflexivity | exact Hlen |].
    apply modular_sum16_range.
Qed.

(** ** What the scan loop leaves in its variables *)

Lemma Qltb_lt (a b : Q) : Qltb a b = true <-> (a < b)%Q.
Proof.
  unfold Qltb. rewrite negb_true_iff. split.
  - intros H. apply Qnot_le_lt. intros Hle.
    apply Qle_bool_iff in Hle. congruence.
  - intros H. destruct (Qle_bool b a) eqn:E; [| reflexivity].
    apply Qle_bool_iff in E. apply Qlt_not_le in H. contradiction.
Qed.

Lemma Qltb_ge (a b : Q) : Qltb a b = false <-> (b <= a)%Q.
Proof.
  unfold Qltb. rewrite negb_false_iff. apply Qle_bool_iff.
Qed.

Lemma scan_unfold (frame : list byte) :
  scan frame = scan_with (pixel_temp frame) (range 768) scan_init.
Proof.
  unfold scan, scan_with.
  change (Z.to_nat (SENSOR_WIDTH * SENSOR_HEIGHT)) with 768%nat.
  change (scan_step frame)
    with (fun st idx => track st idx (pixel_temp frame idx)).
  reflexivity.
Qed.

Lemma temps_track (st : scan_state) (idx : nat) (t : Q) :
  temps (track st idx t) = temps st ++ [t].
Proof. unfold track. destruct (Qltb (max_temp st) t); reflexivity. Qed.

Lemma temps_scan_with (tf : nat -> Q) (idxs : list nat) (st : scan_state) :
  temps (scan_with tf idxs st) = temps st ++ map tf idxs.
Proof.
  revert st. induction idxs as [| i idxs IH]; intros st; cbn.
  - rewrite app_nil_r. reflexivity.
  - unfold scan_with in IH. rewrite IH, temps_track, <- app_assoc.
    reflexivity.
Qed.

Lemma scan_with_app (tf : nat -> Q) (l1 l2 : list nat) (st : scan_state) :
  scan_with tf (l1 ++ l2) st = scan_with tf l2 (scan_with tf l1 st).
Proof. unfold scan_with. apply fold_left_app. Qed.

(** The grid the loop builds: the decoded pixels in index order. *)
Lemma temps_scan (frame : list byte) :
  temps (scan frame) = map (pixel_temp frame) (range 768).
Proof. rewrite scan_unfold, temps_scan_with. reflexivity. Qed.

(** *** The limits *)

Lemma py_max_floor (t : Q) :
  (inject_Z MIN_TEMP_LIMIT <= py_max t (inject_Z MIN_TEMP_LIMIT))%Q.
Proof.
  unfold py_max. destruct (Qltb t (inject_Z MIN_TEMP_LIMIT)) eqn:E.
  - apply Qle_refl.
  - apply Qltb_ge in E. exact E.
Qed.

Lemma py_min_ceiling (t : Q) :
  (py_min t (inject_Z MAX_TEMP_LIMIT) <= inject_Z MAX_TEMP_LIMIT)%Q.
Proof.
  unfold py_min. destruct (Qltb (inject_Z MAX_TEMP_LIMIT) t) eqn:E.
  - apply Qle_refl.
  - apply Qltb_ge in E. exact E.
Qed.

Lemma track_within_limits (st : scan_state) (idx : nat) (t : Q) :
  within_limits st -> within_limits (track st idx t).
Proof.
  intros [Hlo Hhi]. unfold within_limits, track.
  destruct (Qltb (max_temp st) t), (Qltb t (min_temp st));
    cbn [min_temp max_temp]; split;
    auto using py_max_floor, py_min_ceiling.
Qed.

Lemma scan_with_within_limits (tf : nat -> Q) (idxs : list nat)
      (st : scan_state) :
  within_limits st -> within_limits (scan_with tf idxs st).
Proof.
  revert st. induction idxs as [| i idxs IH]; intros st Hst; cbn.
  - exact Hst.
  - apply IH, track_within_limits, Hst.
Qed.

Lemma scan_init_within_limits : within_limits scan_init.
Proof. split; cbn; discriminate. Qed.

(** What [cycle] returns for a frame that gets through. *)
Lemma cycle_displayed (last : Z) (env : cycle_env) (st : scan_state) :
  ended (cycle last env) = Displayed st ->
  exists frame,
    read_frame env = Some frame
    /\ List.length frame = FRAME_LEN
    /\ validate frame = Accepted
    /\ st = scan frame
    /\ cycle last env = process last frame env.
Proof.
  unfold cycle, incomplete, the_frame.
  destruct (any_pending env <=? 0); [discriminate |].
  destruct (read_frame env) as [frame |]; [| discriminate].
  destruct (List.length frame =? 0)%nat; [discriminate |].
  destruct (Nat.eqb_spec (List.length frame) FRAME_LEN) as [Hlen | Hlen];
    [| discriminate].
  cbv beta iota delta [orb negb].
  destruct (validate frame) as [| [|]] eqn:Hv; try discriminate.
  unfold process at 1. cbv beta iota zeta delta [ended].
  intros Heq.
  assert (Hst : st = scan frame) by congruence.
  exists frame. split; [reflexivity |]. split; [exact Hlen |].
  split; [exact Hv |]. split; [exact Hst | reflexivity].
Qed.

(** C4.  Whenever a cycle gets through validation, the minimum its scan
    leaves is at least 0 and the maximum is at most 300, whatever the
    pixels decode to. *)
Theorem clamped_extremes (last : Z) (env : cycle_env) (st : scan_state) :
  ended (cycle last env) = Displayed st ->
  (inject_Z MIN_TEMP_LIMIT <= min_temp st)%Q
  /\ (max_temp st <= inject_Z MAX_TEMP_LIMIT)%Q.
Proof.
  intros Hend.
  destruct (cycle_displayed last env st Hend)
    as (frame & _ & _ & _ & -> & _).
  rewrite scan_unfold.
  apply scan_with_within_limits, scan_init_within_limits.
Qed.

Lemma clamped_extremes_witness :
  ended (cycle 0 (sample_env 70 1000)) = Displayed (scan (sample_frame 70))
  /\ (inject_Z MIN_TEMP_LIMIT <= min_temp (scan (sample_frame 70)))%Q
  /\ (max_temp (scan (sample_frame 70)) <= inject_Z MAX_TEMP_LIMIT)%Q.
Proof.
  assert (H : ended (cycle 0 (sample_env 70 1000))
              = Displayed (scan (sample_frame 70)))
    by (vm_compute; reflexivity).
  split; [exact H |].
  exact (clamped_extremes 0 (sample_env 70 1000) (scan (sample_frame 70)) H).
Defined.

(** The limit holds for what the scan leaves.  Line 118 then raises
    [max_temp] above it when every pixel is at or over the ceiling: the
    scan leaves 300 and 300, and the label of the hottest pixel is drawn
    from 301. *)
Lemma widened_maximum_over_limit :
  validate overheated_frame = Accepted
  /\ Qeq_bool (min_temp (scan overheated_frame)) 300 = true
  /\ Qeq_bool (max_temp (scan overheated_frame)) 300 = true
  /\ Qeq_bool (widen (scan overheated_frame)) 301 = true
  /\ degrees 1 (widen (scan overheated_frame)) = "301.0°C"%string.
Proof.
  split; [vm_compute; reflexivity |].
  split; [vm_compute; reflexivity |].
  split; [vm_compute; reflexivity |].
  split; vm_compute; reflexivity.
Qed.

(** *** Detection *)

Lemma track_detection (st : scan_state) (idx : nat) (t : Q) :
  quiet_below_threshold st ->
  quiet_below_threshold (track st idx t)
  /\ person_detected (track st idx t)
     = person_detected st || Qltb (inject_Z PERSON_TEMP_THRESHOLD) t.
Proof.
  unfold quiet_below_threshold, track. intros Hq.
  destruct (Qltb (max_temp st) t) eqn:Hmax; cbn [person_detected max_temp].
  - destruct (Qltb (inject_Z PERSON_TEMP_THRESHOLD) t) eqn:Hthr.
    + split; [discriminate | rewrite orb_true_r; reflexivity].
    + split; [| rewrite orb_false_r; reflexivity].
      intros _. apply Qltb_ge in Hthr. unfold py_min.
      destruct (Qltb (inject_Z MAX_TEMP_LIMIT) t) eqn:Hcap; [| exact Hthr].
      apply Qltb_lt in Hcap. cbn in *. lra.
  - split; [exact Hq |].
    destruct (person_detected st) eqn:Hd; [reflexivity |].
    cbn [orb]. symmetry. apply Qltb_ge.
    apply Qltb_ge in Hmax. specialize (Hq eq_refl). lra.
Qed.

Lemma scan_with_detection (tf : nat -> Q) (idxs : list nat)
      (st : scan_state) :
  quiet_below_threshold st ->
  person_detected (scan_with tf idxs st)
  = person_detected st || any_pixel_over_threshold (map tf idxs).
Proof.
  revert st. induction idxs as [| i idxs IH]; intros st Hq; cbn.
  - rewrite orb_false_r. reflexivity.
  - destruct (track_detection st i (tf i) Hq) as [Hq' Hd].
    unfold scan_with in IH. rewrite (IH _ Hq'), Hd, orb_assoc.
    reflexivity.
Qed.

(** C9.  After a full scan in index order, of any grid and so of the
    grid decoded from any frame, the occupancy flag, which the loop
    raises only when a pixel sets a new running maximum above 30, is the
    flag of the rule "any pixel above 30": it is true exactly when some
    temperature of the grid exceeds the threshold. *)
Theorem detection_rules_coincide :
  (forall (tf : nat -> Q) (n : nat),
      person_detected (scan_with tf (range n) scan_init)
      = any_pixel_over_threshold (map tf (range n)))
  /\ forall frame : list byte,
       person_detected (scan frame)
       = any_pixel_over_threshold (temps (scan frame))
       /\ (person_detected (scan frame) = true
           <-> exists idx, (idx < 768)%nat
                 /\ (inject_Z PERSON_TEMP_THRESHOLD
                     < nth idx (temps (scan frame)) 0)%Q).
Proof.
  assert (Hany : forall (tf : nat -> Q) (n : nat),
             person_detected (scan_with tf (range n) scan_init)
             = any_pixel_over_threshold (map tf (range n))).
  { intros tf n. rewrite scan_with_detection; [reflexivity |].
    intros _. cbn. discriminate. }
  split; [exact Hany |]. intros frame.
  assert (Heq : person_detected (scan frame)
                = any_pixel_over_threshold (temps (scan frame)))
    by (rewrite temps_scan, scan_unfold; apply Hany).
  split; [exact Heq |].
  rewrite Heq. unfold any_pixel_over_threshold.
  assert (Hlen : List.length (temps (scan frame)) = 768%nat).
  { rewrite temps_scan. unfold range. rewrite length_map, length_seq.
    reflexivity. }
  rewrite existsb_exists. split.
  - intros (t & Hin & Ht). apply Qltb_lt in Ht.
    destruct (In_nth _ _ 0%Q Hin) as (idx & Hidx & Hnth).
    exists idx. rewrite Hnth. split; [lia | exact Ht].
  - intros (idx & Hidx & Ht).
    exists (nth idx (temps (scan frame)) 0%Q). split.
    + apply nth_In. lia.
    + apply Qltb_lt. exact Ht.
Qed.

(** ** Decoding *)

Lemma nth_temps_scan (frame : list byte) (i : nat) :
  (i < 768)%nat -> nth i (temps (scan frame)) 0%Q = pixel_temp frame i.
Proof.
  intros Hi. rewrite temps_scan. unfold range.
  rewrite (nth_indep _ 0%Q (pixel_temp frame 0))
    by (rewrite length_map, length_seq; exact Hi).
  rewrite map_nth, seq_nth by exact Hi. reflexivity.
Qed.

Lemma pixel_temp_encode_frame (declared : Z) (raws : list Z) (aux : list byte)
      (i : nat) :
  (i < List.length raws)%nat -> 0 <= nth i raws 0 < 2 ^ 16 ->
  pixel_temp (encode_frame declared raws aux) i
  = fdiv (inject_Z (nth i raws 0)) 100.
Proof.
  intros Hi Hr. unfold pixel_temp, temp_of_raw, from_bytes_little.
  rewrite slice_encode_frame by exact Hi.
  rewrite le_combine_split_2 by exact Hr. reflexivity.
Qed.

Lemma grid_at_row_major (ts : list Q) (i : nat) :
  grid_at ts (i mod 32) (i / 32) = nth i ts 0%Q.
Proof.
  unfold grid_at. change (Z.to_nat SENSOR_WIDTH) with 32%nat.
  pose proof (Nat.div_mod_eq i 32) as Hdm.
  replace (i / 32 * 32 + i mod 32)%nat with i by lia. reflexivity.
Qed.

(** C3.  Take 768 raw samples, each an unsigned 16-bit number, standing
    for the temperatures [raw / 100]; encode each little-endian at
    offset [4 + 2 i] behind a valid header and append the matching
    checksum.  The frame has 1544 bytes and is accepted, every decoded
    temperature is within 0.01 of the one encoded, and pixel [i] is the
    cell [(i mod 32, i / 32)] of the row-major grid. *)
Theorem decode_round_trip (declared : Z) (raws : list Z) (aux : list byte) :
  List.length raws = 768%nat ->
  List.length aux = 2%nat ->
  (forall r, In r raws -> 0 <= r < 2 ^ 16) ->
  let frame := encode_frame declared raws aux in
  List.length frame = FRAME_LEN
  /\ validate frame = Accepted
  /\ forall i, (i < 768)%nat ->
       (Qabs (nth i (temps (scan frame)) 0 - inject_Z (nth i raws 0%Z) / 100)
        <= 1 # 100)%Q
       /\ grid_at (temps (scan frame)) (i mod 32) (i / 32)
          = nth i (temps (scan frame)) 0%Q.
Proof.
  intros Hlen Haux Hraws frame. subst frame.
  split; [apply encode_frame_length; assumption |].
  split; [apply encode_frame_accepted; assumption |].
  intros i Hi. split; [| apply grid_at_row_major].
  assert (Hr : 0 <= nth i raws 0 < 2 ^ 16)
    by (apply Hraws, nth_In; lia).
  rewrite nth_temps_scan by exact Hi.
  rewrite pixel_temp_encode_frame by (try exact Hr; lia).
  apply Qle_trans with (1 # 2 ^ 44)%Q; [apply decode_error, Hr |].
  unfold Qle. cbn. lia.
Qed.

Lemma one_hot_pixel_length (hot : nat) :
  List.length (one_hot_pixel hot) = 768%nat.
Proof. unfold one_hot_pixel. rewrite length_map, length_seq. reflexivity. Qed.

Lemma one_hot_pixel_range (hot : nat) (r : Z) :
  In r (one_hot_pixel hot) -> 0 <= r < 2 ^ 16.
Proof.
  unfold one_hot_pixel. rewrite in_map_iff. intros (i & <- & _).
  change (2 ^ 16) with 65536. destruct (i =? hot)%nat; lia.
Qed.

Lemma decode_round_trip_witness :
  List.length (one_hot_pixel 70) = 768%nat
  /\ List.length [Byte.x00; Byte.x00] = 2%nat
  /\ (forall r, In r (one_hot_pixel 70) -> 0 <= r < 2 ^ 16)
  /\ List.length (sample_frame 70) = FRAME_LEN
  /\ validate (sample_frame 70) = Accepted.
Proof.
  split; [apply one_hot_pixel_length |].
  split; [reflexivity |].
  split; [apply one_hot_pixel_range |].
  pose proof (decode_round_trip 0 (one_hot_pixel 70) [Byte.x00; Byte.x00]
                (one_hot_pixel_length 70) eq_refl (one_hot_pixel_range 70))
    as (Hlen & Hacc & _).
  split; [exact Hlen | exact Hacc].
Defined.

(** ** The vibration motor *)

Lemma vibration_feedback_fires (now last : Z) :
  VIBRATION_INTERVAL_MS < ticks_diff now last ->
  vibration_feedback true now last
  = (now, [MotorValue 1; SleepMs 100; MotorValue 0;
           Print "Vibration: seat occupied."]).
Proof.
  intros H. unfold vibration_feedback.
  apply Z.ltb_lt in H. rewrite H. reflexivity.
Qed.

Lemma vibration_feedback_drops (detected : bool) (now last : Z) :
  ticks_diff now last <= VIBRATION_INTERVAL_MS ->
  vibration_feedback detected now last = (last, []).
Proof.
  intros H. unfold vibration_feedback.
  apply Z.ltb_ge in H. rewrite H. destruct detected; reflexivity.
Qed.

(** C5.  With the cooldown of 500 ms and the pulse of 100 ms: let an
    occupancy signal reach the controller at [t], outside the cooldown
    of whatever pulse came before.  A second signal at [t + 400]
    leaves one pulse in all and is dropped without a trace; a second
    signal at [t + 600] makes two pulses.  Each pulse sets
    [last_vibration] to the time of its trigger. *)
Theorem debounce (last t : Z) :
  VIBRATION_INTERVAL_MS < ticks_diff t last ->
  let first := vibration_feedback true t last in
  let near := vibration_feedback true (t + 400) (fst first) in
  let far := vibration_feedback true (t + 600) (fst first) in
  fst first = t
  /\ snd first = [MotorValue 1; SleepMs 100; MotorValue 0;
                  Print "Vibration: seat occupied."]
  /\ (pulses (snd first ++ snd near) = 1%nat
      /\ snd near = [] /\ fst near = t)
  /\ (pulses (snd first ++ snd far) = 2%nat
      /\ fst far = t + 600).
Proof.
  intros Hout first near far. subst first near far.
  rewrite (vibration_feedback_fires t last Hout). cbn [fst snd].
  rewrite (vibration_feedback_drops true (t + 400) t)
    by (unfold ticks_diff, VIBRATION_INTERVAL_MS; lia).
  rewrite (vibration_feedback_fires (t + 600) t)
    by (unfold ticks_diff, VIBRATION_INTERVAL_MS; lia).
  cbn. repeat split; reflexivity.
Qed.

Lemma debounce_witness :
  VIBRATION_INTERVAL_MS < ticks_diff 2000 1000
  /\ pulses (snd (vibration_feedback true 2000 1000)
             ++ snd (vibration_feedback true (2000 + 400)
                       (fst (vibration_feedback true 2000 1000)))) = 1%nat
  /\ pulses (snd (vibration_feedback true 2000 1000)
             ++ snd (vibration_feedback true (2000 + 600)
                       (fst (vibration_feedback true 2000 1000)))) = 2%nat.
Proof.
  assert (H : VIBRATION_INTERVAL_MS < ticks_diff 2000 1000)
    by (vm_compute; reflexivity).
  split; [exact H |].
  pose proof (debounce 1000 2000 H) as (_ & _ & (Hnear & _) & (Hfar & _)).
  split; [exact Hnear | exact Hfar].
Defined.

Lemma process_quiet (last : Z) (frame : list byte) (env : cycle_env) :
  ticks_diff (ticks_ms env) last <= VIBRATION_INTERVAL_MS ->
  last_vibration (process last frame env) = last
  /\ motor_free (events (process last frame env))
  /\ pulses (events (process last frame env)) = 0%nat.
Proof.
  intros Hin. unfold process.
  rewrite (vibration_feedback_drops _ _ _ Hin). cbn.
  repeat split. intros v [H | [H | [H | [H | []]]]]; discriminate.
Qed.

Lemma cycle_quiet (last : Z) (env : cycle_env) :
  ticks_diff (ticks_ms env) last <= VIBRATION_INTERVAL_MS ->
  last_vibration (cycle last env) = last
  /\ motor_free (events (cycle last env))
  /\ pulses (events (cycle last env)) = 0%nat.
Proof.
  intros Hin. unfold cycle.
  destruct (any_pending env <=? 0).
  { cbn. repeat split. intros v []. }
  destruct (incomplete env).
  { cbn. repeat split. intros v [H | []]; discriminate. }
  destruct (validate (the_frame env)) as [| [|]].
  - apply process_quiet, Hin.
  - cbn. repeat split. intros v [H | []]; discriminate.
  - cbn. repeat split. intros v [H | []]; discriminate.
Qed.

Lemma pulses_app (l1 l2 : list event) :
  pulses (l1 ++ l2) = (pulses l1 + pulses l2)%nat.
Proof. unfold pulses. rewrite filter_app, length_app. reflexivity. Qed.

Lemma motor_free_app (l1 l2 : list event) :
  motor_free l1 -> motor_free l2 -> motor_free (l1 ++ l2).
Proof.
  intros H1 H2 v Hin. apply in_app_or in Hin.
  destruct Hin as [Hin | Hin]; [apply (H1 v Hin) | apply (H2 v Hin)].
Qed.

Lemma main_loop_quiet (last : Z) (envs : list cycle_env) :
  (forall env, In env envs ->
               ticks_diff (ticks_ms env) last <= VIBRATION_INTERVAL_MS) ->
  fst (main_loop last envs) = last
  /\ motor_free (snd (main_loop last envs))
  /\ pulses (snd (main_loop last envs)) = 0%nat.
Proof.
  induction envs as [| env rest IH]; intros Hin.
  - cbn. repeat split. intros v [].
  - cbn [main_loop fst snd].
    destruct (cycle_quiet last env (Hin env (or_introl eq_refl)))
      as (Hlast & Hfree & Hnone).
    rewrite Hlast.
    destruct (IH (fun e He => Hin e (or_intror He))) as (Hl & Hf & Hn).
    split; [exact Hl |]. split.
    + apply motor_free_app; assumption.
    + rewrite pulses_app, Hnone, Hn. reflexivity.
Qed.

(** C10.  [last_vibration] starts as the clock value at program start.
    As long as the cycles read the clock no more than 500 ms after
    that, none of them switches the motor, whatever its frame shows, a
    person included, and [last_vibration] stays at the start value. *)
Theorem startup_cooldown (start : Z) (envs : list cycle_env) :
  (forall env, In env envs ->
               ticks_diff (ticks_ms env) start <= VIBRATION_INTERVAL_MS) ->
  let out := program start envs in
  fst out = start /\ motor_free (snd out) /\ pulses (snd out) = 0%nat.
Proof.
  intros Hin out. subst out. unfold program.
  apply main_loop_quiet, Hin.
Qed.

Lemma startup_cooldown_witness :
  (forall env, In env [sample_env 70 1300] ->
               ticks_diff (ticks_ms env) 1000 <= VIBRATION_INTERVAL_MS)
  /\ person_detected (scan (sample_frame 70)) = true
  /\ ended (cycle 1000 (sample_env 70 1300))
     = Displayed (scan (sample_frame 70))
  /\ pulses (snd (program 1000 [sample_env 70 1300])) = 0%nat.
Proof.
  assert (H : forall env, In env [sample_env 70 1300] ->
                ticks_diff (ticks_ms env) 1000 <= VIBRATION_INTERVAL_MS).
  { intros env [<- | []]. vm_compute. discriminate. }
  split; [exact H |].
  split; [vm_compute; reflexivity |].
  split; [vm_compute; reflexivity |].
  exact (proj2 (proj2 (startup_cooldown 1000 [sample_env 70 1300] H))).
Defined.

(** ** The four ways out *)

Lemma rejected_iff_not_displayed (r : cycle_result) :
  rejected r <-> forall st, ended r <> Displayed st.
Proof.
  unfold rejected. destruct (ended r) as [| | [|] | st']; split;
    try (intros _ st; discriminate); try tauto.
  - intros [H | [H | [H | H]]]; discriminate.
  - intros H. exfalso. apply (H st'). reflexivity.
Qed.

(** An iteration that ends at a [continue] changes nothing and prints at
    most its one message. *)
Lemma rejected_cycle_shape (last : Z) (env : cycle_env) :
  rejected (cycle last env) ->
  exists log,
    cycle last env = skip (ended (cycle last env)) last log
    /\ (log = [] \/ exists s, log = [Print s]).
Proof.
  unfold cycle.
  destruct (any_pending env <=? 0).
  { intros _. exists []. split; [reflexivity | left; reflexivity]. }
  destruct (incomplete env).
  { intros _. eexists. split; [reflexivity | right; eexists; reflexivity]. }
  destruct (validate (the_frame env)) as [| [|]].
  - intros [H | [H | [H | H]]]; discriminate.
  - intros _. eexists. split; [reflexivity | right; eexists; reflexivity].
  - intros _. eexists. split; [reflexivity | right; eexists; reflexivity].
Qed.

Lemma zero_header_rejected (frame : list byte) :
  byte_at frame 0 = 0 -> byte_at frame 1 = 0 ->
  validate frame = Rejected InvalidHeader.
Proof.
  intros H0 H1. apply validate_cases. intros [Hf _].
  rewrite H0 in Hf. discriminate.
Qed.

(** C7.  An iteration that ends on NoData, IncompleteFrame,
    InvalidHeader or ChecksumMismatch leaves [last_vibration] as it was
    and never touches the motor, and the loop goes on with the next
    iteration from the same state.  A full-length frame whose two header
    bytes are zero is rejected for its header whatever the rest of it
    holds: the one message printed is the header's, nothing about the
    checksum, and nothing is decoded or displayed. *)
Theorem rejection_is_local (last : Z) (env : cycle_env) :
  (rejected (cycle last env) ->
   last_vibration (cycle last env) = last
   /\ motor_free (events (cycle last env))
   /\ forall rest,
        main_loop last (env :: rest)
        = (fst (main_loop last rest),
           events (cycle last env) ++ snd (main_loop last rest)))
  /\ (forall frame,
        0 < any_pending env ->
        read_frame env = Some frame ->
        List.length frame = FRAME_LEN ->
        byte_at frame 0 = 0 -> byte_at frame 1 = 0 ->
        cycle last env
        = skip (BadFrame InvalidHeader) last [Print "Invalid frame header."]).
Proof.
  split.
  - intros Hrej.
    destruct (rejected_cycle_shape last env Hrej) as (log & Hshape & Hlog).
    assert (Hlast : last_vibration (cycle last env) = last)
      by (rewrite Hshape; reflexivity).
    assert (Hev : events (cycle last env) = log)
      by (rewrite Hshape; reflexivity).
    split; [exact Hlast |]. split.
    + rewrite Hev. intros v Hin.
      destruct Hlog as [-> | [s ->]]; [destruct Hin |].
      destruct Hin as [H | []]. discriminate.
    + intros rest. cbn [main_loop]. rewrite Hlast. reflexivity.
  - intros frame Hany Hread Hlen H0 H1. unfold cycle, incomplete, the_frame.
    apply Z.leb_gt in Hany. rewrite Hany, Hread, Hlen.
    change ((FRAME_LEN =? 0)%nat || negb (FRAME_LEN =? FRAME_LEN)%nat)
      with false. cbv iota.
    rewrite (zero_header_rejected frame H0 H1). reflexivity.
Qed.

Lemma rejection_is_local_witness :
  rejected (cycle 1000 zero_header_env)
  /\ 0 < any_pending zero_header_env
  /\ read_frame zero_header_env = Some zero_header_frame
  /\ List.length zero_header_frame = FRAME_LEN
  /\ byte_at zero_header_frame 0 = 0 /\ byte_at zero_header_frame 1 = 0
  /\ last_vibration (cycle 1000 zero_header_env) = 1000
  /\ cycle 1000 zero_header_env
     = skip (BadFrame InvalidHeader) 1000 [Print "Invalid frame header."].
Proof.
  assert (Hrej : rejected (cycle 1000 zero_header_env)).
  { right. right. left. vm_compute. reflexivity. }
  assert (Hany : 0 < any_pending zero_header_env) by (vm_compute; reflexivity).
  assert (Hread : read_frame zero_header_env = Some zero_header_frame)
    by reflexivity.
  assert (Hlen : List.length zero_header_frame = FRAME_LEN)
    by (vm_compute; reflexivity).
  assert (H0 : byte_at zero_header_frame 0 = 0) by (vm_compute; reflexivity).
  assert (H1 : byte_at zero_header_frame 1 = 0) by (vm_compute; reflexivity).
  destruct (rejection_is_local 1000 zero_header_env) as [Hloc Hzero].
  split; [exact Hrej |]. split; [exact Hany |]. split; [exact Hread |].
  split; [exact Hlen |]. split; [exact H0 |]. split; [exact H1 |].
  split; [exact (proj1 (Hloc Hrej)) |].
  exact (Hzero zero_header_frame Hany Hread Hlen H0 H1).
Defined.

(** ** The image of a cycle that gets through *)

Lemma cycle_accepted (last : Z) (env : cycle_env) (frame : list byte) :
  0 < any_pending env ->
  read_frame env = Some frame ->
  List.length frame = FRAME_LEN ->
  validate frame = Accepted ->
  cycle last env = process last frame env.
Proof.
  intros Hany Hread Hlen Hacc. unfold cycle, incomplete, the_frame.
  apply Z.leb_gt in Hany. rewrite Hany, Hread, Hlen.
  change ((FRAME_LEN =? 0)%nat || negb (FRAME_LEN =? FRAME_LEN)%nat)
    with false. cbv iota.
  rewrite Hacc. reflexivity.
Qed.

Lemma displayed_image_process (last : Z) (frame : list byte)
      (env : cycle_env) :
  displayed_image (process last frame env)
  = build_image (scan frame) (fps env).
Proof.
  unfold displayed_image, process. cbn [events].
  rewrite !flat_map_app.
  assert (Hfb : forall d n l,
             flat_map
               (fun e => match e with LcdDisplay img => img | _ => [] end)
               (snd (vibration_feedback d n l)) = []).
  { intros d n l. unfold vibration_feedback.
    destruct d; [destruct (VIBRATION_INTERVAL_MS <? ticks_diff n l) |];
      reflexivity. }
  rewrite Hfb. cbn [flat_map app]. rewrite app_nil_r. reflexivity.
Qed.

Lemma displayed_image_cycle (last : Z) (env : cycle_env) (st : scan_state) :
  ended (cycle last env) = Displayed st ->
  displayed_image (cycle last env) = build_image st (fps env).
Proof.
  intros Hend.
  destruct (cycle_displayed last env st Hend)
    as (frame & _ & _ & _ & -> & ->).
  apply displayed_image_process.
Qed.

Lemma in_grayscale (ts : list Q) (lo hi : Q) (op : img_op) :
  In op (grayscale ts lo hi)
  <-> exists x y, (x < 32)%nat /\ (y < 24)%nat
        /\ op = SetPixel (Z.of_nat x) (Z.of_nat y) (pixel_value ts lo hi x y).
Proof.
  unfold grayscale, range.
  change (Z.to_nat SENSOR_WIDTH) with 32%nat.
  change (Z.to_nat SENSOR_HEIGHT) with 24%nat.
  rewrite in_flat_map. split.
  - intros (y & Hy & Hin). apply in_map_iff in Hin.
    destruct Hin as (x & <- & Hx). apply in_seq in Hy. apply in_seq in Hx.
    exists x, y. repeat split; lia.
  - intros (x & y & Hx & Hy & ->). exists y. split.
    + apply in_seq. lia.
    + apply in_map_iff. exists x. split; [reflexivity |].
      apply in_seq. lia.
Qed.

Lemma in_build_image_set_pixel (st : scan_state) (fps : Q) (X Y v : Z) :
  In (SetPixel X Y v) (build_image st fps)
  <-> In (SetPixel X Y v) (grayscale (temps st) (min_temp st) (widen st)).
Proof.
  unfold build_image, center_overlay, hottest_overlay, fps_overlay.
  rewrite !in_app_iff. split; [| tauto].
  intros [H | [H | [H | [H | [H | H]]]]]; try exact H.
  - destruct H as [H | [H | []]]; discriminate.
  - destruct H as [H | [H | []]]; discriminate.
  - destruct H as [H | [H | []]]; discriminate.
  - destruct (max_pos st) as [[mx my] |]; [| destruct H].
    destruct H as [H | [H | []]]; discriminate.
  - destruct H as [H | []]; discriminate.
Qed.

(** [int()] cuts the fraction off, toward zero. *)
Lemma py_int_truncates (q : Q) :
  ((0 <= q)%Q -> (inject_Z (py_int q) <= q < inject_Z (py_int q) + 1)%Q)
  /\ ((q <= 0)%Q -> (inject_Z (py_int q) - 1 < q <= inject_Z (py_int q))%Q).
Proof.
  destruct q as [n d]. unfold py_int. cbn [Qnum Qden]. split; intros Hq.
  - assert (Hn : 0 <= n) by (unfold Qle in Hq; cbn in Hq; lia).
    rewrite Z.quot_div_nonneg by lia.
    change (n / Z.pos d) with (Qfloor (n # d)).
    split; [apply Qfloor_le |].
    pose proof (Qlt_floor (n # d)) as Hlt.
    rewrite inject_Z_plus in Hlt. exact Hlt.
  - assert (Hn : n <= 0) by (unfold Qle in Hq; cbn in Hq; lia).
    assert (Hquot : Z.quot n (Z.pos d) = Qceiling (n # d)).
    { unfold Qceiling, Qfloor. cbn [Qopp Qnum Qden].
      rewrite <- (Z.opp_involutive n) at 1.
      rewrite Z.quot_opp_l by lia.
      rewrite Z.quot_div_nonneg by lia. reflexivity. }
    rewrite Hquot. split; [| apply Qle_ceiling].
    pose proof (Qceiling_lt (n # d)) as Hlt.
    unfold Z.sub in Hlt. rewrite inject_Z_plus, inject_Z_opp in Hlt.
    exact Hlt.
Qed.

(** *** The range of the scaled value *)

Lemma pixel_temp_nonneg (frame : list byte) (idx : nat) :
  (0 <= pixel_temp frame idx)%Q.
Proof.
  unfold pixel_temp, temp_of_raw, from_bytes_little, fdiv.
  apply b64_nonneg.
  pose proof (le_combine_bound (slice frame (4 + idx * 2) (4 + idx * 2 + 2)))
    as [Hlo _].
  apply Qle_shift_div_l; [reflexivity |].
  rewrite Qmult_0_l. change 0%Q with (inject_Z 0). rewrite <- Zle_Qle.
  exact Hlo.
Qed.

Ltac tests_to_order :=
  repeat match goal with
         | H : Qltb _ _ = true |- _ => apply Qltb_lt in H
         | H : Qltb _ _ = false |- _ => apply Qltb_ge in H
         end.

(** One pixel keeps the extremes sound, and leaves the minimum at or
    below the maximum whatever they were before. *)
Lemma track_sound (st : scan_state) (idx : nat) (t : Q) :
  (0 <= t)%Q -> scan_sound st ->
  scan_sound (track st idx t)
  /\ (min_temp (track st idx t) <= max_temp (track st idx t))%Q.
Proof.
  intros Ht ((Hlo0 & Hlo1) & (Hhi0 & Hhi1) & Hall).
  unfold scan_sound, track, py_max, py_min.
  change (inject_Z MIN_TEMP_LIMIT) with 0%Q.
  change (inject_Z MAX_TEMP_LIMIT) with 300%Q.
  destruct (Qltb (max_temp st) t) eqn:Hmax;
    destruct (Qltb t (min_temp st)) eqn:Hmin;
    destruct (Qltb t 0) eqn:Hneg;
    destruct (Qltb 300 t) eqn:Hcap;
    cbn [temps min_temp max_temp]; tests_to_order;
    (split; [split; [| split] |]); try lra;
    apply Forall_app; split;
    try (constructor; [lra | constructor]);
    try (eapply Forall_impl; [| exact Hall]; cbn beta; intros; lra).
Qed.

Lemma track_covers (st : scan_state) (idx : nat) (t : Q) :
  (t <= 300)%Q -> max_covers st -> max_covers (track st idx t).
Proof.
  intros Ht Hall. unfold max_covers, track, py_min.
  change (inject_Z MAX_TEMP_LIMIT) with 300%Q.
  destruct (Qltb (max_temp st) t) eqn:Hmax;
    destruct (Qltb 300 t) eqn:Hcap;
    cbn [temps max_temp]; tests_to_order; try lra;
    apply Forall_app; split;
    try (constructor; [lra | constructor]);
    try (eapply Forall_impl; [| exact Hall]; cbn beta; intros; lra).
Qed.

Lemma scan_with_sound (tf : nat -> Q) (idxs : list nat) (st : scan_state) :
  (forall i, 0 <= tf i)%Q -> scan_sound st ->
  scan_sound (scan_with tf idxs st).
Proof.
  intros Htf. revert st. induction idxs as [| i idxs IH]; intros st Hst.
  - exact Hst.
  - cbn [scan_with fold_left]. apply IH.
    apply (track_sound st i (tf i) (Htf i) Hst).
Qed.

Lemma scan_with_covers (tf : nat -> Q) (idxs : list nat) (st : scan_state) :
  (forall i, In i idxs -> tf i <= 300)%Q -> max_covers st ->
  max_covers (scan_with tf idxs st).
Proof.
  revert st. induction idxs as [| i idxs IH]; intros st Htf Hst.
  - exact Hst.
  - cbn [scan_with fold_left]. apply IH.
    + intros j Hj. apply Htf. right. exact Hj.
    + apply track_covers; [apply Htf; left; reflexivity | exact Hst].
Qed.

Lemma scan_init_sound : scan_sound scan_init.
Proof.
  unfold scan_sound. cbn. repeat split; try discriminate. constructor.
Qed.

(** After the scan of a frame: the minimum is at or below every pixel
    and at or below the maximum, both between 0 and 300. *)
Lemma scan_sound_ordered (frame : list byte) :
  scan_sound (scan frame)
  /\ (min_temp (scan frame) <= max_temp (scan frame))%Q.
Proof.
  rewrite scan_unfold. unfold range.
  change (seq 0 768) with (seq 0 (S 767)). rewrite seq_S, scan_with_app.
  cbn [scan_with fold_left Nat.add].
  apply track_sound; [apply pixel_temp_nonneg |].
  apply scan_with_sound; [apply pixel_temp_nonneg | apply scan_init_sound].
Qed.

(** If no pixel decodes above 300 degrees, the maximum is at or above
    every pixel. *)
Lemma scan_covers (frame : list byte) :
  Forall (fun t => (t <= 300)%Q) (temps (scan frame)) ->
  max_covers (scan frame).
Proof.
  intros Hall. rewrite temps_scan in Hall. rewrite scan_unfold.
  apply scan_with_covers; [| constructor].
  intros i Hi. rewrite Forall_forall in Hall.
  apply Hall, in_map, Hi.
Qed.

(** Line 118 leaves the upper end of the scale at or above both
    extremes. *)
Lemma widen_ge (st : scan_state) :
  scan_sound st -> (min_temp st <= max_temp st)%Q ->
  (min_temp st <= widen st)%Q /\ (max_temp st <= widen st)%Q.
Proof.
  intros ((Hlo0 & Hlo1) & _) Hle. unfold widen, fadd.
  destruct (Qeq_bool (max_temp st) (min_temp st)) eqn:Heq.
  - apply Qeq_bool_iff in Heq.
    pose proof (b64_succ_ge (min_temp st) Hlo0 Hlo1) as Hs. split; lra.
  - split; [exact Hle | apply Qle_refl].
Qed.

Lemma scaled_value_nonneg (t lo hi : Q) :
  (lo <= t)%Q -> (lo <= hi)%Q -> (0 <= scaled_value t lo hi)%Q.
Proof.
  intros Ht Hhi. unfold scaled_value, fmul, fdiv, fsub.
  assert (Ha : (0 <= b64 (t - lo))%Q) by (apply b64_nonneg; lra).
  assert (Hb : (0 <= b64 (hi - lo))%Q) by (apply b64_nonneg; lra).
  assert (Hq : (0 <= b64 (t - lo) / b64 (hi - lo))%Q).
  { apply Qmult_le_0_compat; [exact Ha |]. apply Qinv_le_0_compat, Hb. }
  apply b64_nonneg.
  apply Qmult_le_0_compat; [apply b64_nonneg, Hq | discriminate].
Qed.

Lemma scaled_value_le_255 (t lo hi : Q) :
  (lo <= t)%Q -> (t <= hi)%Q -> (scaled_value t lo hi <= 255)%Q.
Proof.
  intros Ht Hhi. unfold scaled_value, fmul, fdiv, fsub.
  destruct b64_small_integers as (_ & H1 & H255).
  assert (Ha : (0 <= b64 (t - lo))%Q) by (apply b64_nonneg; lra).
  assert (Hab : (b64 (t - lo) <= b64 (hi - lo))%Q)
    by (apply b64_mono; lra).
  set (a := b64 (t - lo)) in *. set (b := b64 (hi - lo)) in *.
  assert (Hq0 : (0 <= a / b)%Q).
  { apply Qmult_le_0_compat; [exact Ha |]. apply Qinv_le_0_compat. lra. }
  assert (Hq1 : (a / b <= 1)%Q).
  { destruct (Qlt_le_dec 0 b) as [Hpos | Hzero].
    - apply Qle_shift_div_r; [exact Hpos | lra].
    - assert (Hb0 : (b == 0)%Q) by lra.
      unfold Qdiv. rewrite Hb0. change (/ 0)%Q with 0%Q. lra. }
  assert (Hc0 : (0 <= b64 (a / b))%Q) by (apply b64_nonneg, Hq0).
  assert (Hc1 : (b64 (a / b) <= 1)%Q).
  { rewrite <- H1. apply b64_mono; assumption. }
  rewrite <- H255 at 2. apply b64_mono.
  - apply Qmult_le_0_compat; [exact Hc0 | discriminate].
  - lra.
Qed.

(** C6, as the code has it.  In a cycle that gets through, the value
    written for cell [(x, y)] is
    [int((t - min_temp) / (max_temp - min_temp) * 255)] in binary64,
    with [max_temp] raised to [min_temp + 1] when the two were equal.
    It is the one value written for that cell.  The scaled temperature
    is never negative, so [int()] gives its integer part: the fraction
    is cut off, not rounded.  No clamp is applied; the value is at most
    255 when no pixel of the frame decodes above 300 degrees. *)
Theorem pixel_written (last : Z) (env : cycle_env) (st : scan_state)
        (x y : nat) :
  ended (cycle last env) = Displayed st ->
  (x < 32)%nat -> (y < 24)%nat ->
  let scaled :=
    scaled_value (grid_at (temps st) x y) (min_temp st) (widen st) in
  (forall v,
      In (SetPixel (Z.of_nat x) (Z.of_nat y) v)
         (displayed_image (cycle last env))
      <-> v = py_int scaled)
  /\ (0 <= scaled)%Q
  /\ (inject_Z (py_int scaled) <= scaled < inject_Z (py_int scaled) + 1)%Q
  /\ 0 <= py_int scaled
  /\ (Forall (fun t => (t <= 300)%Q) (temps st) -> py_int scaled <= 255).
Proof.
  intros Hend Hx Hy scaled.
  assert (Himg : forall v,
             In (SetPixel (Z.of_nat x) (Z.of_nat y) v)
                (displayed_image (cycle last env))
             <-> v = py_int scaled).
  { intros v. rewrite (displayed_image_cycle last env st Hend).
    rewrite in_build_image_set_pixel, in_grayscale. split.
    - intros (x' & y' & _ & _ & Heq). injection Heq as Hx' Hy' ->.
      apply Nat2Z.inj in Hx'. apply Nat2Z.inj in Hy'. subst x' y'.
      reflexivity.
    - intros ->. exists x, y. repeat split; assumption. }
  split; [exact Himg |].
  destruct (cycle_displayed last env st Hend)
    as (frame & _ & _ & _ & Hst & _).
  destruct (scan_sound_ordered frame) as (Hsound & Hord).
  rewrite <- Hst in Hsound, Hord.
  destruct (widen_ge st Hsound Hord) as (Hwlo & Hwhi).
  assert (Hlen : List.length (temps st) = 768%nat).
  { rewrite Hst, temps_scan. unfold range.
    rewrite length_map, length_seq. reflexivity. }
  assert (Hin : In (grid_at (temps st) x y) (temps st)).
  { unfold grid_at. apply nth_In.
    change (Z.to_nat SENSOR_WIDTH) with 32%nat. lia. }
  assert (Hmin : (min_temp st <= grid_at (temps st) x y)%Q).
  { destruct Hsound as (_ & _ & Hall). rewrite Forall_forall in Hall.
    apply Hall, Hin. }
  assert (Hnn : (0 <= scaled)%Q)
    by (apply scaled_value_nonneg; assumption).
  destruct (py_int_truncates scaled) as [Hfloor _].
  specialize (Hfloor Hnn).
  split; [exact Hnn |]. split; [exact Hfloor |].
  assert (Hv0 : 0 <= py_int scaled).
  { unfold py_int. apply Z.quot_pos; [| lia].
    unfold Qle in Hnn. cbn in Hnn. lia. }
  split; [exact Hv0 |].
  intros Hcool.
  assert (Hcov : max_covers st) by (rewrite Hst in *; apply scan_covers, Hcool).
  assert (Hmax : (grid_at (temps st) x y <= max_temp st)%Q).
  { unfold max_covers in Hcov. rewrite Forall_forall in Hcov.
    apply Hcov, Hin. }
  assert (Hle : (scaled <= 255)%Q)
    by (apply scaled_value_le_255; [exact Hmin | lra]).
  assert (Hz : (inject_Z (py_int scaled) <= inject_Z 255)%Q)
    by (change (inject_Z 255) with 255%Q; lra).
  rewrite <- Zle_Qle in Hz. exact Hz.
Qed.

Lemma pixel_written_witness :
  ended (cycle 0 uneven_env) = Displayed (scan uneven_frame)
  /\ (2 < 32)%nat /\ (0 < 24)%nat
  /\ (forall v,
         In (SetPixel 2 0 v) (displayed_image (cycle 0 uneven_env)) <-> v = 1).
Proof.
  assert (Hend : ended (cycle 0 uneven_env) = Displayed (scan uneven_frame))
    by (vm_compute; reflexivity).
  assert (Hx : (2 < 32)%nat) by lia.
  assert (Hy : (0 < 24)%nat) by lia.
  split; [exact Hend |]. split; [exact Hx |]. split; [exact Hy |].
  intros v.
  destruct (pixel_written 0 uneven_env (scan uneven_frame) 2 0 Hend Hx Hy)
    as (Hval & _).
  specialize (Hval v). cbn [Z.of_nat Pos.of_succ_nat Pos.succ] in Hval.
  rewrite Hval.
  assert (Hone : py_int
                   (scaled_value (grid_at (temps (scan uneven_frame)) 2 0)
                                 (min_temp (scan uneven_frame))
                                 (widen (scan uneven_frame))) = 1)
    by (vm_compute; reflexivity).
  rewrite Hone. reflexivity.
Defined.

(** C6 as worded fails twice on one frame.  With 0.00, 400.00 and 2.00
    degrees in the first three cells, the scan leaves [min_temp = 0] and
    [max_temp = 300].  Cell (2,0) gets 1, the fraction of 1.7 cut off,
    where rounding gives 2; cell (1,0) gets 340, where clamping gives
    255. *)
Lemma pixel_truncated_and_unclamped :
  ended (cycle 0 uneven_env) = Displayed (scan uneven_frame)
  /\ firstn 5 (displayed_image (cycle 0 uneven_env))
     = [NewImage 32 24; ToGrayscale;
        SetPixel 0 0 0; SetPixel 1 0 340; SetPixel 2 0 1]
  /\ normalized_spec (grid_at (temps (scan uneven_frame)) 2 0)
                     (min_temp (scan uneven_frame))
                     (widen (scan uneven_frame)) = 2
  /\ normalized_spec (grid_at (temps (scan uneven_frame)) 1 0)
                     (min_temp (scan uneven_frame))
                     (widen (scan uneven_frame)) = 255.
Proof.
  split; [vm_compute; reflexivity |].
  split; [vm_compute; reflexivity |].
  split; vm_compute; reflexivity.
Qed.

(** ** Scenario A *)

Lemma scan_with_ext (tf tf' : nat -> Q) (idxs : list nat) (st : scan_state) :
  (forall i, In i idxs -> tf i = tf' i) ->
  scan_with tf idxs st = scan_with tf' idxs st.
Proof.
  revert st. induction idxs as [| i idxs IH]; intros st Hext; cbn;
    [reflexivity |].
  rewrite (Hext i) by (left; reflexivity).
  apply IH. intros j Hj. apply Hext. right. exact Hj.
Qed.

Lemma nth_one_hot_pixel (hot i : nat) :
  (i < 768)%nat ->
  nth i (one_hot_pixel hot) 0 = if (i =? hot)%nat then 3500 else 2500.
Proof.
  intros Hi. unfold one_hot_pixel.
  rewrite (nth_indep _ 0 (if (0 =? hot)%nat then 3500 else 2500))
    by (rewrite length_map, length_seq; exact Hi).
  rewrite (map_nth (fun i => if (i =? hot)%nat then 3500 else 2500)).
  rewrite seq_nth by exact Hi. reflexivity.
Qed.

Lemma scan_one_hot_pixel (hot : nat) (declared : Z) (aux : list byte) :
  scan (encode_frame declared (one_hot_pixel hot) aux)
  = scan_with (one_hot_temps hot) (range 768) scan_init.
Proof.
  rewrite scan_unfold. apply scan_with_ext. intros i Hi.
  apply in_seq in Hi.
  assert (Hv : nth i (one_hot_pixel hot) 0
               = if (i =? hot)%nat then 3500 else 2500)
    by (apply nth_one_hot_pixel; lia).
  rewrite pixel_temp_encode_frame.
  - rewrite Hv. unfold one_hot_temps.
    destruct (i =? hot)%nat; reflexivity.
  - rewrite one_hot_pixel_length. lia.
  - rewrite Hv. change (2 ^ 16) with 65536.
    destruct (i =? hot)%nat; lia.
Qed.

(** The comparisons scenario A meets, on its two temperatures. *)
Lemma scenario_A_comparisons :
  Qltb base_temp (inject_Z MAX_TEMP_LIMIT) = true
  /\ Qltb (inject_Z MIN_TEMP_LIMIT) base_temp = true
  /\ Qltb (inject_Z PERSON_TEMP_THRESHOLD) base_temp = false
  /\ Qltb base_temp base_temp = false
  /\ Qltb base_temp hot_temp = true
  /\ Qltb hot_temp base_temp = false
  /\ Qltb hot_temp (inject_Z MAX_TEMP_LIMIT) = true
  /\ Qltb (inject_Z MIN_TEMP_LIMIT) hot_temp = true
  /\ Qltb (inject_Z PERSON_TEMP_THRESHOLD) hot_temp = true
  /\ py_max base_temp (inject_Z MIN_TEMP_LIMIT) = base_temp
  /\ py_min base_temp (inject_Z MAX_TEMP_LIMIT) = base_temp
  /\ py_max hot_temp (inject_Z MIN_TEMP_LIMIT) = hot_temp
  /\ py_min hot_temp (inject_Z MAX_TEMP_LIMIT) = hot_temp.
Proof. repeat split; vm_compute; reflexivity. Qed.

(** A pixel at the base temperature, met when the minimum is the base
    or above it and the maximum is not below it, leaves the minimum at
    the base and the rest alone. *)
Lemma track_base (st : scan_state) (idx : nat) (lo hi : Q)
      (pos : option (Z * Z)) (det : bool) :
  stats st lo hi pos det ->
  lo = base_temp \/ lo = hot_temp ->
  hi = base_temp \/ hi = hot_temp ->
  stats (track st idx base_temp) base_temp hi pos det.
Proof.
  intros (Hlo & Hhi & Hpos & Hdet) Hl Hh.
  destruct scenario_A_comparisons
    as (_ & _ & _ & Hbb & Hbh & Hhb & _ & _ & _ & Hmax & _).
  unfold stats, track. rewrite Hlo, Hhi.
  assert (Hnot : Qltb hi base_temp = false)
    by (destruct Hh as [-> | ->]; assumption).
  rewrite Hnot. cbn [min_temp max_temp max_pos person_detected].
  repeat split; try assumption.
  destruct Hl as [-> | ->].
  - rewrite Hbb. reflexivity.
  - rewrite Hbh. exact Hmax.
Qed.

Lemma scan_with_base (tf : nat -> Q) (idxs : list nat) (st : scan_state)
      (lo hi : Q) (pos : option (Z * Z)) (det : bool) :
  (forall i, In i idxs -> tf i = base_temp) ->
  idxs <> [] ->
  stats st lo hi pos det ->
  lo = base_temp \/ lo = hot_temp ->
  hi = base_temp \/ hi = hot_temp ->
  stats (scan_with tf idxs st) base_temp hi pos det.
Proof.
  revert st lo.
  induction idxs as [| i idxs IH]; intros st lo Htf Hne Hst Hl Hh;
    [congruence |].
  cbn [scan_with fold_left]. rewrite (Htf i) by (left; reflexivity).
  pose proof (track_base st i lo hi pos det Hst Hl Hh) as Hst'.
  destruct idxs as [| i' idxs'] eqn:Hidxs; [exact Hst' |].
  rewrite <- Hidxs in *.
  apply (IH (track st i base_temp) base_temp).
  - intros k Hk. apply Htf. right. exact Hk.
  - rewrite Hidxs. discriminate.
  - exact Hst'.
  - left. reflexivity.
  - exact Hh.
Qed.

Lemma one_hot_temps_other (hot i : nat) :
  i <> hot -> one_hot_temps hot i = base_temp.
Proof.
  intros Hne. unfold one_hot_temps.
  destruct (Nat.eqb_spec i hot); [contradiction | reflexivity].
Qed.

(** The first pixel of scenario A, cold or hot. *)
Lemma first_pixel_base :
  stats (track scan_init 0 base_temp) base_temp base_temp (Some (0, 0)) false.
Proof. repeat split; vm_compute; reflexivity. Qed.

Lemma first_pixel_hot :
  stats (track scan_init 0 hot_temp) hot_temp hot_temp (Some (0, 0)) true.
Proof. repeat split; vm_compute; reflexivity. Qed.

(** The hot pixel, met after cold ones. *)
Lemma track_hot (st : scan_state) (idx : nat) (pos : option (Z * Z)) :
  stats st base_temp base_temp pos false ->
  stats (track st idx hot_temp) base_temp hot_temp
        (Some (Z.of_nat idx mod SENSOR_WIDTH, Z.of_nat idx / SENSOR_WIDTH))
        true.
Proof.
  intros (Hlo & Hhi & Hpos & Hdet).
  destruct scenario_A_comparisons
    as (_ & _ & _ & _ & Hbh & Hhb & _ & _ & Hthr & _ & _ & _ & Hmin).
  unfold stats, track. rewrite Hlo, Hhi, Hbh, Hhb, Hthr.
  cbn [min_temp max_temp max_pos person_detected].
  split; [reflexivity |]. split; [exact Hmin |]. split; reflexivity.
Qed.

(** What the scan of scenario A leaves, wherever the hot pixel is. *)
Lemma scan_scenario_A (hot : nat) :
  (hot < 768)%nat ->
  stats (scan_with (one_hot_temps hot) (range 768) scan_init)
        base_temp hot_temp
        (Some (Z.of_nat hot mod SENSOR_WIDTH, Z.of_nat hot / SENSOR_WIDTH))
        true.
Proof.
  intros Hhot. unfold range.
  assert (Hcold : forall a n i,
             In i (seq a n) -> (hot < a \/ a + n <= hot)%nat ->
             one_hot_temps hot i = base_temp).
  { intros a n i Hi Hout. apply in_seq in Hi.
    apply one_hot_temps_other. lia. }
  assert (Hseq : forall a n, (0 < n)%nat -> seq a n <> [])
    by (intros a [| n] Hn; [lia | discriminate]).
  destruct hot as [| k].
  - change (seq 0 768) with ([0%nat] ++ seq 1 767). rewrite scan_with_app.
    change (scan_with (one_hot_temps 0) [0%nat] scan_init)
      with (track scan_init 0 hot_temp).
    apply (scan_with_base _ _ _ hot_temp hot_temp);
      auto using first_pixel_hot.
    + intros i Hi. apply (Hcold 1%nat 767%nat i Hi). lia.
    + apply Hseq. lia.
  - replace 768%nat with (S k + (1 + (767 - S k)))%nat by lia.
    rewrite seq_app, scan_with_app.
    set (before := scan_with (one_hot_temps (S k)) (seq 0 (S k)) scan_init).
    assert (Hbefore : stats before base_temp base_temp (Some (0, 0)) false).
    { unfold before.
      change (seq 0 (S k)) with ([0%nat] ++ seq 1 k). rewrite scan_with_app.
      change (scan_with (one_hot_temps (S k)) [0%nat] scan_init)
        with (track scan_init 0 base_temp).
      destruct k as [| k'].
      - exact first_pixel_base.
      - apply (scan_with_base _ _ _ base_temp base_temp);
          auto using first_pixel_base.
        + intros i Hi. apply (Hcold 1%nat (S k') i Hi). lia.
        + apply Hseq. lia. }
    change (seq (0 + S k) (1 + (767 - S k)))
      with ([S k] ++ seq (S (S k)) (767 - S k)).
    rewrite scan_with_app.
    set (at_hot := scan_with (one_hot_temps (S k)) [S k] before).
    assert (Hat : stats at_hot base_temp hot_temp
                        (Some (Z.of_nat (S k) mod SENSOR_WIDTH,
                               Z.of_nat (S k) / SENSOR_WIDTH))
                        true).
    { unfold at_hot. cbn [scan_with fold_left]. unfold one_hot_temps at 1.
      rewrite Nat.eqb_refl. apply (track_hot _ _ _ Hbefore). }
    destruct (767 - S k)%nat as [| rest] eqn:Hrest.
    + exact Hat.
    + apply (scan_with_base _ _ _ base_temp hot_temp); auto.
      * intros i Hi. apply (Hcold _ _ i Hi). lia.
      * apply Hseq. lia.
Qed.

Lemma in_count_up (n : nat) (z r : Z) :
  z <= r < z + Z.of_nat n -> In r (count_up n z).
Proof.
  revert z. induction n as [| n IH]; intros z Hr; [lia |].
  cbn [count_up]. destruct (Z.eq_dec z r) as [-> | Hne].
  - left. reflexivity.
  - right. apply IH. lia.
Qed.

(** The scaled coordinates are five times the cell's. *)
Lemma scaled_coordinates (x y : Z) :
  0 <= x < 32 -> 0 <= y < 24 ->
  scaled_x x = x * LCD_W / SENSOR_WIDTH
  /\ scaled_y y = y * LCD_H / SENSOR_HEIGHT.
Proof.
  intros Hx Hy.
  assert (Hxs : forallb (fun x => scaled_x x =? x * LCD_W / SENSOR_WIDTH)
                        (count_up 32 0) = true) by (vm_compute; reflexivity).
  assert (Hys : forallb (fun y => scaled_y y =? y * LCD_H / SENSOR_HEIGHT)
                        (count_up 24 0) = true) by (vm_compute; reflexivity).
  rewrite forallb_forall in Hxs, Hys. split; apply Z.eqb_eq.
  - apply Hxs, in_count_up. lia.
  - apply Hys, in_count_up. lia.
Qed.

Lemma scenario_A_holds (hot : nat) :
  (hot < 768)%nat ->
  let st := scan_with (one_hot_temps hot) (range 768) scan_init in
  let x := Z.of_nat hot mod SENSOR_WIDTH in
  let y := Z.of_nat hot / SENSOR_WIDTH in
  let px := x * LCD_W / SENSOR_WIDTH in
  let py := y * LCD_H / SENSOR_HEIGHT in
  person_detected st = true
  /\ max_pos st = Some (x, y)
  /\ hottest_overlay (max_pos st) (widen st)
     = [DrawRectangle (px - 4) (py - 4) 22 22 magenta true;
        DrawString (px + 2) (py - 20) "35.0°C" white 2].
Proof.
  intros Hhot st x y px py.
  destruct (scan_scenario_A hot Hhot) as (Hlo & Hhi & Hpos & Hdet).
  fold st in Hlo, Hhi, Hpos, Hdet. fold x y in Hpos.
  split; [exact Hdet |]. split; [exact Hpos |].
  assert (Hx : 0 <= x < 32)
    by (unfold x, SENSOR_WIDTH; apply Z.mod_pos_bound; lia).
  assert (Hy : 0 <= y < 24).
  { unfold y, SENSOR_WIDTH. split.
    - apply Z.div_pos; lia.
    - apply Z.div_lt_upper_bound; lia. }
  destruct (scaled_coordinates x y Hx Hy) as [Hsx Hsy].
  assert (Hw : widen st = hot_temp).
  { unfold widen. rewrite Hhi, Hlo.
    change (Qeq_bool hot_temp base_temp) with false. reflexivity. }
  rewrite Hpos, Hw. unfold hottest_overlay.
  rewrite Hsx, Hsy. fold px py.
  change (degrees 1 hot_temp) with "35.0°C"%string. reflexivity.
Qed.

Lemma in_build_image_overlay (st : scan_state) (fps : Q) (op : img_op) :
  In op (hottest_overlay (max_pos st) (widen st)) ->
  In op (build_image st fps).
Proof.
  intros Hin. unfold build_image.
  apply in_or_app. right. apply in_or_app. right.
  apply in_or_app. right. apply in_or_app. right.
  apply in_or_app. left. exact Hin.
Qed.

(** C8, as the code has it.  A valid frame whose pixels are all 25.00
    degrees but one at 35.00, at index [hot]: the cycle detects a
    person, records the hot pixel's cell [(x, y)] as the hottest
    position, and draws its marker and the label "35.0°C" from the
    linearly scaled coordinate [(px, py) = (x * 160 / 32, y * 120 / 24)]:
    the marker's corner at [(px - 4, py - 4)], the label's origin at
    [(px + 2, py - 20)]. *)
Theorem single_hot_pixel (hot : nat) (declared : Z) (aux : list byte)
        (last : Z) (env : cycle_env) :
  (hot < 768)%nat ->
  List.length aux = 2%nat ->
  0 < any_pending env ->
  read_frame env = Some (encode_frame declared (one_hot_pixel hot) aux) ->
  let x := Z.of_nat hot mod SENSOR_WIDTH in
  let y := Z.of_nat hot / SENSOR_WIDTH in
  let px := x * LCD_W / SENSOR_WIDTH in
  let py := y * LCD_H / SENSOR_HEIGHT in
  exists st,
    ended (cycle last env) = Displayed st
    /\ person_detected st = true
    /\ max_pos st = Some (x, y)
    /\ In (DrawRectangle (px - 4) (py - 4) 22 22 magenta true)
          (displayed_image (cycle last env))
    /\ In (DrawString (px + 2) (py - 20) "35.0°C" white 2)
          (displayed_image (cycle last env)).
Proof.
  intros Hhot Haux Hany Hread x y px py.
  set (frame := encode_frame declared (one_hot_pixel hot) aux) in *.
  assert (Hlen : List.length frame = FRAME_LEN)
    by (apply encode_frame_length; [apply one_hot_pixel_length | exact Haux]).
  assert (Hacc : validate frame = Accepted)
    by (apply encode_frame_accepted; [apply one_hot_pixel_length | exact Haux]).
  pose proof (cycle_accepted last env frame Hany Hread Hlen Hacc) as Hcyc.
  assert (Hend : ended (cycle last env) = Displayed (scan frame))
    by (rewrite Hcyc; reflexivity).
  exists (scan frame). split; [exact Hend |].
  rewrite (displayed_image_cycle last env _ Hend).
  destruct (scenario_A_holds hot Hhot) as (Hdet & Hpos & Hov).
  unfold frame. rewrite scan_one_hot_pixel.
  split; [exact Hdet |]. split; [exact Hpos |].
  split; apply in_build_image_overlay; rewrite Hov.
  - left. reflexivity.
  - right. left. reflexivity.
Qed.

Lemma single_hot_pixel_witness :
  (70 < 768)%nat
  /\ List.length [Byte.x00; Byte.x00] = 2%nat
  /\ 0 < any_pending (sample_env 70 1000)
  /\ read_frame (sample_env 70 1000)
     = Some (encode_frame 0 (one_hot_pixel 70) [Byte.x00; Byte.x00])
  /\ exists st,
       ended (cycle 0 (sample_env 70 1000)) = Displayed st
       /\ person_detected st = true
       /\ max_pos st = Some (6, 2)
       /\ In (DrawRectangle 26 6 22 22 magenta true)
             (displayed_image (cycle 0 (sample_env 70 1000)))
       /\ In (DrawString 32 (-10) "35.0°C" white 2)
             (displayed_image (cycle 0 (sample_env 70 1000))).
Proof.
  assert (Hhot : (70 < 768)%nat) by lia.
  assert (Hany : 0 < any_pending (sample_env 70 1000))
    by (vm_compute; reflexivity).
  split; [exact Hhot |]. split; [reflexivity |]. split; [exact Hany |].
  split; [reflexivity |].
  exact (single_hot_pixel 70 0 [Byte.x00; Byte.x00] 0 (sample_env 70 1000)
           Hhot eq_refl Hany eq_refl).
Defined.

(** C8 as worded fails at the label's place.  With the hot pixel at
    index 300, cell (12, 9), the scaled coordinate is (60, 45); the
    marker's corner is drawn at (56, 41) and the label "35.0°C" at
    (62, 25), and no label with that text is drawn at (60, 45). *)
Lemma label_not_at_scaled_coordinate :
  ended (cycle 0 (sample_env 300 1000)) = Displayed (scan (sample_frame 300))
  /\ person_detected (scan (sample_frame 300)) = true
  /\ max_pos (scan (sample_frame 300)) = Some (12, 9)
  /\ (12 * LCD_W / SENSOR_WIDTH = 60 /\ 9 * LCD_H / SENSOR_HEIGHT = 45)
  /\ skipn 770 (displayed_image (cycle 0 (sample_env 300 1000)))
     = [Resize 160 120; ToRainbow 1;
        DrawRectangle 78 80 22 22 magenta true;
        DrawString 84 80 "25.0°C" white 2;
        DrawRectangle 56 41 22 22 magenta true;
        DrawString 62 25 "35.0°C" white 2;
        DrawString 2 2 "10.0 FPS" white 2]
  /\ forall color scale,
       ~ In (DrawString 60 45 "35.0°C" color scale)
            (displayed_image (cycle 0 (sample_env 300 1000))).
Proof.
  split; [vm_compute; reflexivity |].
  split; [vm_compute; reflexivity |].
  split; [vm_compute; reflexivity |].
  split; [split; vm_compute; reflexivity |].
  split; [vm_compute; reflexivity |].
  intros color scale Hin.
  assert (Hall : forallb (no_label_at 60 45 "35.0°C")
                         (displayed_image (cycle 0 (sample_env 300 1000)))
                 = true) by (vm_compute; reflexivity).
  rewrite forallb_forall in Hall. apply Hall in Hin.
  vm_compute in Hin. discriminate.
Qed.

(** * Further properties *)

(** ** The scan *)

(** One pixel never raises the running minimum nor lowers the running
    maximum, as long as both lie between the limits. *)
Lemma track_monotone (st : scan_state) (idx : nat) (t : Q) :
  within_limits st ->
  (min_temp (track st idx t) <= min_temp st)%Q
  /\ (max_temp st <= max_temp (track st idx t))%Q.
Proof.
  intros [Hlo Hhi]. unfold track, py_max, py_min.
  change (inject_Z MIN_TEMP_LIMIT) with 0%Q in *.
  change (inject_Z MAX_TEMP_LIMIT) with 300%Q in *.
  destruct (Qltb t (min_temp st)) eqn:E1;
    destruct (Qltb (max_temp st) t) eqn:E2;
    destruct (Qltb t 0) eqn:E3;
    destruct (Qltb 300 t) eqn:E4; cbn [min_temp max_temp];
    rewrite ?Qltb_lt, ?Qltb_ge in *; split; lra.
Qed.

Lemma scan_with_monotone (tf : nat -> Q) (idxs : list nat) (st : scan_state) :
  within_limits st ->
  (min_temp (scan_with tf idxs st) <= min_temp st)%Q
  /\ (max_temp st <= max_temp (scan_with tf idxs st))%Q.
Proof.
  revert st. induction idxs as [|i idxs IH]; intros st H.
  - cbn. split; lra.
  - change (scan_with tf (i :: idxs) st)
      with (scan_with tf idxs (track st i (tf i))).
    destruct (track_monotone st i (tf i) H) as [H1 H2].
    destruct (IH _ (track_within_limits st i (tf i) H)) as [H3 H4].
    split; lra.
Qed.

Lemma scan_with_snoc (tf : nat -> Q) (n : nat) :
  scan_with tf (range (S n)) scan_init
  = track (scan_with tf (range n) scan_init) n (tf n).
Proof.
  unfold range. rewrite seq_S, scan_with_app. reflexivity.
Qed.

(** Without a sample above the upper limit, the scan keeps the first
    index at which the largest temperature occurs, provided one sample
    is above zero. *)
Lemma scan_with_first_max (tf : nat -> Q) (n : nat) :
  (forall i, (i < n)%nat -> tf i <= 300)%Q ->
  let st := scan_with tf (range n) scan_init in
  (max_pos st = None /\ max_temp st = inject_Z MIN_TEMP_LIMIT
   /\ forall i, (i < n)%nat -> (tf i <= 0)%Q)
  \/ exists k, (k < n)%nat
       /\ max_pos st = Some (Z.of_nat k mod SENSOR_WIDTH,
                             Z.of_nat k / SENSOR_WIDTH)
       /\ max_temp st = tf k /\ (0 < tf k)%Q
       /\ (forall i, (i < n)%nat -> tf i <= tf k)%Q
       /\ (forall i, (i < k)%nat -> tf i < tf k)%Q.
Proof.
  induction n as [|n IH]; intros Hle st.
  - left. repeat split. intros i Hi. lia.
  - subst st. rewrite scan_with_snoc.
    assert (Hn : (tf n <= 300)%Q) by (apply Hle; lia).
    specialize (IH (fun i Hi => Hle i (Nat.lt_lt_succ_r _ _ Hi))).
    cbv zeta in IH.
    set (st := scan_with tf (range n) scan_init) in *.
    unfold track.
    destruct (Qltb (max_temp st) (tf n)) eqn:E; cbn [max_pos max_temp].
    + right. exists n. apply Qltb_lt in E.
      assert (Hmin : py_min (tf n) (inject_Z MAX_TEMP_LIMIT) = tf n).
      { unfold py_min. change (inject_Z MAX_TEMP_LIMIT) with 300%Q.
        destruct (Qltb 300 (tf n)) eqn:E'; [|reflexivity].
        apply Qltb_lt in E'. lra. }
      rewrite Hmin.
      destruct IH as [(_ & Hm & Hall) | (k & Hk & _ & Hm & Hpos & Hall & _)];
        rewrite Hm in E.
      * change (inject_Z MIN_TEMP_LIMIT) with 0%Q in E.
        repeat split; try lia; try assumption.
        -- intros i Hi. destruct (Nat.eq_dec i n) as [->|]; [lra|].
           specialize (Hall i ltac:(lia)). lra.
        -- intros i Hi. specialize (Hall i Hi). lra.
      * repeat split; try lia; try lra.
        -- intros i Hi. destruct (Nat.eq_dec i n) as [->|]; [lra|].
           specialize (Hall i ltac:(lia)). lra.
        -- intros i Hi. specialize (Hall i Hi). lra.
    + apply Qltb_ge in E.
      destruct IH as [(Hp & Hm & Hall) | (k & Hk & Hp & Hm & Hpos & Hall & Hfirst)].
      * left. repeat split; try assumption.
        intros i Hi. destruct (Nat.eq_dec i n) as [->|].
        -- rewrite Hm in E. exact E.
        -- apply Hall. lia.
      * right. exists k. rewrite Hm in E.
        repeat split; try assumption; try lia.
        intros i Hi. destruct (Nat.eq_dec i n) as [->|]; [exact E|].
        apply Hall. lia.
Qed.

(** Once a sample above the upper limit has been seen, the maximum is
    the limit itself and the position is that of the latest such
    sample. *)
Lemma scan_with_last_over_limit (tf : nat -> Q) (n : nat) :
  let st := scan_with tf (range n) scan_init in
  within_limits st
  /\ ((forall i, (i < n)%nat -> tf i <= 300)%Q
      \/ exists k, (k < n)%nat /\ (300 < tf k)%Q
           /\ (forall i, (k < i < n)%nat -> tf i <= 300)%Q
           /\ max_pos st = Some (Z.of_nat k mod SENSOR_WIDTH,
                                 Z.of_nat k / SENSOR_WIDTH)
           /\ max_temp st = inject_Z MAX_TEMP_LIMIT).
Proof.
  induction n as [|n IH]; intros st.
  - split; [apply scan_init_within_limits|]. left. intros i Hi. lia.
  - subst st. rewrite scan_with_snoc. cbv zeta in IH.
    set (st := scan_with tf (range n) scan_init) in *.
    destruct IH as [Hlim IH].
    split; [apply track_within_limits; exact Hlim|].
    destruct Hlim as [_ Hhi].
    change (inject_Z MAX_TEMP_LIMIT) with 300%Q in *.
    destruct (Qlt_le_dec 300 (tf n)) as [Hover|Hfine].
    + right. exists n.
      assert (E : Qltb (max_temp st) (tf n) = true) by (apply Qltb_lt; lra).
      assert (E' : Qltb 300 (tf n) = true) by (apply Qltb_lt; exact Hover).
      unfold track, py_min. change (inject_Z MAX_TEMP_LIMIT) with 300%Q.
      rewrite E, E'. cbn [max_pos max_temp].
      repeat split; try lia; try assumption.
    + destruct IH as [Hall | (k & Hk & Hov & Hlater & Hp & Hm)].
      * left. intros i Hi. destruct (Nat.eq_dec i n) as [->|]; [exact Hfine|].
        apply Hall. lia.
      * right. exists k.
        assert (E : Qltb (max_temp st) (tf n) = false).
        { apply Qltb_ge. rewrite Hm. exact Hfine. }
        unfold track. rewrite E. cbn [max_pos max_temp].
        repeat split; try assumption; try lia.
        intros i Hi. destruct (Nat.eq_dec i n) as [->|]; [exact Hfine|].
        apply Hlater. lia.
Qed.

(** The running minimum is either still the upper limit or one of the
    samples seen, and no sample seen lies below it. *)
Lemma scan_with_min_attained (tf : nat -> Q) (idxs : list nat)
      (st : scan_state) :
  (forall i, 0 <= tf i)%Q ->
  min_temp st = inject_Z MAX_TEMP_LIMIT \/ In (min_temp st) (temps st) ->
  min_temp (scan_with tf idxs st) = inject_Z MAX_TEMP_LIMIT
  \/ In (min_temp (scan_with tf idxs st)) (temps (scan_with tf idxs st)).
Proof.
  intros Hpos. revert st. induction idxs as [|i idxs IH]; intros st H.
  - exact H.
  - change (scan_with tf (i :: idxs) st)
      with (scan_with tf idxs (track st i (tf i))).
    apply IH. rewrite temps_track.
    assert (Hm : min_temp (track st i (tf i))
                 = if Qltb (tf i) (min_temp st)
                   then py_max (tf i) (inject_Z MIN_TEMP_LIMIT)
                   else min_temp st).
    { unfold track. destruct (Qltb (max_temp st) (tf i)); reflexivity. }
    rewrite Hm. destruct (Qltb (tf i) (min_temp st)).
    + right. apply in_or_app. right. left.
      unfold py_max. change (inject_Z MIN_TEMP_LIMIT) with 0%Q.
      destruct (Qltb (tf i) 0) eqn:E; [|reflexivity].
      apply Qltb_lt in E. specialize (Hpos i). lra.
    + destruct H as [H|H]; [left; exact H|].
      right. apply in_or_app. left. exact H.
Qed.

Lemma slice_pair (frame : list byte) (a : nat) :
  (S a < List.length frame)%nat ->
  slice frame a (a + 2)
  = [nth a frame Byte.x00; nth (S a) frame Byte.x00].
Proof.
  unfold slice. replace (a + 2 - a)%nat with 2%nat by lia.
  revert frame. induction a as [|a IH]; intros frame H.
  - destruct frame as [|b0 [|b1 rest]]; cbn in H; try lia. reflexivity.
  - destruct frame as [|b0 rest]; cbn in H; [lia|].
    cbn [skipn]. rewrite IH by lia. reflexivity.
Qed.

Lemma le_combine_pair (b0 b1 : byte) :
  le_combine [b0; b1] = byte.unsigned b0 + 256 * byte.unsigned b1.
Proof.
  change (le_combine [b0; b1])
    with (Z.lor (byte.unsigned b0)
                (Z.shiftl (Z.lor (byte.unsigned b1) (Z.shiftl 0 8)) 8)).
  rewrite Z.shiftl_0_l, Z.lor_0_r, Z.lor_comm.
  apply lor_shift_byte. apply byte.unsigned_range.
Qed.

(** Sample [idx] is decoded from the bytes [4 + 2 idx] (low) and
    [5 + 2 idx] (high): the little-endian word [idx + 2]. *)
Lemma pixel_temp_word (frame : list byte) (idx : nat) :
  (5 + 2 * idx < List.length frame)%nat ->
  pixel_temp frame idx = fdiv (inject_Z (le_word frame (idx + 2))) 100.
Proof.
  intros H. unfold pixel_temp, temp_of_raw, from_bytes_little.
  rewrite slice_pair by lia. rewrite le_combine_pair.
  unfold le_word, byte_at.
  replace (2 * (idx + 2))%nat with (4 + idx * 2)%nat by lia.
  replace (4 + idx * 2 + 1)%nat with (S (4 + idx * 2)) by lia.
  reflexivity.
Qed.

Lemma fdiv_100_bounds (r : Z) :
  0 <= r < 2 ^ 16 ->
  (0 <= fdiv (inject_Z r) 100 < 656)%Q.
Proof.
  intros Hr. unfold fdiv.
  assert (H0 : (0 <= inject_Z r / 100)%Q).
  { apply Qle_shift_div_l; [reflexivity|]. rewrite Qmult_0_l.
    change 0%Q with (inject_Z 0). rewrite <- Zle_Qle. lia. }
  split; [apply b64_nonneg; exact H0|].
  assert (Hb : (b64 (65535 / 100) < 656)%Q) by reflexivity.
  eapply Qle_lt_trans; [|exact Hb].
  apply b64_mono; [exact H0|].
  apply Qle_shift_div_l; [reflexivity|].
  unfold Qdiv. rewrite <- Qmult_assoc.
  setoid_replace (/ 100 * 100)%Q with 1%Q by reflexivity.
  rewrite Qmult_1_r.
  change 65535%Q with (inject_Z 65535). rewrite <- Zle_Qle. lia.
Qed.

Lemma pixel_temp_sample_frame (hot i : nat) :
  (i < 768)%nat -> pixel_temp (sample_frame hot) i = one_hot_temps hot i.
Proof.
  intros Hi. unfold sample_frame.
  assert (Hv : nth i (one_hot_pixel hot) 0
               = if (i =? hot)%nat then 3500 else 2500)
    by (apply nth_one_hot_pixel; lia).
  rewrite pixel_temp_encode_frame.
  - rewrite Hv. unfold one_hot_temps.
    destruct (i =? hot)%nat; reflexivity.
  - rewrite one_hot_pixel_length. lia.
  - rewrite Hv. change (2 ^ 16) with 65536.
    destruct (i =? hot)%nat; lia.
Qed.

Lemma one_hot_temps_bounds (hot i : nat) :
  (0 < one_hot_temps hot i)%Q /\ (one_hot_temps hot i <= 300)%Q.
Proof.
  unfold one_hot_temps. destruct (i =? hot)%nat; split;
    vm_compute; congruence.
Qed.

Lemma length_temps_scan (frame : list byte) :
  List.length (temps (scan frame)) = 768%nat.
Proof. rewrite temps_scan, length_map. apply length_seq. Qed.

(** X1.  Lines 85-88: from a frame of 1544 bytes the scan stores exactly
    768 temperatures; sample [idx] is the little-endian word of bytes
    [4 + 2 idx] (low) and [5 + 2 idx] (high) divided by 100.0, and lies
    in [0, 656). *)
Theorem decoded_grid (frame : list byte) :
  List.length frame = FRAME_LEN ->
  List.length (temps (scan frame)) = 768%nat
  /\ forall idx, (idx < 768)%nat ->
       nth idx (temps (scan frame)) 0%Q
       = fdiv (inject_Z (byte_at frame (4 + 2 * idx)
                         + 256 * byte_at frame (5 + 2 * idx))) 100
       /\ (0 <= nth idx (temps (scan frame)) 0 < 656)%Q.
Proof.
  intros Hlen. split; [apply length_temps_scan|].
  intros idx Hidx. rewrite nth_temps_scan by exact Hidx.
  unfold FRAME_LEN in Hlen.
  rewrite pixel_temp_word by lia.
  assert (Hw : le_word frame (idx + 2)
               = byte_at frame (4 + 2 * idx)
                 + 256 * byte_at frame (5 + 2 * idx)).
  { unfold le_word. f_equal; [|f_equal]; f_equal; lia. }
  rewrite <- Hw. split; [reflexivity|].
  apply fdiv_100_bounds. apply le_word_range.
Qed.

Lemma decoded_grid_witness :
  List.length (sample_frame 70) = FRAME_LEN
  /\ List.length (temps (scan (sample_frame 70))) = 768%nat.
Proof.
  split; [reflexivity|].
  exact (proj1 (decoded_grid (sample_frame 70) eq_refl)).
Defined.

(** X2.  Lines 90-94: while the scan runs, the running minimum never
    rises and the running maximum never falls: after [m] samples the
    minimum is at or below, and the maximum at or above, what they were
    after [n <= m] samples.  After all 768 samples the state is that of
    [scan]. *)
Theorem running_extremes_monotone (frame : list byte) (n m : nat) :
  (n <= m)%nat ->
  let seen k := scan_with (pixel_temp frame) (range k) scan_init in
  (min_temp (seen m) <= min_temp (seen n))%Q
  /\ (max_temp (seen n) <= max_temp (seen m))%Q
  /\ seen 768%nat = scan frame.
Proof.
  intros Hnm seen. subst seen. cbv beta.
  split; [|split; [|symmetry; apply scan_unfold]].
  all: replace m with (n + (m - n))%nat by lia;
    unfold range; rewrite seq_app, scan_with_app;
    apply scan_with_monotone, scan_with_within_limits,
      scan_init_within_limits.
Qed.

Lemma running_extremes_monotone_witness :
  (10 <= 700)%nat
  /\ (min_temp (scan_with (pixel_temp (sample_frame 70)) (range 700) scan_init)
      <= min_temp (scan_with (pixel_temp (sample_frame 70)) (range 10)
                             scan_init))%Q.
Proof.
  split; [lia|].
  exact (proj1 (running_extremes_monotone (sample_frame 70) 10 700
                  ltac:(lia))).
Defined.

(** X3.  Lines 91-92: after the scan [min_temp] is at or below every
    stored temperature and at most 300, and it is either still the
    initial 300 or one of the stored temperatures: the least sample,
    capped at 300. *)
Theorem minimum_is_least_sample (frame : list byte) :
  let st := scan frame in
  Forall (fun t => (min_temp st <= t)%Q) (temps st)
  /\ (min_temp st <= inject_Z MAX_TEMP_LIMIT)%Q
  /\ (min_temp st = inject_Z MAX_TEMP_LIMIT \/ In (min_temp st) (temps st)).
Proof.
  cbv zeta. destruct (scan_sound_ordered frame) as [(Hmin & _ & Hall) _].
  split; [exact Hall|]. split; [apply Hmin|].
  rewrite scan_unfold. apply scan_with_min_attained.
  - apply pixel_temp_nonneg.
  - left. reflexivity.
Qed.

(** X4.  Lines 93-95: if no sample is above 300 and one is above zero,
    [max_temp] is the largest stored temperature and [max_pos] is the
    column and row of the first sample that attains it. *)
Theorem hottest_is_first_maximum (frame : list byte) :
  let st := scan frame in
  let t i := nth i (temps st) 0%Q in
  (forall i, (i < 768)%nat -> t i <= 300)%Q ->
  (exists i, (i < 768)%nat /\ 0 < t i)%Q ->
  exists k, (k < 768)%nat
    /\ max_pos st = Some (Z.of_nat k mod SENSOR_WIDTH,
                          Z.of_nat k / SENSOR_WIDTH)
    /\ max_temp st = t k
    /\ (forall i, (i < 768)%nat -> t i <= t k)%Q
    /\ (forall i, (i < k)%nat -> t i < t k)%Q.
Proof.
  cbv beta zeta. intros Hle (i0 & Hi0 & Hpos).
  assert (Ht : forall i, (i < 768)%nat ->
                 nth i (temps (scan frame)) 0%Q = pixel_temp frame i)
    by (intros; apply nth_temps_scan; assumption).
  destruct (scan_with_first_max (pixel_temp frame) 768) as
    [(_ & _ & Hall) | (k & Hk & Hp & Hm & _ & Hall & Hfirst)].
  - intros i Hi. rewrite <- Ht by exact Hi. apply Hle, Hi.
  - specialize (Hall i0 Hi0). rewrite Ht in Hpos by exact Hi0. lra.
  - exists k. rewrite scan_unfold in *. rewrite (Ht k Hk).
    split; [exact Hk|]. split; [exact Hp|]. split; [exact Hm|]. split.
    + intros i Hi. rewrite (Ht i Hi). apply Hall, Hi.
    + intros i Hi. rewrite (Ht i) by lia. apply Hfirst, Hi.
Qed.

Lemma nth_temps_sample_frame (hot i : nat) :
  (i < 768)%nat ->
  nth i (temps (scan (sample_frame hot))) 0%Q = one_hot_temps hot i.
Proof.
  intros Hi. rewrite nth_temps_scan by exact Hi.
  apply pixel_temp_sample_frame, Hi.
Qed.

Lemma hottest_is_first_maximum_witness :
  (forall i, (i < 768)%nat ->
             nth i (temps (scan (sample_frame 70))) 0 <= 300)%Q
  /\ (exists i, (i < 768)%nat
                /\ 0 < nth i (temps (scan (sample_frame 70))) 0)%Q
  /\ exists k, (k < 768)%nat
       /\ max_pos (scan (sample_frame 70))
          = Some (Z.of_nat k mod SENSOR_WIDTH, Z.of_nat k / SENSOR_WIDTH)
       /\ max_temp (scan (sample_frame 70))
          = nth k (temps (scan (sample_frame 70))) 0%Q.
Proof.
  assert (H1 : forall i, (i < 768)%nat ->
                 (nth i (temps (scan (sample_frame 70))) 0 <= 300)%Q).
  { intros i Hi. rewrite nth_temps_sample_frame by exact Hi.
    apply one_hot_temps_bounds. }
  assert (H2 : exists i, (i < 768)%nat
                 /\ (0 < nth i (temps (scan (sample_frame 70))) 0)%Q).
  { exists 0%nat. split; [lia|].
    rewrite nth_temps_sample_frame by lia. apply one_hot_temps_bounds. }
  split; [exact H1|]. split; [exact H2|].
  destruct (hottest_is_first_maximum (sample_frame 70) H1 H2)
    as (k & Hk & Hp & Hm & _).
  exists k. split; [exact Hk|]. split; [exact Hp|]. exact Hm.
Defined.

(** X5.  Lines 93-95: if sample [k] is above 300 and no later sample
    is, [max_temp] is exactly 300 and [max_pos] is the position of [k]:
    the last sample above the limit, whether or not an earlier one is
    hotter. *)
Theorem hottest_is_last_over_limit (frame : list byte) (k : nat) :
  let st := scan frame in
  let t i := nth i (temps st) 0%Q in
  (k < 768)%nat ->
  (300 < t k)%Q ->
  (forall i, (k < i < 768)%nat -> t i <= 300)%Q ->
  max_pos st = Some (Z.of_nat k mod SENSOR_WIDTH, Z.of_nat k / SENSOR_WIDTH)
  /\ max_temp st = inject_Z MAX_TEMP_LIMIT.
Proof.
  cbv beta zeta. intros Hk Hover Hlater.
  assert (Ht : forall i, (i < 768)%nat ->
                 nth i (temps (scan frame)) 0%Q = pixel_temp frame i)
    by (intros; apply nth_temps_scan; assumption).
  rewrite Ht in Hover by exact Hk.
  destruct (scan_with_last_over_limit (pixel_temp frame) 768) as
    [_ [Hall | (j & Hj & Hov & Hlat & Hp & Hm)]].
  - specialize (Hall k Hk). lra.
  - rewrite scan_unfold.
    assert (j = k) as ->.
    { destruct (Nat.lt_trichotomy j k) as [Hlt | [Heq | Hgt]].
      - specialize (Hlat k ltac:(lia)). lra.
      - exact Heq.
      - specialize (Hlater j ltac:(lia)). rewrite Ht in Hlater by exact Hj.
        lra. }
    split; [exact Hp | exact Hm].
Qed.

Lemma nth_temps_overheated (i : nat) :
  (i < 768)%nat ->
  nth i (temps (scan overheated_frame)) 0%Q = fdiv (inject_Z 40000) 100.
Proof.
  intros Hi. rewrite nth_temps_scan by exact Hi. unfold overheated_frame.
  assert (Hn : nth i (repeat 40000 768) 0 = 40000).
  { apply nth_repeat_lt. exact Hi. }
  rewrite pixel_temp_encode_frame.
  - rewrite Hn. reflexivity.
  - rewrite repeat_length. exact Hi.
  - rewrite Hn. change (2 ^ 16) with 65536. lia.
Qed.

Lemma hottest_is_last_over_limit_witness :
  (767 < 768)%nat
  /\ (300 < nth 767 (temps (scan overheated_frame)) 0)%Q
  /\ (forall i, (767 < i < 768)%nat ->
                nth i (temps (scan overheated_frame)) 0 <= 300)%Q
  /\ max_pos (scan overheated_frame) = Some (31, 23)
  /\ max_temp (scan overheated_frame) = inject_Z MAX_TEMP_LIMIT.
Proof.
  assert (H1 : (300 < nth 767 (temps (scan overheated_frame)) 0)%Q).
  { rewrite nth_temps_overheated by lia. reflexivity. }
  assert (H2 : forall i, (767 < i < 768)%nat ->
                 (nth i (temps (scan overheated_frame)) 0 <= 300)%Q)
    by (intros i Hi; lia).
  split; [lia|]. split; [exact H1|]. split; [exact H2|].
  exact (hottest_is_last_over_limit overheated_frame 767 ltac:(lia) H1 H2).
Defined.

(** The position stays unset exactly as long as no sample is above
    zero, and the maximum stays at its initial value with it; once set,
    the position is the row-major position of a sample above zero. *)
Lemma scan_with_position (tf : nat -> Q) (n : nat) :
  let st := scan_with tf (range n) scan_init in
  (max_pos st = None /\ max_temp st = inject_Z MIN_TEMP_LIMIT
   /\ forall i, (i < n)%nat -> (tf i <= 0)%Q)
  \/ exists k, (k < n)%nat /\ (0 < tf k)%Q
       /\ max_pos st = Some (Z.of_nat k mod SENSOR_WIDTH,
                             Z.of_nat k / SENSOR_WIDTH).
Proof.
  induction n as [|n IH]; intros st.
  - left. split; [reflexivity|]. split; [reflexivity|].
    intros i Hi. lia.
  - subst st. rewrite scan_with_snoc. cbv zeta in IH.
    set (st := scan_with tf (range n) scan_init) in *.
    unfold track.
    destruct (Qltb (max_temp st) (tf n)) eqn:E; cbn [max_pos max_temp].
    + apply Qltb_lt in E. right. exists n.
      split; [lia|]. split; [|reflexivity].
      destruct IH as [(_ & Hm & _) | (k & Hk & Hpos & Hp)].
      * rewrite Hm in E. exact E.
      * assert (H0 : (0 <= max_temp st)%Q); [|lra].
        destruct (scan_with_monotone tf (range n) scan_init
                    scan_init_within_limits) as [_ H].
        exact H.
    + apply Qltb_ge in E.
      destruct IH as [(Hp & Hm & Hall) | (k & Hk & Hpos & Hp)].
      * left. split; [exact Hp|]. split; [exact Hm|]. intros i Hi.
        destruct (Nat.eq_dec i n) as [->|]; [|apply Hall; lia].
        rewrite Hm in E. exact E.
      * right. exists k. split; [lia|]. split; [exact Hpos | exact Hp].
Qed.

(** X6.  Lines 82, 93-95 and 139: the marker of the hottest cell is
    left out exactly when every sample decodes to zero. *)
Theorem no_marker_iff_all_zero (frame : list byte) :
  let st := scan frame in
  hottest_overlay (max_pos st) (widen st) = []
  <-> forall i, (i < 768)%nat -> (nth i (temps st) 0 == 0)%Q.
Proof.
  cbv zeta.
  assert (Ht : forall i, (i < 768)%nat ->
                 nth i (temps (scan frame)) 0%Q = pixel_temp frame i)
    by (intros; apply nth_temps_scan; assumption).
  pose proof (scan_with_position (pixel_temp frame) 768) as H.
  cbv zeta in H. rewrite <- scan_unfold in H.
  destruct H as [(Hp & _ & Hall) | (k & Hk & Hpos & Hp)]; rewrite Hp.
  - split; [|reflexivity]. intros _ i Hi. rewrite (Ht i Hi).
    pose proof (pixel_temp_nonneg frame i). specialize (Hall i Hi). lra.
  - split; [discriminate|]. intros Hzero.
    specialize (Hzero k Hk). rewrite (Ht k Hk) in Hzero. lra.
Qed.

(** X7.  Lines 95 and 139-145: a position the scan leaves is a cell of
    the grid, column below 32 and row below 24, that holds a sample
    above zero; its marker is drawn at five times the coordinates, the
    rectangle at [(5x - 4, 5y - 4)] and the label at
    [(5x + 2, 5y - 20)]. *)
Theorem hottest_marker_on_grid (frame : list byte) (x y : Z) :
  let st := scan frame in
  max_pos st = Some (x, y) ->
  0 <= x < 32 /\ 0 <= y < 24
  /\ (0 < nth (Z.to_nat (y * 32 + x)) (temps st) 0)%Q
  /\ hottest_overlay (max_pos st) (widen st)
     = [DrawRectangle (5 * x - 4) (5 * y - 4) 22 22 magenta true;
        DrawString (5 * x + 2) (5 * y - 20) (degrees 1 (widen st)) white 2].
Proof.
  cbv zeta. intros Hxy.
  pose proof (scan_with_position (pixel_temp frame) 768) as H.
  cbv zeta in H. rewrite <- scan_unfold in H.
  destruct H as [(Hp & _) | (k & Hk & Hpos & Hp)]; [congruence|].
  rewrite Hp in Hxy. injection Hxy as Hx Hy.
  assert (Hxr : 0 <= x < 32)
    by (subst x; unfold SENSOR_WIDTH; apply Z.mod_pos_bound; lia).
  assert (Hyr : 0 <= y < 24).
  { subst y. unfold SENSOR_WIDTH. split; [apply Z.div_pos; lia|].
    apply Z.div_lt_upper_bound; lia. }
  assert (Hk' : Z.to_nat (y * 32 + x) = k).
  { subst x y. unfold SENSOR_WIDTH.
    rewrite Z.mul_comm, <- Z.div_mod by lia. apply Nat2Z.id. }
  split; [exact Hxr|]. split; [exact Hyr|]. split.
  - rewrite Hk', nth_temps_scan by exact Hk. exact Hpos.
  - rewrite Hp, Hx, Hy. unfold hottest_overlay.
    destruct (scaled_coordinates x y Hxr Hyr) as [-> ->].
    unfold LCD_W, LCD_H, SENSOR_WIDTH, SENSOR_HEIGHT.
    replace (x * 160 / 32) with (5 * x)
      by (apply Z.div_unique_exact; lia).
    replace (y * 120 / 24) with (5 * y)
      by (apply Z.div_unique_exact; lia).
    reflexivity.
Qed.

Lemma scan_sample_frame (hot : nat) :
  (hot < 768)%nat ->
  stats (scan (sample_frame hot)) base_temp hot_temp
        (Some (Z.of_nat hot mod SENSOR_WIDTH, Z.of_nat hot / SENSOR_WIDTH))
        true.
Proof.
  intros H. unfold sample_frame. rewrite scan_one_hot_pixel.
  apply scan_scenario_A, H.
Qed.

Lemma hottest_marker_on_grid_witness :
  max_pos (scan (sample_frame 70)) = Some (6, 2)
  /\ hottest_overlay (max_pos (scan (sample_frame 70)))
                     (widen (scan (sample_frame 70)))
     = [DrawRectangle 26 6 22 22 magenta true;
        DrawString 32 (-10) (degrees 1 (widen (scan (sample_frame 70))))
                   white 2].
Proof.
  assert (H : max_pos (scan (sample_frame 70)) = Some (6, 2))
    by (apply (scan_sample_frame 70); lia).
  split; [exact H|].
  exact (proj2 (proj2 (proj2 (hottest_marker_on_grid (sample_frame 70) 6 2 H)))).
Defined.

(** Detection and the running maximum tell the same: something was
    detected exactly when the maximum is above the threshold. *)
Lemma track_detected_iff (st : scan_state) (idx : nat) (t : Q) :
  within_limits st ->
  (person_detected st = true
   <-> (inject_Z PERSON_TEMP_THRESHOLD < max_temp st)%Q) ->
  person_detected (track st idx t) = true
  <-> (inject_Z PERSON_TEMP_THRESHOLD < max_temp (track st idx t))%Q.
Proof.
  intros [_ Hhi] Hiff. unfold track, py_min.
  change (inject_Z MAX_TEMP_LIMIT) with 300%Q in *.
  change (inject_Z PERSON_TEMP_THRESHOLD) with 30%Q in *.
  destruct (Qltb (max_temp st) t) eqn:E;
    cbn [person_detected max_temp]; [|exact Hiff].
  apply Qltb_lt in E.
  destruct (Qltb 30 t) eqn:E1; destruct (Qltb 300 t) eqn:E2;
    rewrite ?Qltb_lt, ?Qltb_ge in *.
  - split; [reflexivity | reflexivity].
  - split; [intros _; exact E1 | reflexivity].
  - lra.
  - split; [intros Hd; apply Hiff in Hd; lra | lra].
Qed.

Lemma scan_with_detected_iff (tf : nat -> Q) (idxs : list nat)
      (st : scan_state) :
  within_limits st ->
  (person_detected st = true
   <-> (inject_Z PERSON_TEMP_THRESHOLD < max_temp st)%Q) ->
  person_detected (scan_with tf idxs st) = true
  <-> (inject_Z PERSON_TEMP_THRESHOLD < max_temp (scan_with tf idxs st))%Q.
Proof.
  revert st. induction idxs as [|i idxs IH]; intros st Hl H; [exact H|].
  change (scan_with tf (i :: idxs) st)
    with (scan_with tf idxs (track st i (tf i))).
  apply IH; [apply track_within_limits, Hl | apply track_detected_iff; assumption].
Qed.

(** X8.  Lines 93-98: after the scan, something was detected exactly
    when [max_temp] is above 30; and then the hottest cell has its
    marker. *)
Theorem detected_iff_maximum_over_threshold (frame : list byte) :
  let st := scan frame in
  (person_detected st = true
   <-> (inject_Z PERSON_TEMP_THRESHOLD < max_temp st)%Q)
  /\ (person_detected st = true ->
      hottest_overlay (max_pos st) (widen st) <> []).
Proof.
  cbv zeta.
  assert (Hiff : person_detected (scan frame) = true
                 <-> (inject_Z PERSON_TEMP_THRESHOLD < max_temp (scan frame))%Q).
  { rewrite scan_unfold. apply scan_with_detected_iff.
    - apply scan_init_within_limits.
    - cbn. split; discriminate. }
  split; [exact Hiff|]. intros Hd. apply Hiff in Hd.
  pose proof (scan_with_position (pixel_temp frame) 768) as H.
  cbv zeta in H. rewrite <- scan_unfold in H.
  destruct H as [(_ & Hm & _) | (k & _ & _ & Hp)].
  - rewrite Hm in Hd. discriminate Hd.
  - rewrite Hp. unfold hottest_overlay. discriminate.
Qed.

(** ** The checksum field *)

Lemma header_ok_app (body tail : list byte) :
  (2 <= List.length body)%nat ->
  header_ok (body ++ tail) <-> header_ok body.
Proof.
  intros H. unfold header_ok. rewrite !byte_at_app_l by lia. reflexivity.
Qed.

Lemma trailing_word_pair (body : list byte) (b0 b1 : byte) :
  List.length body = 1542%nat ->
  trailing_word (body ++ [b0; b1]) = le_combine [b0; b1].
Proof.
  intros H. unfold trailing_word, le_word.
  rewrite !byte_at_app_r by lia. rewrite H, le_combine_pair.
  reflexivity.
Qed.

(** X9.  Lines 60 and 68-75: for 1542 bytes that start with the two
    header flags, exactly one pair of closing bytes makes an accepted
    frame, the little-endian checksum of those 1542 bytes; with any
    other pair the frame is a checksum mismatch. *)
Theorem checksum_field_determined (body : list byte) (b0 b1 : byte) :
  List.length body = 1542%nat ->
  byte_at body 0 = START_FLAG -> byte_at body 1 = START_FLAG ->
  (validate (body ++ [b0; b1]) = Accepted
   <-> [b0; b1] = le_split 2 (compute_checksum body))
  /\ (validate (body ++ [b0; b1]) <> Accepted ->
      validate (body ++ [b0; b1]) = Rejected ChecksumMismatch).
Proof.
  intros Hlen H0 H1.
  assert (Hh : header_ok (body ++ [b0; b1]))
    by (apply header_ok_app; [lia | split; assumption]).
  destruct (validate_cases (body ++ [b0; b1])) as (_ & Hmis & Hacc).
  rewrite modular_sum16_app, trailing_word_pair in Hmis, Hacc by exact Hlen.
  rewrite compute_checksum_modular_sum16.
  split.
  - rewrite Hacc. split.
    + intros [_ Hs]. rewrite Hs. symmetry.
      exact (split_le_combine [b0; b1]).
    + intros Hs. split; [exact Hh|]. rewrite Hs.
      symmetry. apply le_combine_split_2, modular_sum16_range.
  - intros Hne. apply Hmis. split; [exact Hh|]. intros Hs.
    apply Hne, Hacc. split; assumption.
Qed.

Lemma checksum_field_determined_witness :
  let body := encode_body 0 (one_hot_pixel 0) [Byte.x00; Byte.x00] in
  List.length body = 1542%nat
  /\ byte_at body 0 = START_FLAG /\ byte_at body 1 = START_FLAG
  /\ (validate (body ++ [Byte.x00; Byte.x00]) = Accepted
      <-> [Byte.x00; Byte.x00] = le_split 2 (compute_checksum body)).
Proof.
  cbv zeta.
  split; [reflexivity|]. split; [reflexivity|]. split; [reflexivity|].
  exact (proj1 (checksum_field_determined
                  (encode_body 0 (one_hot_pixel 0) [Byte.x00; Byte.x00])
                  Byte.x00 Byte.x00 eq_refl eq_refl eq_refl)).
Defined.

Lemma modular_sum16_flip_tail (frame : list byte) (j : nat) (k : Z) :
  (1542 <= j)%nat ->
  modular_sum16 (flip_bit frame j k) = modular_sum16 frame.
Proof.
  intros Hj. unfold modular_sum16, word_sum. f_equal.
  apply sum_seq_ext. intros m Hm. apply le_word_flip_other.
  destruct (div2_cases j); lia.
Qed.

Lemma trailing_word_flip_tail (frame : list byte) (j : nat) (k : Z) :
  List.length frame = FRAME_LEN -> (1542 <= j < 1544)%nat -> 0 <= k < 8 ->
  trailing_word (flip_bit frame j k) <> trailing_word frame.
Proof.
  intros Hlen Hj Hk. unfold trailing_word.
  assert (Hd : Nat.div2 j = 771%nat) by (destruct (div2_cases j); lia).
  destruct (le_word_flip_same frame j k) as (e & He & Hw);
    [unfold FRAME_LEN in Hlen; lia | exact Hk |].
  rewrite Hd in Hw.
  assert (0 < 2 ^ e) by (apply Z.pow_pos_nonneg; lia).
  destruct Hw as [-> | ->]; lia.
Qed.

(** X10.  Lines 72-75: inverting one bit of the checksum field, bytes
    1542 and 1543, of an accepted frame gives a checksum mismatch. *)
Theorem checksum_field_flip_rejected (frame : list byte) (j : nat) (k : Z) :
  List.length frame = FRAME_LEN ->
  validate frame = Accepted ->
  (1542 <= j < 1544)%nat -> 0 <= k < 8 ->
  validate (flip_bit frame j k) = Rejected ChecksumMismatch.
Proof.
  intros Hlen Hacc Hj Hk.
  destruct (validate_cases frame) as (_ & _ & Ha).
  apply Ha in Hacc. destruct Hacc as [Hh Hs].
  apply (validate_cases (flip_bit frame j k)). split.
  - apply header_ok_flip; [lia | exact Hh].
  - rewrite modular_sum16_flip_tail by lia. rewrite Hs.
    intros Heq. symmetry in Heq. revert Heq.
    apply trailing_word_flip_tail; assumption.
Qed.

Lemma checksum_field_flip_rejected_witness :
  List.length (sample_frame 0) = FRAME_LEN
  /\ validate (sample_frame 0) = Accepted
  /\ (1542 <= 1543 < 1544)%nat /\ 0 <= 7 < 8
  /\ validate (flip_bit (sample_frame 0) 1543 7) = Rejected ChecksumMismatch.
Proof.
  assert (Ha : validate (sample_frame 0) = Accepted).
  { apply encode_frame_accepted; [apply one_hot_pixel_length | reflexivity]. }
  split; [reflexivity|]. split; [exact Ha|]. split; [lia|]. split; [lia|].
  exact (checksum_field_flip_rejected (sample_frame 0) 1543 7 eq_refl Ha
           ltac:(lia) ltac:(lia)).
Defined.

(** ** Exchanged samples *)

Lemma swap_words_length (frame : list byte) (a b : nat) :
  List.length (swap_words frame a b) = List.length frame.
Proof. unfold swap_words. rewrite length_map. apply length_seq. Qed.

Lemma byte_at_swap_words (frame : list byte) (a b i : nat) :
  (i < List.length frame)%nat ->
  byte_at (swap_words frame a b) i
  = byte_at frame (2 * exchange a b (Nat.div2 i) + (i - 2 * Nat.div2 i)).
Proof.
  intros Hi. unfold byte_at, swap_words. f_equal.
  rewrite (nth_indep _ Byte.x00
             (nth (2 * exchange a b (Nat.div2 0) + (0 - 2 * Nat.div2 0))
                  frame Byte.x00))
    by (rewrite length_map, length_seq; exact Hi).
  rewrite (map_nth (fun i => nth (2 * exchange a b (Nat.div2 i)
                                  + (i - 2 * Nat.div2 i)) frame Byte.x00)).
  rewrite seq_nth by exact Hi. reflexivity.
Qed.

Lemma div2_double (m : nat) :
  Nat.div2 (2 * m) = m /\ Nat.div2 (2 * m + 1) = m.
Proof.
  split.
  - destruct (div2_cases (2 * m)); lia.
  - destruct (div2_cases (2 * m + 1)); lia.
Qed.

Lemma le_word_swap_words (frame : list byte) (a b m : nat) :
  (2 * m + 1 < List.length frame)%nat ->
  le_word (swap_words frame a b) m = le_word frame (exchange a b m).
Proof.
  intros Hm. unfold le_word. rewrite !byte_at_swap_words by lia.
  destruct (div2_double m) as [-> ->].
  replace (2 * exchange a b m + (2 * m - 2 * m))%nat
    with (2 * exchange a b m)%nat by lia.
  replace (2 * exchange a b m + (2 * m + 1 - 2 * m))%nat
    with (2 * exchange a b m + 1)%nat by lia.
  reflexivity.
Qed.

Lemma sum_seq_exchange (g : nat -> Z) (a b n : nat) :
  (a < n)%nat -> (b < n)%nat ->
  fold_right Z.add 0 (map (fun m => g (exchange a b m)) (seq 0 n))
  = fold_right Z.add 0 (map g (seq 0 n)).
Proof.
  intros Ha Hb.
  set (g1 := fun m => if (m =? a)%nat then g b else g m).
  rewrite (sum_seq_update g1 (fun m => g (exchange a b m)) b n 0);
    [| | lia].
  - rewrite (sum_seq_update g g1 a n 0); [| | lia].
    + unfold g1, exchange. rewrite Nat.eqb_refl.
      destruct (b =? a)%nat eqn:E.
      * apply Nat.eqb_eq in E. subst b. lia.
      * rewrite Nat.eqb_refl. lia.
    + intros m Hm. unfold g1. apply Nat.eqb_neq in Hm. rewrite Hm.
      reflexivity.
  - intros m Hm. unfold g1, exchange. apply Nat.eqb_neq in Hm.
    rewrite Hm. destruct (m =? a)%nat; reflexivity.
Qed.

(** X11.  Lines 68-71: the checksum does not see the order of the
    samples.  Exchanging the samples [a] and [b] of an accepted frame
    gives an accepted frame, and its grid has the two temperatures
    exchanged. *)
Theorem exchanged_samples_accepted (frame : list byte) (a b : nat) :
  List.length frame = FRAME_LEN ->
  validate frame = Accepted ->
  (a < 768)%nat -> (b < 768)%nat ->
  let frame' := swap_words frame (a + 2) (b + 2) in
  List.length frame' = FRAME_LEN
  /\ validate frame' = Accepted
  /\ forall i, (i < 768)%nat ->
       nth i (temps (scan frame')) 0%Q
       = nth (exchange a b i) (temps (scan frame)) 0%Q.
Proof.
  intros Hlen Hacc Ha Hb frame'. unfold FRAME_LEN in Hlen.
  assert (Hlen' : List.length frame' = 1544%nat)
    by (unfold frame'; rewrite swap_words_length; exact Hlen).
  assert (Hw : forall m, (m < 772)%nat ->
                 le_word frame' m = le_word frame (exchange (a + 2) (b + 2) m))
    by (intros m Hm; apply le_word_swap_words; lia).
  assert (Hfix : forall m, (m < 2 \/ 770 <= m)%nat ->
                   exchange (a + 2) (b + 2) m = m).
  { intros m Hm. unfold exchange.
    destruct (m =? a + 2)%nat eqn:E1; [apply Nat.eqb_eq in E1; lia|].
    destruct (m =? b + 2)%nat eqn:E2; [apply Nat.eqb_eq in E2; lia|].
    reflexivity. }
  split; [exact Hlen'|]. split.
  - destruct (validate_cases frame) as (_ & _ & Hv).
    apply Hv in Hacc. destruct Hacc as [[H0 H1] Hs].
    apply (validate_cases frame'). split; [split|].
    + unfold frame'. rewrite byte_at_swap_words by lia.
      change (Nat.div2 0) with 0%nat. rewrite Hfix by lia. exact H0.
    + unfold frame'. rewrite byte_at_swap_words by lia.
      change (Nat.div2 1) with 0%nat. rewrite Hfix by lia. exact H1.
    + unfold trailing_word. rewrite Hw, Hfix by lia.
      fold (trailing_word frame). rewrite <- Hs.
      unfold modular_sum16, word_sum. f_equal.
      rewrite <- (sum_seq_exchange (le_word frame) (a + 2) (b + 2) 771)
        by lia.
      apply sum_seq_ext. intros m Hm. apply Hw. lia.
  - intros i Hi.
    assert (He : (exchange a b i < 768)%nat).
    { unfold exchange. destruct (i =? a)%nat; [exact Hb|].
      destruct (i =? b)%nat; assumption. }
    rewrite !nth_temps_scan by assumption.
    rewrite !pixel_temp_word by lia. rewrite Hw by lia.
    do 3 f_equal. unfold exchange.
    destruct (i =? a)%nat eqn:E1.
    + apply Nat.eqb_eq in E1. subst i. rewrite Nat.eqb_refl. reflexivity.
    + apply Nat.eqb_neq in E1.
      destruct (i + 2 =? a + 2)%nat eqn:E1'; [apply Nat.eqb_eq in E1'; lia|].
      destruct (i =? b)%nat eqn:E2.
      * apply Nat.eqb_eq in E2. subst i. rewrite Nat.eqb_refl. reflexivity.
      * apply Nat.eqb_neq in E2.
        destruct (i + 2 =? b + 2)%nat eqn:E2'; [apply Nat.eqb_eq in E2'; lia|].
        reflexivity.
Qed.

Lemma exchanged_samples_accepted_witness :
  List.length (sample_frame 0) = FRAME_LEN
  /\ validate (sample_frame 0) = Accepted
  /\ (0 < 768)%nat /\ (5 < 768)%nat
  /\ validate (swap_words (sample_frame 0) (0 + 2) (5 + 2)) = Accepted.
Proof.
  assert (Ha : validate (sample_frame 0) = Accepted).
  { apply encode_frame_accepted; [apply one_hot_pixel_length | reflexivity]. }
  split; [reflexivity|]. split; [exact Ha|]. split; [lia|]. split; [lia|].
  exact (proj1 (proj2 (exchanged_samples_accepted (sample_frame 0) 0 5
                         eq_refl Ha ltac:(lia) ltac:(lia)))).
Defined.

(** ** The board temperature and its two decimals *)

Lemma round_half_even_near (q : Q) (z : Z) :
  (Qabs (q - inject_Z z) < 1 # 2)%Q -> round_half_even q = z.
Proof.
  intros H. apply Qabs_Qlt_condition in H.
  pose proof (round_half_even_error q) as He.
  apply Qabs_Qle_condition in He.
  set (n := round_half_even q) in *.
  assert (Hlt : (inject_Z (n - z) < inject_Z 1)%Q)
    by (unfold Z.sub; rewrite inject_Z_plus, inject_Z_opp;
        change (inject_Z 1) with 1%Q; lra).
  assert (Hgt : (inject_Z (-1) < inject_Z (n - z))%Q)
    by (unfold Z.sub; rewrite inject_Z_plus, inject_Z_opp;
        change (inject_Z (-1)) with (-1)%Q; lra).
  rewrite <- Zlt_Qlt in Hlt, Hgt. lia.
Qed.

Lemma hundredths_of_decoded (r : Z) :
  0 <= r < 2 ^ 16 ->
  round_half_even (Qabs (fdiv (inject_Z r) 100) * inject_Z 100) = r.
Proof.
  intros Hr. apply round_half_even_near.
  pose proof (decode_error r Hr) as He.
  destruct (fdiv_100_bounds r Hr) as [H0 _].
  rewrite (Qabs_pos _ H0).
  apply Qabs_Qle_condition in He. apply Qabs_Qlt_condition.
  change (inject_Z 100) with 100%Q.
  change (1 # 2 ^ 44)%Q with (1 # 17592186044416)%Q in He.
  set (x := fdiv (inject_Z r) 100) in *.
  assert (Hx : (inject_Z r / 100 == inject_Z r * (1 # 100))%Q)
    by (unfold Qdiv; reflexivity).
  rewrite Hx in He. lra.
Qed.

Lemma format_hundredths (r : Z) :
  0 <= r < 2 ^ 16 ->
  format_fixed 2 (fdiv (inject_Z r) 100)
  = (digits_of (r / 100) ++ "." ++ zero_pad 2 (digits_of (r mod 100)))%string.
Proof.
  intros Hr. unfold format_fixed.
  change (10 ^ Z.of_nat 2) with 100.
  rewrite (hundredths_of_decoded r Hr).
  assert (Hs : Qltb (fdiv (inject_Z r) 100) 0 = false)
    by (apply Qltb_ge, fdiv_100_bounds, Hr).
  rewrite Hs. reflexivity.
Qed.

(** X12.  Lines 87 and 102-103: a 16-bit raw value divided by 100.0
    and printed with two decimals shows the raw value exactly: the
    hundredths of the float round to [r], and the text is [r / 100], a
    point, and [r mod 100] on two digits. *)
Theorem two_decimals_exact (r : Z) :
  0 <= r < 2 ^ 16 ->
  round_half_even (fdiv (inject_Z r) 100 * 100) = r
  /\ format_fixed 2 (fdiv (inject_Z r) 100)
     = (digits_of (r / 100) ++ "."
        ++ zero_pad 2 (digits_of (r mod 100)))%string.
Proof.
  intros Hr. split; [|apply format_hundredths, Hr].
  rewrite <- (hundredths_of_decoded r Hr) at 2.
  destruct (fdiv_100_bounds r Hr) as [H0 _].
  apply Z.le_antisymm; apply round_half_even_mono;
    rewrite (Qabs_pos _ H0); apply Qle_refl.
Qed.

Lemma two_decimals_exact_witness :
  0 <= 2537 < 2 ^ 16
  /\ format_fixed 2 (fdiv (inject_Z 2537) 100) = "25.37"%string.
Proof.
  split; [lia|]. exact (proj2 (two_decimals_exact 2537 ltac:(lia))).
Defined.

Lemma append_assoc (s1 s2 s3 : string) :
  ((s1 ++ s2) ++ s3 = s1 ++ s2 ++ s3)%string.
Proof.
  induction s1 as [|c s1 IH]; [reflexivity|].
  cbn [String.append]. rewrite IH. reflexivity.
Qed.

Lemma last_two_pair (frame : list byte) :
  List.length frame = FRAME_LEN ->
  last_two frame = [nth 1542 frame Byte.x00; nth 1543 frame Byte.x00].
Proof.
  intros Hlen. unfold last_two. rewrite Hlen.
  change (FRAME_LEN - 2)%nat with 1542%nat.
  rewrite <- (slice_pair frame 1542) by (rewrite Hlen; unfold FRAME_LEN; lia).
  unfold slice. change (1542 + 2 - 1542)%nat with 2%nat.
  symmetry. apply firstn_all2. rewrite length_skipn, Hlen. reflexivity.
Qed.

Lemma machine_temp_trailing_word (frame : list byte) :
  List.length frame = FRAME_LEN ->
  machine_temp frame = fdiv (inject_Z (trailing_word frame)) 100.
Proof.
  intros Hlen. unfold machine_temp, temp_of_raw, from_bytes_little.
  rewrite (last_two_pair frame Hlen), le_combine_pair. reflexivity.
Qed.

Lemma process_events (last : Z) (frame : list byte) (env : cycle_env) :
  events (process last frame env)
  = [Print "Checksum OK.";
     Print ("Sensor board temperature: " ++ degrees 2 (machine_temp frame))]
    ++ snd (vibration_feedback (person_detected (scan frame))
                               (ticks_ms env) last)
    ++ [LcdDisplay (build_image (scan frame) (fps env)); GcCollect].
Proof. reflexivity. Qed.

(** X13.  Lines 72 and 101-103: the sensor board temperature is read
    from the last two bytes of the frame, which are the checksum field.
    In an iteration that reaches the display it is the checksum divided
    by 100.0, and the line printed shows the checksum with a point
    before its last two digits. *)
Theorem board_temperature_is_checksum (last : Z) (env : cycle_env)
        (st : scan_state) :
  ended (cycle last env) = Displayed st ->
  exists frame,
    read_frame env = Some frame
    /\ machine_temp frame = fdiv (inject_Z (compute_checksum frame)) 100
    /\ In (Print ("Sensor board temperature: "
                  ++ digits_of (compute_checksum frame / 100) ++ "."
                  ++ zero_pad 2 (digits_of (compute_checksum frame mod 100))
                  ++ "°C"))
          (events (cycle last env)).
Proof.
  intros Hd.
  destruct (cycle_displayed last env st Hd)
    as (frame & Hread & Hlen & Hacc & _ & Hc).
  exists frame. split; [exact Hread|].
  destruct (validate_cases frame) as (_ & _ & Hv).
  apply Hv in Hacc. destruct Hacc as [_ Hs].
  assert (Hm : machine_temp frame
               = fdiv (inject_Z (compute_checksum frame)) 100).
  { rewrite machine_temp_trailing_word by exact Hlen.
    rewrite compute_checksum_modular_sum16, Hs. reflexivity. }
  split; [exact Hm|].
  rewrite Hc, process_events. apply in_or_app. left. right. left.
  f_equal. f_equal. unfold degrees. rewrite Hm.
  rewrite format_hundredths by apply compute_checksum_range.
  rewrite !append_assoc. reflexivity.
Qed.

Lemma sample_frame_accepted (hot : nat) :
  List.length (sample_frame hot) = FRAME_LEN
  /\ validate (sample_frame hot) = Accepted.
Proof.
  split.
  - apply encode_frame_length; [apply one_hot_pixel_length | reflexivity].
  - apply encode_frame_accepted; [apply one_hot_pixel_length | reflexivity].
Qed.

Lemma cycle_sample_env (hot : nat) (now last : Z) :
  cycle last (sample_env hot now)
  = process last (sample_frame hot) (sample_env hot now).
Proof.
  destruct (sample_frame_accepted hot) as [Hlen Hacc].
  apply cycle_accepted; [reflexivity | reflexivity | exact Hlen | exact Hacc].
Qed.

Lemma ended_sample_env (hot : nat) (now last : Z) :
  ended (cycle last (sample_env hot now)) = Displayed (scan (sample_frame hot)).
Proof. rewrite cycle_sample_env. reflexivity. Qed.

Lemma board_temperature_is_checksum_witness :
  ended (cycle 0 (sample_env 70 1000)) = Displayed (scan (sample_frame 70))
  /\ exists frame,
       read_frame (sample_env 70 1000) = Some frame
       /\ machine_temp frame = fdiv (inject_Z (compute_checksum frame)) 100.
Proof.
  split; [apply ended_sample_env|].
  destruct (board_temperature_is_checksum 0 (sample_env 70 1000)
              (scan (sample_frame 70)) (ended_sample_env 70 1000 0))
    as (frame & Hr & Hm & _).
  exists frame. split; [exact Hr | exact Hm].
Defined.

(** ** What the scan reads *)

(** X14.  Lines 85-88: the scan reads bytes 4 to 1539 only.  Two frames
    of 1544 bytes that agree there give the same scan state and the
    same image, whatever their headers, declared lengths and last four
    bytes. *)
Theorem scan_reads_samples_only (f g : list byte) :
  List.length f = FRAME_LEN -> List.length g = FRAME_LEN ->
  (forall i, (4 <= i < 1540)%nat -> nth i f Byte.x00 = nth i g Byte.x00) ->
  scan f = scan g
  /\ forall fps, build_image (scan f) fps = build_image (scan g) fps.
Proof.
  intros Hf Hg Hsame. unfold FRAME_LEN in *.
  assert (H : scan f = scan g).
  { rewrite !scan_unfold. apply scan_with_ext. intros i Hi.
    apply in_seq in Hi. unfold pixel_temp.
    replace (4 + i * 2 + 2)%nat with ((4 + i * 2) + 2)%nat by lia.
    rewrite !slice_pair by lia.
    rewrite !Hsame by lia. reflexivity. }
  split; [exact H|]. intros fps. rewrite H. reflexivity.
Qed.

Lemma scan_reads_samples_only_witness :
  List.length (sample_frame 0) = FRAME_LEN
  /\ List.length zero_header_frame = FRAME_LEN
  /\ validate (sample_frame 0) = Accepted
  /\ validate zero_header_frame = Rejected InvalidHeader
  /\ scan (sample_frame 0) = scan zero_header_frame.
Proof.
  assert (H : forall i, (4 <= i < 1540)%nat ->
                nth i (sample_frame 0) Byte.x00
                = nth i zero_header_frame Byte.x00).
  { intros i Hi. unfold zero_header_frame.
    destruct i as [|[|i]]; [lia | lia |]. cbn [nth].
    rewrite nth_skipn. reflexivity. }
  split; [reflexivity|]. split; [reflexivity|].
  split; [apply sample_frame_accepted|].
  split; [apply zero_header_rejected; reflexivity|].
  exact (proj1 (scan_reads_samples_only (sample_frame 0) zero_header_frame
                  eq_refl eq_refl H)).
Defined.

(** ** The motor over a whole run *)

(** An iteration either stops at a [continue], touching neither the
    motor nor [last_vibration], or runs the whole body on its frame. *)
Lemma cycle_cases (last : Z) (env : cycle_env) :
  (rejected (cycle last env)
   /\ last_vibration (cycle last env) = last
   /\ (forall e, In e (events (cycle last env)) -> exists s, e = Print s))
  \/ exists frame,
       0 < any_pending env
       /\ read_frame env = Some frame
       /\ List.length frame = FRAME_LEN
       /\ validate frame = Accepted
       /\ cycle last env = process last frame env.
Proof.
  assert (Hdec : (exists st, ended (cycle last env) = Displayed st)
                 \/ rejected (cycle last env)).
  { unfold rejected.
    destruct (ended (cycle last env)) as [| | [|] | st]; eauto 6. }
  destruct Hdec as [[st E] | Hr].
  - right. destruct (cycle_displayed last env st E)
      as (frame & H1 & H2 & H3 & _ & H5).
    exists frame. split; [|repeat split; assumption].
    destruct (Z.leb_spec (any_pending env) 0) as [Hle|Hlt]; [|exact Hlt].
    exfalso. apply Z.leb_le in Hle. unfold cycle in E.
    rewrite Hle in E. discriminate E.
  - left. destruct (rejected_cycle_shape last env Hr) as (log & Hc & Hlog).
    split; [exact Hr|]. rewrite Hc. split; [reflexivity|].
    intros e He. cbn [events skip] in He.
    destruct Hlog as [-> | [s ->]]; [destruct He|].
    destruct He as [<- | []]. exists s. reflexivity.
Qed.

Lemma prints_only_quiet (log : list event) :
  (forall e, In e log -> exists s, e = Print s) ->
  pulses log = 0%nat /\ motor_free log.
Proof.
  intros H. split.
  - induction log as [|e log IH]; [reflexivity|].
    destruct (H e (or_introl eq_refl)) as [s ->].
    change (pulses (Print s :: log)) with (pulses log).
    apply IH. intros e' He'. apply H. right. exact He'.
  - intros v Hin. destruct (H _ Hin) as [s Hs]. discriminate Hs.
Qed.

(** What one iteration does to the motor: one pulse and a new
    [last_vibration] when it reaches the feedback with something
    detected and the interval over, nothing otherwise. *)
Lemma cycle_pulse (last : Z) (env : cycle_env) :
  let r := cycle last env in
  let due :=
    exists st, ended r = Displayed st /\ person_detected st = true
               /\ VIBRATION_INTERVAL_MS < ticks_diff (ticks_ms env) last in
  (due /\ pulses (events r) = 1%nat /\ last_vibration r = ticks_ms env)
  \/ (~ due /\ pulses (events r) = 0%nat /\ last_vibration r = last
      /\ motor_free (events r)).
Proof.
  cbv zeta.
  destruct (cycle_cases last env) as [(Hr & Hl & Hp) | (frame & _ & _ & _ & _ & Hc)].
  - right. destruct (prints_only_quiet _ Hp) as [H0 Hf].
    split; [|split; [exact H0 | split; [exact Hl | exact Hf]]].
    intros (st & Hst & _).
    exact (proj1 (rejected_iff_not_displayed _) Hr st Hst).
  - rewrite Hc.
    change (ended (process last frame env)) with (Displayed (scan frame)).
    change (last_vibration (process last frame env))
      with (fst (vibration_feedback (person_detected (scan frame))
                                    (ticks_ms env) last)).
    rewrite process_events, !pulses_app.
    unfold vibration_feedback.
    destruct (person_detected (scan frame)) eqn:Hd.
    + destruct (VIBRATION_INTERVAL_MS <? ticks_diff (ticks_ms env) last)
        eqn:Ht.
      * left. apply Z.ltb_lt in Ht. split; [|split; reflexivity].
        exists (scan frame). repeat split; assumption.
      * right. apply Z.ltb_ge in Ht. split; [|split; [reflexivity|split; [reflexivity|]]].
        -- intros (st & _ & _ & Hlt). lia.
        -- intros v [H|[H|[H|[H|[]]]]]; discriminate H.
    + right. split; [|split; [reflexivity|split; [reflexivity|]]].
      * intros (st & Hst & Hdet & _). congruence.
      * intros v [H|[H|[H|[H|[]]]]]; discriminate H.
Qed.

Lemma main_loop_cons (last : Z) (env : cycle_env) (rest : list cycle_env) :
  main_loop last (env :: rest)
  = (fst (main_loop (last_vibration (cycle last env)) rest),
     events (cycle last env)
     ++ snd (main_loop (last_vibration (cycle last env)) rest)).
Proof. reflexivity. Qed.

Lemma last_cons_default (t : Z) (l : list Z) (d d' : Z) :
  List.last (t :: l) d = List.last (t :: l) d'.
Proof.
  revert t. induction l as [|u l IH]; intros t; [reflexivity|].
  change (List.last (u :: l) d = List.last (u :: l) d'). apply IH.
Qed.

Lemma last_cons_in (t : Z) (l : list Z) (d : Z) :
  In (List.last (t :: l) d) (t :: l).
Proof.
  revert t. induction l as [|u l IH]; intros t; [left; reflexivity|].
  right. change (In (List.last (u :: l) d) (u :: l)). apply IH.
Qed.

Lemma pulse_times_run (start : Z) (envs : list cycle_env) :
  spaced start (pulse_times start envs)
  /\ List.length (pulse_times start envs)
     = pulses (snd (main_loop start envs))
  /\ fst (main_loop start envs) = List.last (pulse_times start envs) start.
Proof.
  revert start. induction envs as [|env rest IH]; intros start.
  - cbn. auto.
  - rewrite main_loop_cons. cbn [fst snd pulse_times].
    rewrite pulses_app.
    destruct (cycle_pulse start env) as [(Hdue & Hp & Hl) | (_ & Hp & Hl & _)];
      rewrite Hp, Hl; destruct (IH (last_vibration (cycle start env)))
        as (H1 & H2 & H3); rewrite Hl in H1, H2, H3.
    + destruct Hdue as (_ & _ & _ & Hgap).
      cbn [app spaced List.length]. split; [split; assumption|].
      split; [rewrite H2; reflexivity|].
      rewrite H3.
      destruct (pulse_times (ticks_ms env) rest) as [|t l]; [reflexivity|].
      change (List.last (ticks_ms env :: t :: l) start)
        with (List.last (t :: l) start).
      apply last_cons_default.
    + cbn [app Nat.add]. auto.
Qed.

(** X15.  Lines 105-113: an iteration pulses the motor once and sets
    [last_vibration] to its clock reading when it reached the feedback
    with something detected and the reading more than 500 ms after
    [last_vibration]; in every other case it leaves the motor and
    [last_vibration] alone. *)
Theorem pulse_exactly_when_due (last : Z) (env : cycle_env) :
  let r := cycle last env in
  let due :=
    exists st, ended r = Displayed st /\ person_detected st = true
               /\ VIBRATION_INTERVAL_MS < ticks_diff (ticks_ms env) last in
  (due -> pulses (events r) = 1%nat /\ last_vibration r = ticks_ms env)
  /\ (~ due -> pulses (events r) = 0%nat /\ last_vibration r = last
               /\ motor_free (events r)).
Proof.
  cbv zeta.
  destruct (cycle_pulse last env) as [(Hdue & H) | (Hnot & H)].
  - split; [intros _; exact H | intros Hn; destruct (Hn Hdue)].
  - split; [intros Hdue; destruct (Hnot Hdue) | intros _; exact H].
Qed.

Lemma pulse_times_from_run (start : Z) (envs : list cycle_env) (t : Z) :
  In t (pulse_times start envs) ->
  exists env, In env envs /\ t = ticks_ms env.
Proof.
  revert start. induction envs as [|env rest IH]; intros start Hin.
  - destruct Hin.
  - cbn [pulse_times] in Hin. apply in_app_or in Hin.
    destruct Hin as [Hin | Hin].
    + destruct (pulses (events (cycle start env))); [destruct Hin|].
      destruct Hin as [<- | []]. exists env. split; [left|]; reflexivity.
    + destruct (IH _ Hin) as (e & He & Ht). exists e.
      split; [right; exact He | exact Ht].
Qed.

(** X16.  Lines 45 and 105-113: over any run, each clock reading at
    which the motor was pulsed is more than 500 ms after the one
    before, the first more than 500 ms after the initial
    [last_vibration]; the trace holds one pulse per reading, and
    [last_vibration] ends as the last reading, or as it started when
    there was none.  Every such reading is the clock reading of an
    iteration of the run. *)
Theorem pulses_are_spaced (start : Z) (envs : list cycle_env) :
  spaced start (pulse_times start envs)
  /\ List.length (pulse_times start envs)
     = pulses (snd (main_loop start envs))
  /\ fst (main_loop start envs) = List.last (pulse_times start envs) start
  /\ forall t, In t (pulse_times start envs) ->
       exists env, In env envs /\ t = ticks_ms env.
Proof.
  destruct (pulse_times_run start envs) as (Hs & Hl & Hf).
  split; [exact Hs|]. split; [exact Hl|]. split; [exact Hf|].
  intros t Ht. exact (pulse_times_from_run start envs t Ht).
Qed.

Lemma spaced_last (last : Z) (times : list Z) :
  spaced last times ->
  last + VIBRATION_INTERVAL_MS * Z.of_nat (List.length times)
  <= List.last times last.
Proof.
  revert last. induction times as [|t times IH]; intros last H.
  - cbn. lia.
  - destruct H as [Hgap Hrest]. specialize (IH t Hrest).
    unfold ticks_diff in Hgap.
    rewrite (last_cons_default t times last t).
    assert (Hl : List.last (t :: times) t = List.last times t).
    { destruct times as [|u times]; [reflexivity|].
      change (List.last (t :: u :: times) t) with (List.last (u :: times) t).
      reflexivity. }
    rewrite Hl. cbn [List.length]. unfold VIBRATION_INTERVAL_MS in *. lia.
Qed.

(** X17.  Lines 105-113: if the clock readings of a run stay within
    [span] ms of the initial [last_vibration], 500 times the number of
    pulses is at most [span]. *)
Theorem pulse_rate_bound (start span : Z) (envs : list cycle_env) :
  0 <= span ->
  (forall env, In env envs -> ticks_ms env <= start + span) ->
  VIBRATION_INTERVAL_MS * Z.of_nat (pulses (snd (main_loop start envs)))
  <= span.
Proof.
  intros Hspan Hwithin.
  destruct (pulse_times_run start envs) as (Hsp & Hlen & _).
  rewrite <- Hlen. pose proof (spaced_last start _ Hsp) as Hb.
  destruct (pulse_times start envs) as [|t times] eqn:E.
  - cbn. lia.
  - assert (Hin : In (List.last (t :: times) start) (pulse_times start envs)).
    { rewrite E. apply last_cons_in. }
    destruct (pulse_times_from_run _ _ _ Hin) as (env & He & Ht).
    specialize (Hwithin env He). lia.
Qed.

Lemma pulse_rate_bound_witness :
  0 <= 900
  /\ (forall env, In env [sample_env 70 1600; sample_env 70 1900] ->
                  ticks_ms env <= 1000 + 900)
  /\ VIBRATION_INTERVAL_MS
     * Z.of_nat (pulses (snd (main_loop 1000 [sample_env 70 1600;
                                              sample_env 70 1900])))
     <= 900.
Proof.
  assert (H : forall env, In env [sample_env 70 1600; sample_env 70 1900] ->
                ticks_ms env <= 1000 + 900).
  { intros env [<- | [<- | []]]; cbn; lia. }
  split; [lia|]. split; [exact H|].
  exact (pulse_rate_bound 1000 900 _ ltac:(lia) H).
Defined.

Lemma motor_after_app (on : bool) (l1 l2 : list event) :
  motor_after on (l1 ++ l2) = motor_after (motor_after on l1) l2.
Proof.
  revert on. induction l1 as [|e l1 IH]; intros on; [reflexivity|].
  destruct e; cbn [app motor_after]; apply IH.
Qed.

Lemma motor_on_ms_app (on : bool) (l1 l2 : list event) :
  motor_on_ms on (l1 ++ l2)
  = motor_on_ms on l1 + motor_on_ms (motor_after on l1) l2.
Proof.
  revert on. induction l1 as [|e l1 IH]; intros on; [reflexivity|].
  destruct e; cbn [app motor_after motor_on_ms]; rewrite IH; lia.
Qed.

Lemma prints_only_motor (on : bool) (log : list event) :
  (forall e, In e log -> exists s, e = Print s) ->
  motor_after on log = on /\ motor_on_ms on log = 0.
Proof.
  intros H. induction log as [|e log IH]; [split; reflexivity|].
  destruct (H e (or_introl eq_refl)) as [s ->].
  cbn [motor_after motor_on_ms]. apply IH.
  intros e' He'. apply H. right. exact He'.
Qed.

(** Every iteration leaves the motor off if it found it off, and keeps
    it on for 100 ms per pulse. *)
Lemma cycle_motor (last : Z) (env : cycle_env) :
  motor_after false (events (cycle last env)) = false
  /\ motor_on_ms false (events (cycle last env))
     = 100 * Z.of_nat (pulses (events (cycle last env))).
Proof.
  destruct (cycle_cases last env) as [(_ & _ & Hp) | (frame & _ & _ & _ & _ & Hc)].
  - destruct (prints_only_motor false _ Hp) as [-> ->].
    destruct (prints_only_quiet _ Hp) as [-> _]. split; reflexivity.
  - rewrite Hc, process_events.
    rewrite ?motor_on_ms_app, ?motor_after_app, ?pulses_app.
    unfold vibration_feedback.
    destruct (person_detected (scan frame));
      [destruct (VIBRATION_INTERVAL_MS <? ticks_diff (ticks_ms env) last)|];
      split; reflexivity.
Qed.

(** X18.  Lines 33 and 109-111: the motor pin, low when the loop
    starts, is low again after any run, and the time it was high is
    100 ms for each pulse. *)
Theorem motor_off_after_every_run (last : Z) (envs : list cycle_env) :
  motor_after false (snd (main_loop last envs)) = false
  /\ motor_on_ms false (snd (main_loop last envs))
     = 100 * Z.of_nat (pulses (snd (main_loop last envs))).
Proof.
  revert last. induction envs as [|env rest IH]; intros last.
  - split; reflexivity.
  - rewrite main_loop_cons. cbn [snd].
    rewrite motor_after_app, motor_on_ms_app, pulses_app.
    destruct (cycle_motor last env) as [-> ->].
    destruct (IH (last_vibration (cycle last env))) as [-> ->].
    split; [reflexivity | lia].
Qed.


Lemma without_prints_only (log : list event) :
  (forall e, In e log -> exists s, e = Print s) -> without_prints log = [].
Proof.
  intros H. induction log as [|e log IH]; [reflexivity|].
  destruct (H e (or_introl eq_refl)) as [s ->].
  cbn [without_prints filter]. apply IH.
  intros e' He'. apply H. right. exact He'.
Qed.

(** X20.  Lines 50-77: the iterations that do not reach the display
    leave nothing but printed lines.  Taking them out of a run changes
    neither the final [last_vibration] nor the trace without its
    printed lines. *)
Theorem failed_reads_leave_no_trace (last : Z) (envs : list cycle_env) :
  let kept := filter reaches_display envs in
  fst (main_loop last envs) = fst (main_loop last kept)
  /\ without_prints (snd (main_loop last envs))
     = without_prints (snd (main_loop last kept)).
Proof.
  cbv zeta. revert last. induction envs as [|env rest IH]; intros last.
  - split; reflexivity.
  - cbn [filter]. rewrite main_loop_cons. cbn [fst snd].
    unfold without_prints at 1. rewrite filter_app.
    fold (without_prints (events (cycle last env))).
    fold (without_prints
            (snd (main_loop (last_vibration (cycle last env)) rest))).
    destruct (reaches_display env) eqn:E.
    + rewrite main_loop_cons. cbn [fst snd].
      unfold without_prints at 3. rewrite filter_app.
      destruct (IH (last_vibration (cycle last env))) as [-> ->].
      split; reflexivity.
    + destruct (cycle_cases last env)
        as [(_ & Hl & Hp) | (frame & Hany & Hread & Hlen & Hacc & _)].
      * rewrite (without_prints_only _ Hp), Hl. apply IH.
      * exfalso. unfold reaches_display in E.
        rewrite (cycle_accepted 0 env frame Hany Hread Hlen Hacc) in E.
        discriminate E.
Qed.

(** ** The image *)





Lemma b64_Qeq (q1 q2 : Q) :
  (0 <= q1)%Q -> (q1 == q2)%Q -> (b64 q1 == b64 q2)%Q.
Proof.
  intros H0 He. apply Qle_antisym; apply b64_mono; lra.
Qed.

Lemma b64_zero (q : Q) : (q == 0)%Q -> b64 q = 0%Q.
Proof.
  intros H. unfold b64. unfold Qeq in H. cbn in H.
  rewrite Z.mul_1_r in H. rewrite H. reflexivity.
Qed.

Lemma b64_positive (q : Q) : (0 < q)%Q -> (0 < b64 q)%Q.
Proof.
  intros H. pose proof (b64_lower q H) as Hl.
  assert (Hp : (0 < q - q * (1 # 2 ^ 53))%Q); [|lra].
  setoid_replace (q - q * (1 # 2 ^ 53))%Q
    with (q * (1 - (1 # 2 ^ 53)))%Q by ring.
  apply Qmult_lt_0_compat; [exact H | reflexivity].
Qed.

Lemma py_int_inject (q : Q) (z : Z) : (q == inject_Z z)%Q -> py_int q = z.
Proof.
  intros H. unfold py_int. unfold Qeq in H. cbn in H.
  rewrite Z.mul_1_r in H. rewrite H. apply Z.quot_mul. discriminate.
Qed.

(** A sample equal to the lower end of the scale is written as 0, one
    equal to the upper end as 255. *)
Lemma scaled_value_low (t lo hi : Q) :
  (t == lo)%Q -> py_int (scaled_value t lo hi) = 0.
Proof.
  intros H. unfold scaled_value, fsub at 1.
  rewrite (b64_zero (t - lo)) by lra. reflexivity.
Qed.

Lemma scaled_value_high (t lo hi : Q) :
  (t == hi)%Q -> (lo < hi)%Q -> py_int (scaled_value t lo hi) = 255.
Proof.
  intros H Hlt. apply py_int_inject. unfold scaled_value, fmul, fdiv, fsub.
  assert (Hb : (0 < b64 (hi - lo))%Q) by (apply b64_positive; lra).
  assert (Ha : (b64 (t - lo) == b64 (hi - lo))%Q)
    by (apply b64_Qeq; lra).
  destruct b64_small_integers as (_ & H1 & H255).
  assert (Hc : (b64 (b64 (t - lo) / b64 (hi - lo)) == 1)%Q).
  { rewrite <- H1. apply b64_Qeq.
    - apply Qle_shift_div_l; [exact Hb|]. rewrite Ha. lra.
    - rewrite Ha. field. lra. }
  change (inject_Z 255) with 255%Q. rewrite <- H255 at 2.
  apply b64_Qeq; [rewrite Hc; lra | rewrite Hc; ring].
Qed.

Lemma widen_distinct (st : scan_state) :
  ~ (max_temp st == min_temp st)%Q -> widen st = max_temp st.
Proof.
  intros H. unfold widen.
  destruct (Qeq_bool (max_temp st) (min_temp st)) eqn:E; [|reflexivity].
  apply Qeq_bool_iff in E. destruct (H E).
Qed.

Lemma widen_equal (st : scan_state) :
  (max_temp st == min_temp st)%Q -> widen st = fadd (min_temp st) 1.
Proof.
  intros H. unfold widen. apply Qeq_bool_iff in H. rewrite H. reflexivity.
Qed.

Lemma set_pixel_drawn (st : scan_state) (fps : Q) (x y : nat) :
  (x < 32)%nat -> (y < 24)%nat ->
  In (SetPixel (Z.of_nat x) (Z.of_nat y)
               (py_int (scaled_value (grid_at (temps st) x y)
                                     (min_temp st) (widen st))))
     (build_image st fps).
Proof.
  intros Hx Hy. apply in_build_image_set_pixel, in_grayscale.
  exists x, y. split; [exact Hx|]. split; [exact Hy|]. reflexivity.
Qed.

(** X22.  Lines 117-124: a cell whose sample equals [min_temp] is
    written as 0; a cell whose sample equals [max_temp] is written as
    255 when the two extremes differ. *)
Theorem scale_endpoints (frame : list byte) (fps : Q) (x y : nat) :
  let st := scan frame in
  (x < 32)%nat -> (y < 24)%nat ->
  ((grid_at (temps st) x y == min_temp st)%Q ->
   In (SetPixel (Z.of_nat x) (Z.of_nat y) 0) (build_image st fps))
  /\ ((grid_at (temps st) x y == max_temp st)%Q ->
      ~ (max_temp st == min_temp st)%Q ->
      In (SetPixel (Z.of_nat x) (Z.of_nat y) 255) (build_image st fps)).
Proof.
  cbv zeta. intros Hx Hy.
  pose proof (set_pixel_drawn (scan frame) fps x y Hx Hy) as Hin.
  split.
  - intros Hlo. rewrite scaled_value_low in Hin by exact Hlo. exact Hin.
  - intros Hhi Hne. rewrite scaled_value_high in Hin; [exact Hin | |].
    + rewrite widen_distinct by exact Hne. exact Hhi.
    + rewrite widen_distinct by exact Hne.
      destruct (scan_sound_ordered frame) as [_ Hord].
      apply Qle_lteq in Hord. destruct Hord as [Hlt | Heq]; [exact Hlt|].
      destruct Hne. symmetry. exact Heq.
Qed.

Lemma grid_sample_frame (hot x y : nat) :
  (x < 32)%nat -> (y < 24)%nat ->
  grid_at (temps (scan (sample_frame hot))) x y
  = one_hot_temps hot (y * 32 + x).
Proof.
  intros Hx Hy. unfold grid_at.
  change (Z.to_nat SENSOR_WIDTH) with 32%nat.
  apply nth_temps_sample_frame. lia.
Qed.

Lemma scale_endpoints_witness :
  (6 < 32)%nat /\ (2 < 24)%nat
  /\ In (SetPixel 0 0 0) (build_image (scan (sample_frame 70)) 10)
  /\ In (SetPixel 6 2 255) (build_image (scan (sample_frame 70)) 10).
Proof.
  destruct (scan_sample_frame 70 ltac:(lia)) as (Hmin & Hmax & _).
  split; [lia|]. split; [lia|]. split.
  - apply (proj1 (scale_endpoints (sample_frame 70) 10 0 0
                    ltac:(lia) ltac:(lia))).
    rewrite grid_sample_frame, Hmin by lia. reflexivity.
  - apply (proj2 (scale_endpoints (sample_frame 70) 10 6 2
                    ltac:(lia) ltac:(lia))).
    + rewrite grid_sample_frame, Hmax by lia. reflexivity.
    + rewrite Hmin, Hmax. vm_compute. discriminate.
Defined.

(** X23.  Lines 117-124: when the two extremes are equal and no sample
    is above 300, the upper end of the scale becomes [min_temp + 1] and
    every cell is written as 0. *)
Theorem uniform_scene_is_blank (frame : list byte) (fps : Q) :
  let st := scan frame in
  Forall (fun t => (t <= 300)%Q) (temps st) ->
  (max_temp st == min_temp st)%Q ->
  widen st = fadd (min_temp st) 1
  /\ forall X Y v, In (SetPixel X Y v) (build_image st fps) -> v = 0.
Proof.
  cbv zeta. intros Hall Heq. split; [apply widen_equal, Heq|].
  intros X Y v Hin.
  apply in_build_image_set_pixel, in_grayscale in Hin.
  destruct Hin as (x & y & Hx & Hy & Hop).
  apply (f_equal (fun op => match op with
                            | SetPixel _ _ val => val
                            | _ => 0
                            end)) in Hop.
  cbv beta iota in Hop. rewrite Hop. unfold pixel_value. apply scaled_value_low.
  change (Z.to_nat SENSOR_WIDTH) with 32%nat.
  set (t := nth (y * 32 + x) (temps (scan frame)) 0%Q).
  assert (Ht : In t (temps (scan frame)))
    by (apply nth_In; rewrite length_temps_scan; lia).
  destruct (scan_sound_ordered frame) as [(_ & _ & Hlow) _].
  pose proof (scan_covers frame Hall) as Hcov.
  unfold max_covers in Hcov. rewrite Forall_forall in Hlow, Hcov.
  specialize (Hlow t Ht). specialize (Hcov t Ht). cbv beta in Hlow, Hcov.
  lra.
Qed.

Lemma uniform_scene_is_blank_witness :
  Forall (fun t => (t <= 300)%Q) (temps (scan (uniform_frame 2500)))
  /\ (max_temp (scan (uniform_frame 2500))
      == min_temp (scan (uniform_frame 2500)))%Q
  /\ forall X Y v,
       In (SetPixel X Y v) (build_image (scan (uniform_frame 2500)) 10) ->
       v = 0.
Proof.
  assert (Hb : forallb (fun t => Qle_bool t 300)
                       (temps (scan (uniform_frame 2500)))
               && Qeq_bool (max_temp (scan (uniform_frame 2500)))
                           (min_temp (scan (uniform_frame 2500))) = true)
    by (vm_compute; reflexivity).
  apply andb_true_iff in Hb. destruct Hb as [Hall Heq].
  assert (H1 : Forall (fun t => (t <= 300)%Q)
                      (temps (scan (uniform_frame 2500)))).
  { apply Forall_forall. intros t Ht.
    rewrite forallb_forall in Hall. apply Qle_bool_iff, Hall, Ht. }
  apply Qeq_bool_iff in Heq.
  split; [exact H1|]. split; [exact Heq|].
  exact (proj2 (uniform_scene_is_blank (uniform_frame 2500) 10 H1 Heq)).
Defined.

(** ** Reads that fail *)

(** How an iteration ends, by cases on what the UART answered. *)
Lemma ended_cases (last : Z) (env : cycle_env) :
  (any_pending env <= 0 /\ cycle last env = skip NoData last [])
  \/ (0 < any_pending env /\ incomplete env = true
      /\ cycle last env
         = skip IncompleteFrame last [Print "Incomplete frame received."])
  \/ (0 < any_pending env /\ incomplete env = false
      /\ exists o, ended (cycle last env) = o
           /\ o <> NoData /\ o <> IncompleteFrame).
Proof.
  unfold cycle.
  destruct (Z.leb_spec (any_pending env) 0) as [Hle | Hlt].
  - left. split; [exact Hle | reflexivity].
  - right. destruct (incomplete env) eqn:Ei.
    + left. split; [exact Hlt|]. split; reflexivity.
    + right. split; [exact Hlt|]. split; [reflexivity|].
      set (p := process last (the_frame env) env).
      assert (Hp : ended p = Displayed (scan (the_frame env)))
        by reflexivity.
      clearbody p.
      destruct (validate (the_frame env)) as [|[|]].
      * exists (Displayed (scan (the_frame env))).
        split; [exact Hp|]. split; discriminate.
      * exists (BadFrame InvalidHeader).
        split; [reflexivity|]. split; discriminate.
      * exists (BadFrame ChecksumMismatch).
        split; [reflexivity|]. split; discriminate.
Qed.

Lemma incomplete_spec (env : cycle_env) :
  incomplete env = true
  <-> forall f, read_frame env = Some f -> List.length f <> FRAME_LEN.
Proof.
  unfold incomplete. destruct (read_frame env) as [f|].
  - destruct (Nat.eqb_spec (List.length f) FRAME_LEN) as [He | Hne].
    + rewrite He. cbn. split; [discriminate|].
      intros H. destruct (H f eq_refl He).
    + rewrite orb_true_r. split; [|reflexivity].
      intros _ f' Hf'. injection Hf' as <-. exact Hne.
  - split; [|reflexivity]. intros _ f Hf. discriminate Hf.
Qed.

(** X24.  Lines 50-57: an iteration ends at the first [continue]
    exactly when [com.any()] is not positive, and then it does nothing;
    it ends at the second exactly when data is pending and the read
    gave [None] or a number of bytes other than 1544, and then it only
    prints its message. *)
Theorem failed_reads (last : Z) (env : cycle_env) :
  (ended (cycle last env) = NoData <-> any_pending env <= 0)
  /\ (ended (cycle last env) = IncompleteFrame
      <-> 0 < any_pending env
          /\ forall f, read_frame env = Some f -> List.length f <> FRAME_LEN)
  /\ (ended (cycle last env) = NoData ->
      cycle last env = skip NoData last [])
  /\ (ended (cycle last env) = IncompleteFrame ->
      cycle last env
      = skip IncompleteFrame last [Print "Incomplete frame received."]).
Proof.
  rewrite <- incomplete_spec.
  destruct (ended_cases last env)
    as [(Hle & Hc) | [(Hlt & Hi & Hc) | (Hlt & Hi & o & Ho & Hn1 & Hn2)]].
  - rewrite Hc. cbn [ended skip].
    intuition (try discriminate; try reflexivity; try lia).
  - rewrite Hc. cbn [ended skip].
    intuition (try discriminate; try reflexivity; try lia).
  - rewrite Ho, Hi.
    intuition (try discriminate; try congruence; try lia).
Qed.

(** ** The scale *)

Lemma widen_above_minimum (frame : list byte) :
  (min_temp (scan frame) < widen (scan frame))%Q.
Proof.
  destruct (scan_sound_ordered frame) as [((Hlo & Hhi) & _ & _) Hord].
  unfold widen.
  destruct (Qeq_bool (max_temp (scan frame)) (min_temp (scan frame))) eqn:E.
  - unfold fadd. set (m := min_temp (scan frame)) in *. clearbody m.
    assert (Hpos : (0 < m + 1)%Q) by lra.
    pose proof (b64_lower (m + 1) Hpos) as Hl.
    assert (Hs : ((m + 1) * (1 # 2 ^ 53) < 1)%Q).
    { apply Qle_lt_trans with (301 * (1 # 2 ^ 53))%Q; [|reflexivity].
      apply Qmult_le_compat_r; [lra | discriminate]. }
    lra.
  - apply Qle_lteq in Hord. destruct Hord as [Hlt | Heq]; [exact Hlt|].
    symmetry in Heq. apply Qeq_bool_iff in Heq. congruence.
Qed.

Lemma py_int_mono (q1 q2 : Q) :
  (0 <= q1)%Q -> (q1 <= q2)%Q -> py_int q1 <= py_int q2.
Proof.
  intros H0 Hle.
  destruct (py_int_truncates q1) as [H1 _]. specialize (H1 H0).
  destruct (py_int_truncates q2) as [H2 _].
  specialize (H2 ltac:(lra)).
  assert (H : (inject_Z (py_int q1) < inject_Z (py_int q2 + 1))%Q)
    by (rewrite inject_Z_plus; change (inject_Z 1) with 1%Q; lra).
  rewrite <- Zlt_Qlt in H. lia.
Qed.

Lemma scaled_value_mono (t1 t2 lo hi : Q) :
  (lo <= t1)%Q -> (t1 <= t2)%Q -> (lo < hi)%Q ->
  (0 <= scaled_value t1 lo hi <= scaled_value t2 lo hi)%Q.
Proof.
  intros H1 H12 Hlt. unfold scaled_value, fmul, fdiv, fsub.
  assert (Hb : (0 < b64 (hi - lo))%Q) by (apply b64_positive; lra).
  assert (Ha0 : (0 <= b64 (t1 - lo))%Q) by (apply b64_nonneg; lra).
  assert (Ha : (b64 (t1 - lo) <= b64 (t2 - lo))%Q)
    by (apply b64_mono; lra).
  set (a1 := b64 (t1 - lo)) in *. set (a2 := b64 (t2 - lo)) in *.
  set (b := b64 (hi - lo)) in *.
  assert (Hq0 : (0 <= a1 / b)%Q)
    by (apply Qle_shift_div_l; [exact Hb | lra]).
  assert (Hq : (a1 / b <= a2 / b)%Q).
  { unfold Qdiv. apply Qmult_le_compat_r; [exact Ha|].
    apply Qlt_le_weak, Qinv_lt_0_compat, Hb. }
  assert (Hc0 : (0 <= b64 (a1 / b))%Q) by (apply b64_nonneg, Hq0).
  assert (Hc : (b64 (a1 / b) <= b64 (a2 / b))%Q)
    by (apply b64_mono; assumption).
  split; [apply b64_nonneg; lra | apply b64_mono; lra].
Qed.

(** X25.  Lines 117-123: after line 118 the upper end of the scale is
    above [min_temp] and the float [max_temp - min_temp] is above zero:
    line 123 never divides by zero. *)
Theorem scale_has_width (frame : list byte) :
  let st := scan frame in
  (min_temp st < widen st)%Q
  /\ (0 < fsub (widen st) (min_temp st))%Q.
Proof.
  cbv zeta. pose proof (widen_above_minimum frame) as H.
  split; [exact H|]. unfold fsub. apply b64_positive. lra.
Qed.

Lemma pixel_value_grid (ts : list Q) (lo hi : Q) (x y : nat) :
  pixel_value ts lo hi x y = py_int (scaled_value (grid_at ts x y) lo hi).
Proof. reflexivity. Qed.

Lemma grid_at_in (frame : list byte) (x y : nat) :
  (x < 32)%nat -> (y < 24)%nat ->
  In (grid_at (temps (scan frame)) x y) (temps (scan frame)).
Proof.
  intros Hx Hy. unfold grid_at. change (Z.to_nat SENSOR_WIDTH) with 32%nat.
  apply nth_In. rewrite length_temps_scan. lia.
Qed.

(** X26.  Lines 122-124: within one image a hotter cell is never
    written darker: the value of a cell is at least 0 and at most the
    value of any cell whose sample is at least as high. *)
Theorem brightness_monotone (frame : list byte) (x1 y1 x2 y2 : nat) :
  let st := scan frame in
  let value x y := pixel_value (temps st) (min_temp st) (widen st) x y in
  (x1 < 32)%nat -> (y1 < 24)%nat -> (x2 < 32)%nat -> (y2 < 24)%nat ->
  (grid_at (temps st) x1 y1 <= grid_at (temps st) x2 y2)%Q ->
  0 <= value x1 y1 <= value x2 y2.
Proof.
  cbv zeta beta. intros Hx1 Hy1 Hx2 Hy2 Hle.
  rewrite !pixel_value_grid.
  pose proof (grid_at_in frame x1 y1 Hx1 Hy1) as Ht.
  destruct (scan_sound_ordered frame) as [(_ & _ & Hlow) _].
  rewrite Forall_forall in Hlow.
  specialize (Hlow _ Ht). cbv beta in Hlow.
  destruct (scaled_value_mono _ _ _ _ Hlow Hle (widen_above_minimum frame))
    as [H0 Hm].
  split.
  - apply Z.le_trans with (py_int 0); [reflexivity|].
    apply py_int_mono; [apply Qle_refl | exact H0].
  - apply py_int_mono; assumption.
Qed.

Lemma brightness_monotone_witness :
  (0 < 32)%nat /\ (0 < 24)%nat /\ (6 < 32)%nat /\ (2 < 24)%nat
  /\ (grid_at (temps (scan (sample_frame 70))) 0 0
      <= grid_at (temps (scan (sample_frame 70))) 6 2)%Q
  /\ pixel_value (temps (scan (sample_frame 70)))
                 (min_temp (scan (sample_frame 70)))
                 (widen (scan (sample_frame 70))) 0 0
     <= pixel_value (temps (scan (sample_frame 70)))
                    (min_temp (scan (sample_frame 70)))
                    (widen (scan (sample_frame 70))) 6 2.
Proof.
  assert (H : (grid_at (temps (scan (sample_frame 70))) 0 0
               <= grid_at (temps (scan (sample_frame 70))) 6 2)%Q).
  { rewrite !grid_sample_frame by lia. vm_compute. discriminate. }
  split; [lia|]. split; [lia|]. split; [lia|]. split; [lia|].
  split; [exact H|].
  exact (proj2 (brightness_monotone (sample_frame 70) 0 0 6 2
                  ltac:(lia) ltac:(lia) ltac:(lia) ltac:(lia) H)).
Defined.
